(** * mcp-document-server: the chunker and the in-memory vector index

    A shallow embedding of [mcp_doc_server/chunker.py] and
    [mcp_doc_server/search.py], and the properties of the chunk-and-retrieve
    pipeline proved (or refuted) on it.

    Conventions.
    - A Python [str] is a list of code points ([str := list N]); [len],
      slicing, [strip], [split] and [rfind] are written out with Python's
      treatment of negative and out-of-range indices.
    - A Python [int] is a [Z].
    - A Python [float] is a primitive IEEE-754 binary64 [float].
    - A Python [dict] is an insertion-ordered association list with unique
      keys ([Dict.set] keeps the position of a key that is already present,
      [Dict.pop] forgets it).
    - A call that may raise returns a [result]; the [while] loop of
      [chunk_text] is run with fuel, [None] meaning that the fuel ran out
      before the loop was left. *)

From Stdlib Require Import ZArith NArith String Ascii Bool Lia List.
From Stdlib Require Import Permutation Sorted.
From Stdlib Require Import PrimFloat SpecFloat FloatOps FloatAxioms.
Import ListNotations.
Local Open Scope Z_scope.

(* ===================================================================== *)
(** * Python values *)
(* ===================================================================== *)

(** Exceptions the modelled code can raise. *)
Inductive exn : Type :=
| ValueError (msg : string)
| ZeroDivisionError
| KeyError
| IndexError
| UnicodeEncodeError
| EmbeddingFailure.

Inductive result (A : Type) : Type :=
| Ok (a : A)
| Raise (e : exn).
Arguments Ok {A} a.
Arguments Raise {A} e.

Definition bind {A B : Type} (r : result A) (k : A -> result B) : result B :=
  match r with
  | Ok a => k a
  | Raise e => Raise e
  end.

Notation "x <- c1 ;; c2" := (bind c1 (fun x => c2))
  (at level 61, c1 at next level, right associativity).

Module PyStr.

(** A string is its sequence of code points. *)
Definition str : Type := list N.

Definition str_eq_dec : forall a b : str, {a = b} + {a <> b} :=
  list_eq_dec N.eq_dec.

Definition str_eqb (a b : str) : bool :=
  if str_eq_dec a b then true else false.

(** An ASCII literal as a Python string. *)
Fixpoint py (s : string) : str :=
  match s with
  | EmptyString => []
  | String c s' => N_of_ascii c :: py s'
  end.

Definition len {A : Type} (l : list A) : Z := Z.of_nat (length l).

(** [str.isspace] on one code point: the characters [str.strip()] and
    [str.split()] treat as whitespace. *)
Definition is_space (c : N) : bool :=
  ((9 <=? c) && (c <=? 13) || (28 <=? c) && (c <=? 32)
   || (c =? 133) || (c =? 160) || (c =? 5760)
   || (8192 <=? c) && (c <=? 8202)
   || (c =? 8232) || (c =? 8233) || (c =? 8239) || (c =? 8287)
   || (c =? 12288))%N.

Fixpoint lstrip (s : str) : str :=
  match s with
  | [] => []
  | c :: s' => if is_space c then lstrip s' else s
  end.

Definition rstrip (s : str) : str := rev (lstrip (rev s)).

(** [s.strip()] *)
Definition strip (s : str) : str := rstrip (lstrip s).

(** Only whitespace (or nothing). *)
Definition blank (s : str) : bool := forallb is_space s.

(** Truth value of a string or list: non-empty. *)
Definition truthy {A : Type} (l : list A) : bool :=
  match l with [] => false | _ :: _ => true end.

(** [len(s.split())]: the number of maximal runs of non-whitespace. *)
Fixpoint count_words (in_word : bool) (s : str) : Z :=
  match s with
  | [] => 0
  | c :: s' =>
      if is_space c then count_words false s'
      else (if in_word then 0 else 1) + count_words true s'
  end.

Definition word_count (s : str) : Z := count_words false s.

(** Slice bounds, as [PySlice_AdjustIndices] with step 1: a negative
    bound counts from the end, and both are clamped to [0, n]. *)
Definition adjust (n i : Z) : Z :=
  if i <? 0 then Z.max 0 (i + n) else Z.min i n.

(** [l[lo:hi]]; an omitted bound is [None]. *)
Definition slice {A : Type} (l : list A) (lo hi : option Z) : list A :=
  let n := len l in
  let a := match lo with Some i => adjust n i | None => 0 end in
  let b := match hi with Some i => adjust n i | None => n end in
  firstn (Z.to_nat (b - a)) (skipn (Z.to_nat a) l).

Fixpoint starts_with (sub s : str) : bool :=
  match sub, s with
  | [], _ => true
  | _ :: _, [] => false
  | x :: sub', y :: s' => N.eqb x y && starts_with sub' s'
  end.

(** Candidates [a + k - 1], ..., [a], highest first. *)
Fixpoint rfind_down (s sub : str) (a : Z) (k : nat) : Z :=
  match k with
  | O => -1
  | S k' =>
      let i := a + Z.of_nat k' in
      if starts_with sub (skipn (Z.to_nat i) s) then i
      else rfind_down s sub a k'
  end.

(** [s.rfind(sub, start, end)]: the highest index in [start, end - len(sub)]
    at which [sub] occurs, or -1. The bounds are adjusted as CPython's
    [ADJUST_INDICES] does ([start] is not clamped from above). *)
Definition rfind (s sub : str) (start stop : Z) : Z :=
  let n := len s in
  let b := if n <? stop then n
           else if stop <? 0 then Z.max 0 (stop + n) else stop in
  let a := if start <? 0 then Z.max 0 (start + n) else start in
  if b - a <? len sub then -1
  else rfind_down s sub a (Z.to_nat (b - a - len sub + 1)).

(** Decimal rendering of an [int], as [str(n)] and the f-string do. *)
Fixpoint digits_fuel (fuel : nat) (n : N) (acc : str) : str :=
  match fuel with
  | O => acc
  | S f =>
      let acc' := (48 + n mod 10)%N :: acc in
      if (n <? 10)%N then acc' else digits_fuel f (n / 10)%N acc'
  end.

Definition str_of_int (z : Z) : str :=
  let n := Z.to_N (Z.abs z) in
  let ds := digits_fuel (S (N.to_nat (N.log2 n))) n [] in
  if z <? 0 then 45%N :: ds else ds.

(** A lone surrogate, U+D800 to U+DFFF: the code points that
    [str.encode()] refuses. *)
Definition is_surrogate (c : N) : bool := ((55296 <=? c) && (c <=? 57343))%N.

(** No code point of [s] is a lone surrogate. *)
Definition encodable (s : str) : bool :=
  forallb (fun c => negb (is_surrogate c)) s.

(** The UTF-8 bytes of one code point that is not a surrogate. *)
Definition utf8_char (c : N) : list Z :=
  let z := Z.of_N c in
  if z <? 128 then [z]
  else if z <? 2048 then
    [Z.lor 192 (Z.shiftr z 6); Z.lor 128 (Z.land z 63)]
  else if z <? 65536 then
    [Z.lor 224 (Z.shiftr z 12);
     Z.lor 128 (Z.land (Z.shiftr z 6) 63);
     Z.lor 128 (Z.land z 63)]
  else
    [Z.lor 240 (Z.land (Z.shiftr z 18) 7);
     Z.lor 128 (Z.land (Z.shiftr z 12) 63);
     Z.lor 128 (Z.land (Z.shiftr z 6) 63);
     Z.lor 128 (Z.land z 63)].

(** The UTF-8 bytes of a string without lone surrogates. *)
Definition utf8 (s : str) : list Z := flat_map utf8_char s.

(** [s.encode()]: the UTF-8 bytes, or [UnicodeEncodeError] if [s] holds a
    lone surrogate. *)
Definition encode (s : str) : result (list Z) :=
  if encodable s then Ok (utf8 s) else Raise UnicodeEncodeError.

End PyStr.
Import PyStr.

(* ===================================================================== *)
(** * hashlib.sha256 *)
(* ===================================================================== *)

Module Sha256.

Definition w32 (x : Z) : Z := x mod 4294967296.
Definition add32 (x y : Z) : Z := w32 (x + y).
Definition rotr (n x : Z) : Z :=
  Z.lor (Z.shiftr x n) (w32 (Z.shiftl x (32 - n))).

Definition is_prime (n : nat) : bool :=
  forallb (fun d => negb (Nat.eqb (Nat.modulo n d) 0)) (List.seq 2 (n - 2)).

(** The first 64 primes: 2, ..., 311. *)
Definition primes : list Z :=
  Eval vm_compute in map Z.of_nat (filter is_prime (List.seq 2 310)).

(** Integer cube root, bit by bit from 2^[bits - 1] down. *)
Fixpoint cube_root (bits : nat) (n r : Z) : Z :=
  match bits with
  | O => r
  | S b =>
      let r' := r + Z.shiftl 1 (Z.of_nat b) in
      cube_root b n (if r' * r' * r' <=? n then r' else r)
  end.

(** The round constants: the first 32 bits of the fractional parts of the
    cube roots of the first 64 primes. *)
Definition K : list Z :=
  Eval vm_compute in
    map (fun p => w32 (cube_root 36 (Z.shiftl p 96) 0)) primes.

(** The initial hash value: the same of the square roots of the first 8
    primes. *)
Definition H0 : list Z :=
  Eval vm_compute in
    map (fun p => w32 (Z.sqrt (Z.shiftl p 64))) (firstn 8 primes).

(** [x] on [width] bytes, most significant first. *)
Definition be_bytes (width : nat) (x : Z) : list Z :=
  map (fun i => Z.land (Z.shiftr x (8 * Z.of_nat i)) 255) (rev (seq 0 width)).

(** Padding: a 1 bit, zeros up to 56 mod 64, the bit length on 8 bytes. *)
Definition pad (msg : list Z) : list Z :=
  let n := len msg in
  let zeros := Z.to_nat ((55 - n) mod 64) in
  msg ++ [128] ++ repeat 0 zeros ++ be_bytes 8 (8 * n).

Fixpoint words (fuel : nat) (bs : list Z) : list Z :=
  match fuel, bs with
  | S f, b0 :: b1 :: b2 :: b3 :: rest =>
      (Z.shiftl b0 24 + Z.shiftl b1 16 + Z.shiftl b2 8 + b3) :: words f rest
  | _, _ => []
  end.

Definition small_sigma0 (x : Z) : Z :=
  Z.lxor (Z.lxor (rotr 7 x) (rotr 18 x)) (Z.shiftr x 3).
Definition small_sigma1 (x : Z) : Z :=
  Z.lxor (Z.lxor (rotr 17 x) (rotr 19 x)) (Z.shiftr x 10).
Definition big_sigma0 (x : Z) : Z :=
  Z.lxor (Z.lxor (rotr 2 x) (rotr 13 x)) (rotr 22 x).
Definition big_sigma1 (x : Z) : Z :=
  Z.lxor (Z.lxor (rotr 6 x) (rotr 11 x)) (rotr 25 x).
Definition ch (x y z : Z) : Z :=
  Z.lxor (Z.land x y) (Z.land (Z.lxor x 4294967295) z).
Definition maj (x y z : Z) : Z :=
  Z.lxor (Z.lxor (Z.land x y) (Z.land x z)) (Z.land y z).

(** The message schedule, newest word first: [w] holds W[t-1], W[t-2], ... *)
Fixpoint schedule (n : nat) (w : list Z) : list Z :=
  match n with
  | O => w
  | S n' =>
      let w2 := nth 1 w 0 in
      let w7 := nth 6 w 0 in
      let w15 := nth 14 w 0 in
      let w16 := nth 15 w 0 in
      schedule n'
        (add32 (add32 (small_sigma1 w2) w7) (add32 (small_sigma0 w15) w16) :: w)
  end.

Definition round (st : list Z) (kw : Z * Z) : list Z :=
  match st with
  | [a; b; c; d; e; f; g; h] =>
      let t1 := add32 (add32 (add32 h (big_sigma1 e)) (add32 (ch e f g) (fst kw)))
                      (snd kw) in
      let t2 := add32 (big_sigma0 a) (maj a b c) in
      [add32 t1 t2; a; b; c; add32 d t1; e; f; g]
  | _ => st
  end.

Definition compress (h : list Z) (block : list Z) : list Z :=
  let w := rev (schedule 48 (rev block)) in
  let st := fold_left round (combine K w) h in
  map (fun p => add32 (fst p) (snd p)) (combine h st).

Fixpoint blocks (fuel : nat) (ws : list Z) (h : list Z) : list Z :=
  match fuel with
  | O => h
  | S f =>
      match ws with
      | [] => h
      | _ => blocks f (skipn 16 ws) (compress h (firstn 16 ws))
      end
  end.

(** [hashlib.sha256(msg).digest()] *)
Definition digest (msg : list Z) : list Z :=
  let p := pad msg in
  let ws := words (length p) p in
  flat_map (be_bytes 4) (blocks (length ws) ws H0).

Definition hex_digit (d : Z) : N :=
  if d <? 10 then Z.to_N (48 + d) else Z.to_N (87 + d).

(** [hashlib.sha256(msg).hexdigest()] *)
Definition hexdigest (msg : list Z) : str :=
  flat_map (fun b => [hex_digit (Z.shiftr b 4); hex_digit (Z.land b 15)])
           (digest msg).

End Sha256.

(* ===================================================================== *)
(** * dict *)
(* ===================================================================== *)

Module Dict.

(** Insertion-ordered dictionary with [str] keys. *)
Definition dict (V : Type) : Type := list (str * V).

Section Ops.
Context {V : Type}.

Definition keys (d : dict V) : list str := map fst d.

(** [d.get(k)] *)
Fixpoint get (d : dict V) (k : str) : option V :=
  match d with
  | [] => None
  | (k', v) :: d' => if str_eqb k' k then Some v else get d' k
  end.

(** [k in d] *)
Definition mem (d : dict V) (k : str) : bool :=
  match get d k with Some _ => true | None => false end.

(** [d[k] = v]: a key already present keeps its place. *)
Fixpoint set (d : dict V) (k : str) (v : V) : dict V :=
  match d with
  | [] => [(k, v)]
  | (k', v') :: d' =>
      if str_eqb k' k then (k', v) :: d' else (k', v') :: set d' k v
  end.

(** [d.pop(k, None)] and, for a key that is present, [del d[k]]. *)
Definition pop (d : dict V) (k : str) : dict V :=
  filter (fun kv => negb (str_eqb (fst kv) k)) d.

End Ops.

End Dict.
Import Dict.

(* ===================================================================== *)
(** * chunker.py *)
(* ===================================================================== *)

Module Chunker.

Record Chunk : Type := mkChunk {
  id : str;
  doc_id : str;
  text : str;
  index : Z;
  start_char : Z;
  end_char : Z;
  metadata : dict Z
}.

(** The string a chunk id is the hash of: [f"{doc_id}:{index}:{start}"]. *)
Definition id_source (doc : str) (i start : Z) : str :=
  doc ++ py ":" ++ str_of_int i ++ py ":" ++ str_of_int start.

(** [hashlib.sha256(bytes).hexdigest()[:12]] *)
Definition id_of_bytes (bytes : list Z) : str :=
  slice (Sha256.hexdigest bytes) None (Some 12).

(** The value of
    [hashlib.sha256(f"{doc_id}:{index}:{start}".encode()).hexdigest()[:12]]
    where [encode] returns, that is for a [doc_id] without lone
    surrogates. *)
Definition chunk_id (doc : str) (i start : Z) : str :=
  id_of_bytes (utf8 (id_source doc i start)).

(** The variables of the [while] loop. *)
Record loop_state : Type := mkState {
  st_chunks : list Chunk;
  st_start : Z;
  st_index : Z
}.

Inductive outcome : Type :=
| Next (st : loop_state)       (* back to the loop test *)
| Break (chunks : list Chunk)  (* [break] *)
| Fail (e : exn).              (* an exception leaves the loop *)

(** [chunks[-1]] when [chunks] is non-empty. *)
Definition last_chunk (chunks : list Chunk) : option Chunk :=
  match rev chunks with
  | [] => None
  | c :: _ => Some c
  end.

(** The window [start, end) of one iteration, snapped to a separator. *)
Definition window_end (txt sep : str) (chunk_size start : Z) : Z :=
  let stop := start + chunk_size in
  if stop <? len txt then
    let last_sep := rfind txt sep start stop in
    if start <? last_sep then last_sep + len sep else stop
  else stop.

(** One pass through the body of the [while] loop. *)
Definition loop_body (txt doc : str) (chunk_size overlap : Z) (sep : str)
           (st : loop_state) : outcome :=
  let start := st_start st in
  let stop := window_end txt sep chunk_size start in
  let chunk_text_content := strip (slice txt (Some start) (Some stop)) in
  let appended :=
    if truthy chunk_text_content then
      bytes <- encode (id_source doc (st_index st) start) ;;
      Ok (st_chunks st ++
            [mkChunk (id_of_bytes bytes) doc chunk_text_content
                     (st_index st) start stop
                     [(py "chunk_size", len chunk_text_content);
                      (py "word_count", word_count chunk_text_content)]],
          st_index st + 1)
    else Ok (st_chunks st, st_index st) in
  match appended with
  | Raise e => Fail e
  | Ok (chunks, idx) =>
      let start' := stop - overlap in
      if len txt <=? start' then Break chunks
      else
        let stuck :=
          match last_chunk chunks with
          | Some c => start' <=? start_char c
          | None => start' <=? 0
          end in
        Next (mkState chunks (if stuck then stop else start') idx)
  end.

(** The chunk a pass appends when its window is not blank and the id can
    be computed. *)
Definition emitted (txt doc : str) (cs : Z) (sep : str) (st : loop_state)
  : Chunk :=
  let stop := window_end txt sep cs (st_start st) in
  let content := strip (slice txt (Some (st_start st)) (Some stop)) in
  mkChunk (chunk_id doc (st_index st) (st_start st)) doc content
          (st_index st) (st_start st) stop
          [(py "chunk_size", len content);
           (py "word_count", word_count content)].

(** [while start < len(text): ...] and the [return chunks] after it;
    [None] when the fuel runs out. *)
Fixpoint while_loop (fuel : nat) (txt doc : str) (chunk_size overlap : Z)
         (sep : str) (st : loop_state) : option (result (list Chunk)) :=
  if st_start st <? len txt then
    match fuel with
    | O => None
    | S fuel' =>
        match loop_body txt doc chunk_size overlap sep st with
        | Break chunks => Some (Ok chunks)
        | Next st' => while_loop fuel' txt doc chunk_size overlap sep st'
        | Fail e => Some (Raise e)
        end
    end
  else Some (Ok (st_chunks st)).

Definition chunk_text (fuel : nat) (txt doc : str) (chunk_size overlap : Z)
           (sep : str) : option (result (list Chunk)) :=
  if negb (truthy (strip txt)) then Some (Ok [])
  else if chunk_size <=? 0 then
    Some (Raise (ValueError "chunk_size must be positive"))
  else if overlap <? 0 then
    Some (Raise (ValueError "overlap must be non-negative"))
  else if chunk_size <=? overlap then
    Some (Raise (ValueError "overlap must be less than chunk_size"))
  else while_loop fuel txt doc chunk_size overlap sep (mkState [] 0 0).

(** The default [separator]. *)
Definition newline : str := [10%N].

(** What [chunk_by_pages] does to each chunk of a page. *)
Definition stamp_page (doc : str) (page_num : Z) (c : Chunk) : Chunk :=
  mkChunk (id c) doc (text c) (index c) (start_char c) (end_char c)
          (set (metadata c) (py "page") (page_num + 1)).

Definition set_index (c : Chunk) (i : Z) : Chunk :=
  mkChunk (id c) (doc_id c) (text c) i (start_char c) (end_char c)
          (metadata c).

(** [for i, chunk in enumerate(all_chunks): chunk.index = i] *)
Fixpoint reindex (i : Z) (l : list Chunk) : list Chunk :=
  match l with
  | [] => []
  | c :: l' => set_index c i :: reindex (i + 1) l'
  end.

(** [for page_num, page_text in enumerate(pages): ...] *)
Fixpoint pages_loop (fuel : nat) (pages : list str) (page_num : Z)
         (doc : str) (chunk_size overlap : Z) (all_chunks : list Chunk)
  : option (result (list Chunk)) :=
  match pages with
  | [] => Some (Ok all_chunks)
  | page_text :: rest =>
      if negb (truthy (strip page_text)) then
        pages_loop fuel rest (page_num + 1) doc chunk_size overlap all_chunks
      else
        match chunk_text fuel page_text
                         (doc ++ py "_p" ++ str_of_int page_num)
                         chunk_size overlap newline with
        | None => None
        | Some (Raise e) => Some (Raise e)
        | Some (Ok page_chunks) =>
            pages_loop fuel rest (page_num + 1) doc chunk_size overlap
                       (all_chunks ++ map (stamp_page doc page_num) page_chunks)
        end
  end.

Definition chunk_by_pages (fuel : nat) (pages : list str) (doc : str)
           (chunk_size overlap : Z) : option (result (list Chunk)) :=
  match pages_loop fuel pages 0 doc chunk_size overlap [] with
  | Some (Ok all_chunks) => Some (Ok (reindex 0 all_chunks))
  | r => r
  end.

End Chunker.

(* ===================================================================== *)
(** * search.py *)
(* ===================================================================== *)

Module Search.
Import Chunker.

Definition vector : Type := list float.

Record SearchResult : Type := mkResult {
  chunk : Chunk;
  score : float
}.

(** The [input_type] the embedder is called with. *)
Inductive input_type : Type := search_document | search_query.

(** [_embed]: the remote embedding call, which may fail. *)
Definition embedder : Type := list str -> input_type -> result (list vector).

Record DocumentIndex : Type := mkIndex {
  _chunks : dict Chunk;
  _embeddings : dict vector;
  _doc_chunks : dict (list str)
}.

(** [DocumentIndex()] *)
Definition empty_index : DocumentIndex := mkIndex [] [] [].

(** One pass of [for chunk, embedding in zip(chunks, embeddings)]. *)
Definition add_one (idx : DocumentIndex) (ce : Chunk * vector) : DocumentIndex :=
  let '(c, embedding) := ce in
  let dc :=
    if mem (_doc_chunks idx) (doc_id c) then _doc_chunks idx
    else set (_doc_chunks idx) (doc_id c) [] in
  let ids := match get dc (doc_id c) with Some l => l | None => [] end in
  mkIndex (set (_chunks idx) (id c) c)
          (set (_embeddings idx) (id c) embedding)
          (set dc (doc_id c) (ids ++ [id c])).

Definition add_chunks (embed : embedder) (idx : DocumentIndex)
           (chunks : list Chunk) : result (DocumentIndex * Z) :=
  if negb (truthy chunks) then Ok (idx, 0)
  else
    embeddings <- embed (map text chunks) search_document ;;
    Ok (fold_left add_one (combine chunks embeddings) idx, len chunks).

(** [sum(...)] over floats, from the integer 0, adding from the left.
    (From Python 3.12 on [sum] also carries a compensation term, which can
    change the last bit of a sum of several inexact terms; the sums
    evaluated below are exact or have one term.) *)
Definition py_sum (l : list float) : float := fold_left PrimFloat.add l 0%float.

(** [math.sqrt], which raises on a negative argument. *)
Definition math_sqrt (x : float) : result float :=
  if (x <? 0)%float then Raise (ValueError "math domain error")
  else Ok (PrimFloat.sqrt x).

(** [x / y] on floats, which raises on a zero divisor. *)
Definition truediv (x y : float) : result float :=
  if (y =? 0)%float then Raise ZeroDivisionError else Ok (x / y)%float.

Definition dot_product (a b : vector) : float :=
  py_sum (map (fun xy => (fst xy * snd xy)%float) (combine a b)).

Definition sum_squares (a : vector) : float :=
  py_sum (map (fun x => (x * x)%float) a).

Definition _cosine_similarity (a b : vector) : result float :=
  let dot := dot_product a b in
  norm_a <- math_sqrt (sum_squares a) ;;
  norm_b <- math_sqrt (sum_squares b) ;;
  if (norm_a =? 0)%float || (norm_b =? 0)%float then Ok 0%float
  else truediv dot (norm_a * norm_b)%float.

(** The candidate ids of a search. *)
Definition candidates (idx : DocumentIndex) (doc : option str) : list str :=
  match doc with
  | Some d =>
      if truthy d && mem (_doc_chunks idx) d then
        match get (_doc_chunks idx) d with Some l => l | None => [] end
      else keys (_chunks idx)
  | None => keys (_chunks idx)
  end.

(** [for chunk_id in candidate_ids: ...] *)
Fixpoint score_all (idx : DocumentIndex) (query_embedding : vector)
         (candidate_ids : list str) (results : list SearchResult)
  : result (list SearchResult) :=
  match candidate_ids with
  | [] => Ok results
  | chunk_id :: rest =>
      match get (_embeddings idx) chunk_id with
      | None => score_all idx query_embedding rest results
      | Some e =>
          s <- _cosine_similarity query_embedding e ;;
          match get (_chunks idx) chunk_id with
          | None => Raise KeyError
          | Some c =>
              score_all idx query_embedding rest (results ++ [mkResult c s])
          end
      end
  end.

(** [results.sort(key=lambda r: r.score, reverse=True)]. [list.sort] is
    stable, also under [reverse=True], and compares keys with [<] only;
    the stable arrangement is computed here by insertion. That is the
    list [list.sort] leaves when [<] orders the keys, so when no score is
    NaN. With a NaN score the order [list.sort] leaves depends on the
    runs and merges of its algorithm and can be another permutation of
    the results than the one computed here: what is proved of the order
    of a ranking assumes [comparable] scores, and everything else proved
    of [search] holds for every permutation. *)
Fixpoint insert_desc (r : SearchResult) (l : list SearchResult)
  : list SearchResult :=
  match l with
  | [] => [r]
  | x :: l' =>
      if (score r <? score x)%float then x :: insert_desc r l'
      else r :: l
  end.

Fixpoint sort_desc (l : list SearchResult) : list SearchResult :=
  match l with
  | [] => []
  | r :: l' => insert_desc r (sort_desc l')
  end.

Definition search (embed : embedder) (idx : DocumentIndex) (query : str)
           (doc : option str) (top_k : Z) : result (list SearchResult) :=
  embs <- embed [query] search_query ;;
  match embs with
  | [] => Raise IndexError
  | query_embedding :: _ =>
      let candidate_ids := candidates idx doc in
      if negb (truthy candidate_ids) then Ok []
      else
        results <- score_all idx query_embedding candidate_ids [] ;;
        Ok (slice (sort_desc results) None (Some top_k))
  end.

Definition remove_document (idx : DocumentIndex) (doc : str) : DocumentIndex :=
  match get (_doc_chunks idx) doc with
  | None => idx
  | Some ids =>
      let popped :=
        fold_left
          (fun ce chunk_id => (pop (fst ce) chunk_id, pop (snd ce) chunk_id))
          ids (_chunks idx, _embeddings idx) in
      mkIndex (fst popped) (snd popped) (pop (_doc_chunks idx) doc)
  end.

(** One entry of [list_documents()]. *)
Record doc_entry : Type := mkEntry {
  entry_doc_id : str;
  chunk_count : Z
}.

Definition list_documents (idx : DocumentIndex) : list doc_entry :=
  map (fun kv => mkEntry (fst kv) (len (snd kv))) (_doc_chunks idx).

Definition total_chunks (idx : DocumentIndex) : Z := len (_chunks idx).

(** A caller's operations on one index; each [add_chunks] comes with the
    embedder's behaviour at that call. A failed call leaves the index as
    it was. *)
Inductive op : Type :=
| AddChunks (embed : embedder) (chunks : list Chunk)
| RemoveDocument (doc : str).

Definition run_op (idx : DocumentIndex) (o : op) : DocumentIndex :=
  match o with
  | AddChunks embed chunks =>
      match add_chunks embed idx chunks with
      | Ok (idx', _) => idx'
      | Raise _ => idx
      end
  | RemoveDocument doc => remove_document idx doc
  end.

Definition run (ops : list op) : DocumentIndex :=
  fold_left run_op ops empty_index.

End Search.

(* ===================================================================== *)
(** * Predicates used in the statements *)
(* ===================================================================== *)

Module ChunkerSpec.
Import Chunker.

(** The [index] fields are 0, 1, ..., N-1 in list order. *)
Definition indexed_from_zero (l : list Chunk) : Prop :=
  forall n c, nth_error l n = Some c -> index c = Z.of_nat n.

(** The [start_char] fields increase along the list. *)
Definition starts_increase (l : list Chunk) : Prop :=
  StronglySorted Z.lt (map start_char l).

(** The id is the hash of the chunk's own fields. *)
Definition id_of_own_fields (c : Chunk) : Prop :=
  id c = chunk_id (doc_id c) (index c) (start_char c).

(** What holds of the loop variables of [chunk_text] before each pass. *)
Record loop_inv (txt : str) (st : loop_state) : Prop := mkInv {
  inv_start : 0 <= st_start st;
  inv_index : st_index st = len (st_chunks st);
  inv_indices : indexed_from_zero (st_chunks st);
  inv_sorted : starts_increase (st_chunks st);
  inv_nonneg : Forall (fun c => 0 <= start_char c) (st_chunks st);
  inv_below : Forall (fun c => start_char c < st_start st) (st_chunks st);
  inv_blank :
    st_chunks st = [] -> blank (firstn (Z.to_nat (st_start st)) txt) = true
}.

(** A chunk returned by [chunk_by_pages] comes from a chunk [c0] that
    [chunk_text] returned for page number [p] (from 0) under the per-page
    document id; it keeps [c0]'s id and offsets and is given the outer
    document id and the 1-based page. *)
Definition page_derived (fuel : nat) (pages : list str) (doc : str)
           (chunk_size overlap : Z) (c : Chunk) : Prop :=
  exists (p : nat) (page_text : str) (page_chunks : list Chunk) (c0 : Chunk),
    nth_error pages p = Some page_text
    /\ chunk_text fuel page_text (doc ++ py "_p" ++ str_of_int (Z.of_nat p))
                  chunk_size overlap newline = Some (Ok page_chunks)
    /\ In c0 page_chunks
    /\ id c = chunk_id (doc ++ py "_p" ++ str_of_int (Z.of_nat p))
                       (index c0) (start_char c)
    /\ start_char c = start_char c0
    /\ doc_id c = doc
    /\ get (metadata c) (py "page") = Some (Z.of_nat p + 1).

End ChunkerSpec.

Module FloatOrder.

(** A float that is not NaN, placed in a lexicographically ordered triple:
    class (-oo, negative, zero, positive, +oo), then exponent, then
    mantissa, the last two negated for negative numbers. *)
Definition sf_rank (f : spec_float) : Z * Z * Z :=
  match f with
  | S754_nan => (0, 0, 0)
  | S754_zero _ => (0, 0, 0)
  | S754_infinity true => (-2, 0, 0)
  | S754_infinity false => (2, 0, 0)
  | S754_finite true m e => (-1, - e, - Zpos m)
  | S754_finite false m e => (1, e, Zpos m)
  end.

Definition sf_is_nan (f : spec_float) : bool :=
  match f with S754_nan => true | _ => false end.

Definition lt3 (a b : Z * Z * Z) : Prop :=
  let '(a1, a2, a3) := a in
  let '(b1, b2, b3) := b in
  a1 < b1 \/ a1 = b1 /\ (a2 < b2 \/ a2 = b2 /\ a3 < b3).

(** Not below zero: NaN, a zero of either sign, a positive number or +oo. *)
Definition sf_not_negative (f : spec_float) : bool :=
  match f with
  | S754_infinity true | S754_finite true _ _ => false
  | _ => true
  end.

(** A mantissa [m] and exponent [e] of a magnitude [m * 2^e >= 2^k]
    (a power of 2 with a negative exponent is 0 in [Z]). *)
Definition at_least (k m e : Z) : Prop := 1 <= m /\ 2 ^ (k - e) <= m.

(** The values a square root takes: NaN, a zero, +oo, or a positive number
    of at least 2^-537, the root of the least positive float. *)
Definition sqrt_range (f : spec_float) : Prop :=
  match f with
  | S754_nan => True
  | S754_zero _ => True
  | S754_infinity s => s = false
  | S754_finite s m e => s = false /\ at_least (-537) (Zpos m) e
  end.

End FloatOrder.

Module SearchSpec.
Import Chunker Search.

(** The candidates of a search with their scores, in the order they are
    met: [search] up to its sort and its slice. *)
Definition scored (embed : embedder) (idx : DocumentIndex) (query : str)
           (doc : option str) : result (list SearchResult) :=
  embs <- embed [query] search_query ;;
  match embs with
  | [] => Raise IndexError
  | query_embedding :: _ =>
      score_all idx query_embedding (candidates idx doc) []
  end.

(** No score is NaN. *)
Definition comparable (l : list SearchResult) : Prop :=
  Forall (fun r => is_nan (score r) = false) l.

(** Every result scores at least as much as each one after it. *)
Definition descending (l : list SearchResult) : Prop :=
  StronglySorted (fun a b => (score b <=? score a)%float = true) l.

(** Results of equal score are in the order they have in [l]. *)
Definition keeps_ties_of (l ranked : list SearchResult) : Prop :=
  forall s : float,
    filter (fun r => (score r =? s)%float) ranked
    = filter (fun r => (score r =? s)%float) l.

(** Every component is a zero (of either sign). *)
Definition all_zero (a : vector) : bool :=
  forallb (fun x => (x =? 0)%float) a.

(** The chunks handed to [add_chunks] in a sequence of operations. *)
Definition added (ops : list op) : list Chunk :=
  flat_map (fun o => match o with
                     | AddChunks _ chunks => chunks
                     | RemoveDocument _ => []
                     end) ops.

(** No chunk id is added under two documents. *)
Definition single_owner (ops : list op) : Prop :=
  forall c1 c2,
    In c1 (added ops) -> In c2 (added ops) ->
    id c1 = id c2 -> doc_id c1 = doc_id c2.

(** The two chunk-id mappings agree, and every indexed chunk is listed
    under its document. [U] holds of every chunk that was stored. *)
Record index_inv (U : Chunk -> Prop) (idx : DocumentIndex) : Prop := mkIndexInv {
  inv_keys : keys (_chunks idx) = keys (_embeddings idx);
  inv_nodup : NoDup (keys (_chunks idx));
  inv_stored :
    forall x c, get (_chunks idx) x = Some c ->
                id c = x /\ U c
                /\ exists ids, get (_doc_chunks idx) (doc_id c) = Some ids
                               /\ In x ids
}.

(** Every id in a document's list is indexed, with a chunk of that
    document. *)
Definition lists_owned (idx : DocumentIndex) : Prop :=
  forall d ids x,
    get (_doc_chunks idx) d = Some ids -> In x ids ->
    exists c, get (_chunks idx) x = Some c /\ doc_id c = d.

End SearchSpec.

(* ===================================================================== *)
(** * Inputs used in the examples below *)
(* ===================================================================== *)

Module Inputs.
Import Chunker.

(** ["a \nbbb"]: after the first chunk the window [" \n"] is blank. *)
Definition looping_text : str := py "a " ++ newline ++ py "bbb".

(** The loop state after the first pass over [looping_text] with
    [chunk_size = 3], [overlap = 2]. *)
Definition looping_state : loop_state :=
  mkState
    [mkChunk (chunk_id (py "d") 0 0) (py "d") (py "a") 0 0 3
             [(py "chunk_size", 1); (py "word_count", 1)]]
    1 1.

(** ["aaaaaaaa \nbbbbbbbbbb"], for [chunk_size = 10], [overlap = 2]. *)
Definition looping_text_10 : str :=
  py "aaaaaaaa " ++ newline ++ py "bbbbbbbbbb".

Definition looping_state_10 : loop_state :=
  mkState
    [mkChunk (chunk_id (py "d") 0 0) (py "d") (py "aaaaaaaa") 0 0 10
             [(py "chunk_size", 8); (py "word_count", 1)]]
    8 1.

(** ** An index of three chunks *)

(** A stand-in for the embedder: a text starting with ["x"] goes to
    (1, 0), one starting with ["y"] to (0, 1), any other to (1, 1). *)
Definition toy_vector (t : str) : Search.vector :=
  match t with
  | 120%N :: _ => [1%float; 0%float]
  | 121%N :: _ => [0%float; 1%float]
  | _ => [1%float; 1%float]
  end.

Definition toy_embed : Search.embedder :=
  fun texts _ => Ok (map toy_vector texts).

Definition chunk_x1 : Chunk := mkChunk (py "c1") (py "doc_a") (py "x one") 0 0 5 [].
Definition chunk_y : Chunk := mkChunk (py "c2") (py "doc_a") (py "y") 1 5 6 [].
Definition chunk_x2 : Chunk := mkChunk (py "c3") (py "doc_b") (py "x two") 0 0 5 [].

(** [doc_a] holds [c1] and [c2], [doc_b] holds [c3]. *)
Definition three_chunks : Search.DocumentIndex :=
  Search.run [Search.AddChunks toy_embed [chunk_x1; chunk_y];
              Search.AddChunks toy_embed [chunk_x2]].

(** ** One chunk id under two documents *)

(** The chunk [chunk_text] returns for the text ["a"] under the document id
    ["d_p0"], and the chunk [chunk_by_pages] returns for the one page ["a"]
    of document ["d"]: the same id, two documents. *)
Definition chunk_of_text : Chunk :=
  mkChunk (chunk_id (py "d_p0") 0 0) (py "d_p0") (py "a") 0 0 500
          [(py "chunk_size", 1); (py "word_count", 1)].

Definition chunk_of_page : Chunk :=
  mkChunk (chunk_id (py "d_p0") 0 0) (py "d") (py "a") 0 0 500
          [(py "chunk_size", 1); (py "word_count", 1); (py "page", 1)].

Definition shared_id_ops : list Search.op :=
  [Search.AddChunks toy_embed [chunk_of_text];
   Search.AddChunks toy_embed [chunk_of_page];
   Search.RemoveDocument (py "d_p0")].

(** ** Scores that are not ordered *)

(** An embedder whose vectors overflow: the query goes to (2^500), a text
    starting with ["x"] to (-1), with ["y"] to (2^600), any other to (1).
    Against the query these score -1, NaN (infinity over infinity) and 1. *)
Definition wide_embed : Search.embedder :=
  fun texts mode =>
    match mode with
    | Search.search_query => Ok (map (fun _ => [0x1p500%float]) texts)
    | Search.search_document =>
        Ok (map (fun t => match t with
                          | 120%N :: _ => [(-1)%float]
                          | 121%N :: _ => [0x1p600%float]
                          | _ => [1%float]
                          end) texts)
    end.

Definition chunk_z : Chunk := mkChunk (py "c4") (py "doc_a") (py "z") 2 6 7 [].

Definition wide_index : Search.DocumentIndex :=
  Search.run [Search.AddChunks wide_embed [chunk_x1; chunk_y; chunk_z]].

(** The same chunks added twice, as when a document is chunked and indexed
    again. *)
Definition added_twice : Search.DocumentIndex :=
  Search.run [Search.AddChunks toy_embed [chunk_x1; chunk_y];
              Search.AddChunks toy_embed [chunk_x1; chunk_y]].

(** A chunk whose document id is the empty string, beside one of [doc_b]. *)
Definition chunk_nameless : Chunk := mkChunk (py "c0") [] (py "y") 0 0 1 [].

Definition with_nameless_doc : Search.DocumentIndex :=
  Search.run [Search.AddChunks toy_embed [chunk_nameless; chunk_x2]].

End Inputs.

(* ===================================================================== *)
(** * More predicates on chunks *)
(* ===================================================================== *)

Module ChunkShape.
Import Chunker.

(** What [chunk_text] guarantees of each chunk it returns for the text
    [txt], the document id [doc] and the chunk size [chunk_size]. *)
Record well_formed (txt doc : str) (chunk_size : Z) (c : Chunk) : Prop := mkWf {
  wf_doc : doc_id c = doc;
  wf_text :
    text c = strip (slice txt (Some (start_char c)) (Some (end_char c)));
  wf_nonempty : text c <> [];
  wf_trimmed : strip (text c) = text c;
  wf_start : 0 <= start_char c < len txt;
  wf_end : start_char c < end_char c <= start_char c + chunk_size;
  wf_size : len (text c) <= chunk_size;
  wf_metadata :
    metadata c = [(py "chunk_size", len (text c));
                  (py "word_count", word_count (text c))];
  wf_words : 1 <= word_count (text c)
}.

(** The position [p] of the text lies in the window of a chunk of [l]. *)
Definition covered (l : list Chunk) (p : nat) : Prop :=
  exists c, In c l /\ start_char c <= Z.of_nat p < end_char c.

(** Every character below [bound] that is not whitespace is covered. *)
Definition covered_below (txt : str) (l : list Chunk) (bound : Z) : Prop :=
  forall p ch,
    nth_error txt p = Some ch -> is_space ch = false ->
    Z.of_nat p < bound -> covered l p.

(** [sub in s] *)
Fixpoint occurs (sub s : str) : bool :=
  starts_with sub s
  || match s with
     | [] => false
     | _ :: s' => occurs sub s'
     end.

(** [chunk.metadata["page"]], 0 when there is none. *)
Definition page_of (c : Chunk) : Z :=
  match get (metadata c) (py "page") with
  | Some p => p
  | None => 0
  end.

(** What [chunk_by_pages] guarantees of each chunk it returns: the chunk
    is cut from one page, its offsets count from the start of that page,
    and its metadata ends with the 1-based page number. *)
Definition on_page (pages : list str) (doc : str) (chunk_size : Z)
           (c : Chunk) : Prop :=
  exists (p : nat) (page_text : str),
    nth_error pages p = Some page_text
    /\ doc_id c = doc
    /\ text c
       = strip (slice page_text (Some (start_char c)) (Some (end_char c)))
    /\ text c <> []
    /\ 0 <= start_char c < len page_text
    /\ start_char c < end_char c <= start_char c + chunk_size
    /\ metadata c = [(py "chunk_size", len (text c));
                     (py "word_count", word_count (text c));
                     (py "page", Z.of_nat p + 1)].

(** A lowercase hexadecimal digit. *)
Definition is_hex (c : N) : bool :=
  ((48 <=? c) && (c <=? 57) || (97 <=? c) && (c <=? 102))%N.

(** [n] lowercase hexadecimal digits. *)
Definition hex_string (n : Z) (s : str) : Prop :=
  len s = n /\ forallb is_hex s = true.

End ChunkShape.

Module IndexShape.
Import Chunker Search.

(** The chunk counts [list_documents] reports, added up. *)
Definition listed (idx : DocumentIndex) : Z :=
  fold_right Z.add 0 (map chunk_count (list_documents idx)).

(** The last pair of [l] whose chunk has the id [x]. *)
Definition last_with_id (x : str) (l : list (Chunk * vector))
  : option (Chunk * vector) :=
  find (fun ce => str_eqb (id (fst ce)) x) (rev l).

(** The ids of the pairs of one [add_chunks] call. *)
Definition pair_ids (l : list (Chunk * vector)) : list str :=
  map (fun ce => id (fst ce)) l.

(** The entries of the chunk mapping that hold a chunk of document [d]. *)
Definition chunks_of (idx : DocumentIndex) (d : str) : dict Chunk :=
  filter (fun kv => str_eqb (doc_id (snd kv)) d) (_chunks idx).

(** What holds of the document lists of an index that calls have built:
    no document twice, no document without a chunk id. *)
Record doc_lists_inv (idx : DocumentIndex) : Prop := mkDocListsInv {
  docs_nodup : NoDup (keys (_doc_chunks idx));
  docs_nonempty : Forall (fun kv => snd kv <> []) (_doc_chunks idx)
}.

End IndexShape.

(* ===================================================================== *)
(** * [str.split(sep)] and [str.join] *)
(* ===================================================================== *)

Module PySplit.

(** [sep.join(l)] *)
Fixpoint join (sep : str) (l : list str) : str :=
  match l with
  | [] => []
  | x :: l' =>
      match l' with
      | [] => x
      | _ :: _ => x ++ sep ++ join sep l'
      end
  end.

(** The scan of [s.split(sep)], left to right: [cur] holds the piece being
    read, last character first, and [skip] the number of characters of a
    separator just found that are still to be passed over. *)
Fixpoint split_from (sep : str) (skip : nat) (cur s : str) : list str :=
  match s with
  | [] => [rev cur]
  | c :: s' =>
      match skip with
      | S k => split_from sep k cur s'
      | O =>
          if starts_with sep s then
            rev cur :: split_from sep (length sep - 1) [] s'
          else split_from sep 0 (c :: cur) s'
      end
  end.

(** [s.split(sep)]: the pieces between the occurrences of [sep], found
    from the left and not overlapping; an empty [sep] is refused. *)
Definition split (s sep : str) : result (list str) :=
  match sep with
  | [] => Raise (ValueError "empty separator")
  | _ :: _ => Ok (split_from sep 0 [] s)
  end.

(** [d.get(k, default)] *)
Definition get_default {V : Type} (d : dict V) (k : str) (default : V) : V :=
  match get d k with
  | Some v => v
  | None => default
  end.

End PySplit.

(* ===================================================================== *)
(** * parsers.py: what a parser makes of the text it has read *)
(* ===================================================================== *)

Module Parsers.
Import PySplit.

(** [DocumentMetadata]. ([word_count] is [meta_word_count] here, the name
    being taken; the [extra] dict, which nothing reads or fills, is left
    out.) *)
Record DocumentMetadata : Type := mkMetadata {
  title : str;
  author : str;
  meta_pages : Z;
  meta_word_count : Z;
  file_type : str;
  file_size_bytes : Z;
  file_path : str
}.

Record ParsedDocument : Type := mkParsed {
  doc_text : str;
  doc_metadata : DocumentMetadata;
  doc_pages : list str
}.

(** The separator of pages and paragraphs: two newlines. *)
Definition blank_line : str := [10%N; 10%N].

(** [x or y] on strings, [None] included. *)
Definition or_str (x : option str) (y : str) : str :=
  match x with
  | Some (c :: r) => c :: r
  | _ => y
  end.

(** [PDFParser.parse], from where the reader has opened the file:
    [base] is what [_base_metadata] returned, [extracted] holds what
    [extract_text()] returned for each page of [reader.pages] ([None] or a
    string), and [pdf_info] is [reader.metadata] ([None], or its entries,
    each [None] or a string). *)
Definition pdf_parse (base : DocumentMetadata) (extracted : list (option str))
           (pdf_info : option (dict (option str))) : ParsedDocument :=
  let pages := map (fun t => or_str t []) extracted in
  let full_text := join blank_line pages in
  let counted :=
    mkMetadata (title base) (author base) (len extracted)
               (word_count full_text) (file_type base)
               (file_size_bytes base) (file_path base) in
  let metadata :=
    match pdf_info with
    | Some (entry :: info) =>
        let info := entry :: info in
        mkMetadata
          (or_str (get_default info (py "/Title") (Some (title counted)))
                  (title counted))
          (or_str (get_default info (py "/Author") (Some [])) [])
          (meta_pages counted) (meta_word_count counted)
          (file_type counted) (file_size_bytes counted) (file_path counted)
    | _ => counted
    end in
  mkParsed full_text metadata pages.

(** [DocxParser.parse], from where the document is open: [paragraphs]
    holds the text of each of [doc.paragraphs], and [core_props] the
    title and the author of [doc.core_properties] ([None] if that is
    false). *)
Definition docx_parse (base : DocumentMetadata) (paragraphs : list str)
           (core_props : option (option str * option str)) : ParsedDocument :=
  let kept := filter (fun p => truthy (strip p)) paragraphs in
  let full_text := join blank_line kept in
  let counted :=
    mkMetadata (title base) (author base) (meta_pages base)
               (word_count full_text) (file_type base)
               (file_size_bytes base) (file_path base) in
  let metadata :=
    match core_props with
    | Some (core_title, core_author) =>
        mkMetadata (or_str core_title (title counted))
                   (or_str core_author [])
                   (meta_pages counted) (meta_word_count counted)
                   (file_type counted) (file_size_bytes counted)
                   (file_path counted)
    | None => counted
    end in
  mkParsed full_text metadata [].

(** The words of several texts, counted text by text. *)
Definition total_words (l : list str) : Z :=
  fold_right Z.add 0 (map word_count l).

(** What the registry's [parse] can raise. *)
Inductive parse_error : Type :=
| FileNotFoundError
| UnsupportedFileType
| ParserFailure.

(** [DocumentParserRegistry.parse] on the files of the moment. *)
Definition parser : Type := str -> ParsedDocument + parse_error.

End Parsers.

(* ===================================================================== *)
(** * server.py: the tools *)
(* ===================================================================== *)

Module Server.
Import Chunker Search PySplit Parsers.

(** [DocumentAnalysisServer]: the index and the cache of parsed documents
    (the parser registry is the [parser] each tool is given). *)
Record DocumentAnalysisServer : Type := mkServer {
  srv_index : DocumentIndex;
  _parsed_cache : dict ParsedDocument
}.

(** [DocumentAnalysisServer()] *)
Definition new_server : DocumentAnalysisServer := mkServer empty_index [].

(** What a tool can raise. *)
Inductive raised : Type :=
| ParseError (e : parse_error)
| Error (e : exn).

Inductive outcome (A : Type) : Type :=
| Returned (a : A)
| Failed (e : raised).
Arguments Returned {A} a.
Arguments Failed {A} e.

(** [hashlib.sha256(file_path.encode()).hexdigest()[:16]]; it raises
    [UnicodeEncodeError] for a path with a lone surrogate. *)
Definition _doc_id (path : str) : result str :=
  bytes <- encode path ;;
  Ok (slice (Sha256.hexdigest bytes) None (Some 16)).

(** [self._parsed_cache[doc_id]] *)
Definition cached (srv : DocumentAnalysisServer) (doc_id : str)
  : outcome ParsedDocument * DocumentAnalysisServer :=
  match get (_parsed_cache srv) doc_id with
  | Some d => (Returned d, srv)
  | None => (Failed (Error KeyError), srv)
  end.

Definition _get_or_parse (parse : parser) (srv : DocumentAnalysisServer)
           (path : str) : outcome ParsedDocument * DocumentAnalysisServer :=
  match _doc_id path with
  | Raise e => (Failed (Error e), srv)
  | Ok doc_id =>
      if negb (mem (_parsed_cache srv) doc_id) then
        match parse path with
        | inr e => (Failed (ParseError e), srv)
        | inl d =>
            cached (mkServer (srv_index srv)
                             (set (_parsed_cache srv) doc_id d))
                   doc_id
        end
      else cached srv doc_id
  end.




(** One entry of ["chunks"] in the dict [chunk_document] returns. *)
Record chunk_preview : Type := mkPreview {
  p_id : str;
  p_index : Z;
  p_text : str;
  p_word_count : Z;
  p_page : option Z
}.

Record chunk_response : Type := mkChunkResponse {
  r_doc_id : str;
  r_total_chunks : Z;
  r_chunks : list chunk_preview
}.

Definition preview (c : Chunk) : chunk_preview :=
  mkPreview (id c) (index c)
            (if 200 <? len (text c) then
               slice (text c) None (Some 200) ++ py "..."
             else text c)
            (get_default (metadata c) (py "word_count") 0)
            (get (metadata c) (py "page")).

(** [chunk_document]; [None] when the chunking does not return. *)
Definition chunk_document (parse : parser) (embed : embedder) (fuel : nat)
           (srv : DocumentAnalysisServer) (path : str)
           (chunk_size overlap : Z) (index_chunks : bool)
  : option (outcome chunk_response * DocumentAnalysisServer) :=
  match _get_or_parse parse srv path with
  | (Failed e, srv1) => Some (Failed e, srv1)
  | (Returned doc, srv1) =>
      match _doc_id path with
      | Raise e => Some (Failed (Error e), srv1)
      | Ok doc_id =>
          let chunked :=
            if truthy (doc_pages doc) then
              chunk_by_pages fuel (doc_pages doc) doc_id chunk_size overlap
            else
              chunk_text fuel (doc_text doc) doc_id chunk_size overlap
                         newline in
          match chunked with
          | None => None
          | Some (Raise e) => Some (Failed (Error e), srv1)
          | Some (Ok chunks) =>
              let response :=
                mkChunkResponse doc_id (len chunks) (map preview chunks) in
              if index_chunks then
                match add_chunks embed (srv_index srv1) chunks with
                | Raise e => Some (Failed (Error e), srv1)
                | Ok (idx', _) =>
                    Some (Returned response,
                          mkServer idx' (_parsed_cache srv1))
                end
              else Some (Returned response, srv1)
          end
      end
  end.


Definition length_map : dict Z :=
  [(py "brief", 100); (py "standard", 300); (py "detailed", 600)].






End Server.

Module ServerSpec.
Import Chunker ChunkShape Server.

(** What [chunk_document] guarantees of one entry of ["chunks"]: a chunk
    id, a text of at most 200 characters or of 200 and three dots, a word
    count of at least one. *)
Definition preview_ok (p : chunk_preview) : Prop :=
  hex_string 12 (p_id p) /\ len (p_text p) <= 203 /\ 1 <= p_word_count p.

End ServerSpec.

Module MoreInputs.
Import Chunker Search Inputs.

(** A parser that knows one text file, whatever the path. *)
Definition toy_parse : Parsers.parser :=
  fun _ =>
    inl (Parsers.mkParsed (py "ab cd. ef. gh")
           (Parsers.mkMetadata (py "t") [] 0 4 (py "txt") 13 (py "/t.txt"))
           []).


(** The calls that build [three_chunks]. *)
Definition three_chunks_ops : list op :=
  [AddChunks toy_embed [chunk_x1; chunk_y]; AddChunks toy_embed [chunk_x2]].

End MoreInputs.

(* ===================================================================== *)
(** * Properties of the chunker *)
(* ===================================================================== *)

Section ChunkerFacts.
Import Chunker ChunkerSpec Inputs.

Lemma while_loop_unfold fuel txt doc cs ov sep st :
  while_loop (S fuel) txt doc cs ov sep st
  = if st_start st <? len txt then
      match loop_body txt doc cs ov sep st with
      | Break chunks => Some (Ok chunks)
      | Next st' => while_loop fuel txt doc cs ov sep st'
      | Fail e => Some (Raise e)
      end
    else Some (Ok (st_chunks st)).
Proof. reflexivity. Qed.

Lemma while_loop_O txt doc cs ov sep st :
  while_loop 0 txt doc cs ov sep st
  = if st_start st <? len txt then None else Some (Ok (st_chunks st)).
Proof. reflexivity. Qed.

(** A state the body maps to itself is never left. *)
Lemma while_loop_stuck txt doc cs ov sep st :
  (st_start st <? len txt) = true ->
  loop_body txt doc cs ov sep st = Next st ->
  forall fuel, while_loop fuel txt doc cs ov sep st = None.
Proof.
  intros Hlt Hbody fuel; induction fuel as [|fuel IH].
  - rewrite while_loop_O, Hlt; reflexivity.
  - rewrite while_loop_unfold, Hlt, Hbody; exact IH.
Qed.

(** The parameter checks, once the text is known not to be blank. *)
Lemma chunk_text_valid fuel txt doc cs ov sep :
  strip txt <> [] -> 0 < cs -> 0 <= ov < cs ->
  chunk_text fuel txt doc cs ov sep
  = while_loop fuel txt doc cs ov sep (mkState [] 0 0).
Proof.
  intros Hne Hcs Hov. unfold chunk_text.
  destruct (strip txt) as [|c s]; [congruence|]. cbn [truthy negb].
  destruct (Z.leb_spec cs 0); [lia|].
  destruct (Z.ltb_spec ov 0); [lia|].
  destruct (Z.leb_spec cs ov); [lia|]. reflexivity.
Qed.

Lemma chunk_text_blank fuel txt doc cs ov sep :
  strip txt = [] -> chunk_text fuel txt doc cs ov sep = Some (Ok []).
Proof. intros H. unfold chunk_text. rewrite H. reflexivity. Qed.

(** C1 (as amended). On text that is not blank, a [chunk_size <= 0], an
    [overlap < 0] or an [overlap >= chunk_size] raises [ValueError]
    whatever the fuel, so before the loop is entered, and no chunk is
    produced; on empty or whitespace-only text the call returns the empty
    list and does not raise, whatever the parameters. *)
Theorem chunk_text_invalid_argument fuel txt doc cs ov sep :
  cs <= 0 \/ ov < 0 \/ cs <= ov ->
  (strip txt <> [] ->
   exists msg,
     chunk_text fuel txt doc cs ov sep = Some (Raise (ValueError msg)))
  /\ (strip txt = [] -> chunk_text fuel txt doc cs ov sep = Some (Ok [])).
Proof.
  intros Hbad; split.
  - intros Hne. unfold chunk_text.
    destruct (strip txt) as [|c s]; [congruence|]. cbn [truthy negb].
    destruct (Z.leb_spec cs 0); [eauto|].
    destruct (Z.ltb_spec ov 0); [eauto|].
    destruct (Z.leb_spec cs ov); [eauto|]. lia.
  - apply chunk_text_blank.
Qed.

Lemma chunk_text_invalid_argument_witness :
  exists msg,
    chunk_text 0 (py "test") (py "t") 0 50 newline
    = Some (Raise (ValueError msg)).
Proof.
  refine (proj1 (chunk_text_invalid_argument 0 (py "test") (py "t") 0 50
                   newline _) _).
  - left; lia.
  - vm_compute; discriminate.
Defined.

(** C1 fails as stated: with whitespace-only text and [chunk_size = 0]
    the call returns the empty list instead of raising. *)
Lemma chunk_text_blank_text_not_validated :
  0 <= 0 /\
  chunk_text 0 (py "   ") (py "t") 0 50 newline = Some (Ok []) /\
  forall e, chunk_text 0 (py "   ") (py "t") 0 50 newline <> Some (Raise e).
Proof.
  split; [lia|]. split; [vm_compute; reflexivity|].
  intros e; vm_compute; discriminate.
Qed.

(** A run whose first pass leads to a state that the body maps to itself
    returns for no amount of fuel. *)
Lemma chunk_text_stuck txt doc cs ov sep st :
  strip txt <> [] -> 0 < cs -> 0 <= ov < cs ->
  loop_body txt doc cs ov sep (mkState [] 0 0) = Next st ->
  (st_start st <? len txt) = true ->
  loop_body txt doc cs ov sep st = Next st ->
  forall fuel, chunk_text fuel txt doc cs ov sep = None.
Proof.
  intros Hne Hcs Hov Hfirst Hlt Hfixed fuel.
  rewrite chunk_text_valid by assumption.
  assert (H0 : (st_start (mkState [] 0 0) <? len txt) = true).
  { destruct txt; [now contradict Hne|reflexivity]. }
  destruct fuel as [|fuel].
  - now rewrite while_loop_O, H0.
  - rewrite while_loop_unfold, H0, Hfirst.
    now rewrite (while_loop_stuck _ _ _ _ _ _ Hlt Hfixed).
Qed.

(** C4 fails on the code. [chunk_size = 3] and [overlap = 2] are valid,
    yet on ["a \nbbb"] the loop is never left: the window at [start = 1]
    is [" \n"], blank after trimming, so no chunk is appended; the new
    start [3 - 2 = 1] is compared with the start of the last chunk that
    was appended (0), not with the current start, the guard does not
    fire, and the next pass begins in the same state. *)
Theorem chunk_text_loops_forever :
  forall fuel,
    chunk_text fuel looping_text (py "d") 3 2 newline = None.
Proof.
  apply (chunk_text_stuck _ _ _ _ _ looping_state); try lia;
    vm_compute; (reflexivity || discriminate).
Qed.

(** C6 fails on the code, by the defect of C4. The text
    ["aaaaaaaa \nbbbbbbbbbb"] is not blank, [chunk_size = 10] and
    [overlap = 2] are valid, and no sequence is returned: after the chunk
    at 0 the window at [start = 8] is [" \n"], and the cursor stays at 8. *)
Theorem chunk_text_returns_nothing :
  strip looping_text_10 <> [] /\ 0 < 10 /\ 0 <= 2 < 10 /\
  forall fuel,
    chunk_text fuel looping_text_10 (py "d") 10 2 newline = None.
Proof.
  split; [vm_compute; discriminate|]. do 2 (split; [lia|]).
  apply (chunk_text_stuck _ _ _ _ _ looping_state_10); try lia;
    vm_compute; (reflexivity || discriminate).
Qed.

(** ** Invariants of the loop *)

(** Induction over the passes of the loop: a property of the state that
    every pass preserves gives a property of the list returned. *)
Lemma while_loop_invariant (txt doc : str) (cs ov : Z) (sep : str)
      (P : loop_state -> Prop) (Q : list Chunk -> Prop) :
  (forall st st', P st -> st_start st < len txt ->
                  loop_body txt doc cs ov sep st = Next st' -> P st') ->
  (forall st l, P st -> st_start st < len txt ->
                loop_body txt doc cs ov sep st = Break l -> Q l) ->
  (forall st, P st -> len txt <= st_start st -> Q (st_chunks st)) ->
  forall fuel st l,
    P st -> while_loop fuel txt doc cs ov sep st = Some (Ok l) -> Q l.
Proof.
  intros Hnext Hbreak Hexit fuel.
  induction fuel as [|fuel IH]; intros st l HP Hrun.
  - rewrite while_loop_O in Hrun.
    destruct (Z.ltb_spec (st_start st) (len txt)); [discriminate|].
    injection Hrun as <-. now apply Hexit.
  - rewrite while_loop_unfold in Hrun.
    destruct (Z.ltb_spec (st_start st) (len txt)).
    + destruct (loop_body txt doc cs ov sep st) as [st'|l'|e] eqn:Hb.
      * eapply IH; [|exact Hrun]. eapply Hnext; eauto.
      * injection Hrun as <-. eapply Hbreak; eauto.
      * discriminate.
    + injection Hrun as <-. now apply Hexit.
Qed.

(** ** Where the id cannot be computed *)

Lemma encodable_app a b : encodable (a ++ b) = encodable a && encodable b.
Proof. apply forallb_app. Qed.

Lemma encodable_digits fuel :
  forall n acc, encodable acc = true -> encodable (digits_fuel fuel n acc) = true.
Proof.
  induction fuel as [|fuel IH]; intros n acc Hacc; cbn [digits_fuel];
    [exact Hacc|].
  assert (Hd : encodable ((48 + n mod 10)%N :: acc) = true).
  { cbn [encodable forallb]. fold (encodable acc). rewrite Hacc.
    rewrite andb_true_r. apply negb_true_iff. unfold is_surrogate.
    apply andb_false_iff. left. apply N.leb_gt.
    pose proof (N.mod_upper_bound n 10). lia. }
  destruct (n <? 10)%N; [exact Hd|]. now apply IH.
Qed.

Lemma encodable_str_of_int z : encodable (str_of_int z) = true.
Proof.
  unfold str_of_int.
  pose proof (encodable_digits (S (N.to_nat (N.log2 (Z.to_N (Z.abs z)))))
                (Z.to_N (Z.abs z)) [] eq_refl) as H.
  destruct (z <? 0); [|exact H].
  cbn [encodable forallb]. fold (encodable (digits_fuel
    (S (N.to_nat (N.log2 (Z.to_N (Z.abs z))))) (Z.to_N (Z.abs z)) [])).
  now rewrite H.
Qed.

(** The string an id is the hash of can be encoded when the document id
    can. *)
Lemma encodable_id_source doc i start :
  encodable (id_source doc i start) = encodable doc.
Proof.
  unfold id_source. rewrite !encodable_app, !encodable_str_of_int.
  cbn. now rewrite andb_true_r.
Qed.

Lemma encode_id_source doc i start :
  encode (id_source doc i start)
  = if encodable doc then Ok (utf8 (id_source doc i start))
    else Raise UnicodeEncodeError.
Proof. unfold encode. now rewrite encodable_id_source. Qed.

(** A pass raises only [UnicodeEncodeError], on a window that is not
    blank, for a document id with a lone surrogate. *)
Lemma loop_body_fail txt doc cs ov sep st e :
  loop_body txt doc cs ov sep st = Fail e ->
  e = UnicodeEncodeError
  /\ encodable doc = false
  /\ strip (slice txt (Some (st_start st))
                  (Some (window_end txt sep cs (st_start st)))) <> [].
Proof.
  unfold loop_body. rewrite encode_id_source.
  destruct (strip (slice txt (Some (st_start st))
                         (Some (window_end txt sep cs (st_start st)))))
    as [|c0 content]; cbn [truthy bind].
  - destruct (len txt <=? _); discriminate.
  - destruct (encodable doc); cbn [bind].
    + destruct (len txt <=? _); discriminate.
    + intros H; injection H as <-. repeat split. discriminate.
Qed.

Lemma loop_body_encodable txt doc cs ov sep st :
  encodable doc = true -> forall e, loop_body txt doc cs ov sep st <> Fail e.
Proof.
  intros Henc e H. apply loop_body_fail in H as (_ & H & _). congruence.
Qed.

(** What one pass does, case by case. *)
Lemma loop_body_cases txt doc cs ov sep st :
  (forall e, loop_body txt doc cs ov sep st <> Fail e) ->
  let stop := window_end txt sep cs (st_start st) in
  let blank := strip (slice txt (Some (st_start st)) (Some stop)) = [] in
  exists chunks idx,
    (blank /\ chunks = st_chunks st /\ idx = st_index st
     \/ ~ blank /\ chunks = st_chunks st ++ [emitted txt doc cs sep st]
        /\ idx = st_index st + 1)
    /\ (len txt <= stop - ov
        /\ loop_body txt doc cs ov sep st = Break chunks
        \/ stop - ov < len txt
           /\ exists start',
               loop_body txt doc cs ov sep st
               = Next (mkState chunks start' idx)
               /\ (start' = stop
                   \/ start' = stop - ov
                      /\ match last_chunk chunks with
                         | Some c => start_char c < start'
                         | None => 0 < start'
                         end)).
Proof.
  intros Hrun stop blank. revert Hrun.
  unfold loop_body, emitted, chunk_id. rewrite encode_id_source.
  fold stop. subst blank.
  destruct (strip (slice txt (Some (st_start st)) (Some stop)))
    as [|c0 content]; cbn [truthy bind];
    [|destruct (encodable doc); cbn [bind];
      [|intros Hrun; now contradiction (Hrun UnicodeEncodeError)]];
    intros _.
  - exists (st_chunks st), (st_index st). split; [left; auto|].
    destruct (Z.leb_spec (len txt) (stop - ov)).
    + left; auto.
    + right; split; [assumption|].
      destruct (last_chunk (st_chunks st)) as [c|].
      * destruct (Z.leb_spec (stop - ov) (start_char c));
          eexists; (split; [reflexivity|]); [left|right]; auto.
      * destruct (Z.leb_spec (stop - ov) 0);
          eexists; (split; [reflexivity|]); [left|right]; auto.
  - eexists _, (st_index st + 1). split.
    + right. split; [discriminate|]. split; reflexivity.
    + destruct (Z.leb_spec (len txt) (stop - ov)).
      * left; auto.
      * right; split; [assumption|].
        match goal with
        | |- context [last_chunk ?l] => destruct (last_chunk l) as [c|]
        end.
        -- destruct (Z.leb_spec (stop - ov) (start_char c));
             eexists; (split; [reflexivity|]); [left|right]; auto.
        -- destruct (Z.leb_spec (stop - ov) 0);
             eexists; (split; [reflexivity|]); [left|right]; auto.
Qed.

(** ** Windows *)

Lemma rfind_down_bound s sub a k :
  rfind_down s sub a k = -1
  \/ a <= rfind_down s sub a k < a + Z.of_nat k.
Proof.
  induction k as [|k IH]; [left; reflexivity|].
  cbn [rfind_down].
  destruct (starts_with sub (skipn (Z.to_nat (a + Z.of_nat k)) s)).
  - right; lia.
  - destruct IH as [->|IH]; [left; reflexivity | right; lia].
Qed.

(** A window is not empty and is no longer than [chunk_size]. *)
Lemma window_end_bounds txt sep cs start :
  0 < cs -> 0 <= start ->
  start < window_end txt sep cs start <= start + cs.
Proof.
  intros Hcs Hstart. unfold window_end.
  destruct (Z.ltb_spec (start + cs) (len txt)) as [Hlt|]; [|lia].
  destruct (Z.ltb_spec start (rfind txt sep start (start + cs)))
    as [Hfound|]; [|lia].
  assert (Hlen : 0 <= len sep) by (unfold len; lia).
  revert Hfound. unfold rfind.
  destruct (Z.ltb_spec (len txt) (start + cs)); [lia|].
  destruct (Z.ltb_spec (start + cs) 0); [lia|].
  destruct (Z.ltb_spec start 0); [lia|].
  destruct (Z.ltb_spec (start + cs - start) (len sep)); [lia|].
  destruct (rfind_down_bound txt sep start
              (Z.to_nat (start + cs - start - len sep + 1))) as [->|Hb];
    lia.
Qed.

(** ** Blank text *)

Lemma lstrip_nil s : lstrip s = [] <-> blank s = true.
Proof.
  induction s as [|c s IH]; cbn; [tauto|].
  destruct (is_space c); cbn; [exact IH|].
  split; discriminate.
Qed.

Lemma lstrip_head s c r : lstrip s = c :: r -> is_space c = false.
Proof.
  induction s as [|x s IH]; cbn; [discriminate|].
  destruct (is_space x) eqn:Hx; [exact IH|].
  intros H; injection H as <- <-; exact Hx.
Qed.

Lemma blank_rev s : blank (rev s) = blank s.
Proof.
  unfold blank. induction s as [|c s IH]; [reflexivity|].
  cbn. rewrite forallb_app, IH. cbn. rewrite andb_true_r. apply andb_comm.
Qed.

Lemma strip_nil s : strip s = [] <-> blank s = true.
Proof.
  unfold strip, rstrip. split.
  - intros H.
    assert (H1 : lstrip (rev (lstrip s)) = []).
    { destruct (lstrip (rev (lstrip s))) as [|c l]; [reflexivity|].
      cbn in H. destruct (rev l); discriminate. }
    apply lstrip_nil in H1. rewrite blank_rev in H1.
    destruct (lstrip s) as [|c r] eqn:Hl; [now apply lstrip_nil|].
    apply lstrip_head in Hl. cbn in H1. rewrite Hl in H1. discriminate.
  - intros H. apply lstrip_nil in H. rewrite H. reflexivity.
Qed.

Lemma blank_firstn k s : blank s = true -> blank (firstn k s) = true.
Proof.
  unfold blank. revert k. induction s as [|c s IH]; intros [|k]; cbn; auto.
  intros H. apply andb_true_iff in H as [-> H]. cbn. auto.
Qed.

Lemma blank_firstn_le j k s :
  (j <= k)%nat -> blank (firstn k s) = true -> blank (firstn j s) = true.
Proof.
  intros Hle H. replace j with (Nat.min j k) by lia.
  rewrite <- firstn_firstn. now apply blank_firstn.
Qed.

Lemma firstn_add {A : Type} (a k : nat) (l : list A) :
  firstn (a + k) l = firstn a l ++ firstn k (skipn a l).
Proof.
  revert l. induction a as [|a IH]; intros [|x l]; cbn;
    try reflexivity.
  - now rewrite firstn_nil.
  - now rewrite IH.
Qed.

(** A blank prefix followed by a blank window is a longer blank prefix. *)
Lemma blank_extend txt start stop :
  0 <= start <= stop ->
  blank (firstn (Z.to_nat start) txt) = true ->
  strip (slice txt (Some start) (Some stop)) = [] ->
  blank (firstn (Z.to_nat stop) txt) = true.
Proof.
  intros Hle Hpre Hwin. apply strip_nil in Hwin.
  unfold slice, adjust in Hwin.
  destruct (Z.ltb_spec start 0); [lia|].
  destruct (Z.ltb_spec stop 0); [lia|].
  destruct (Z.le_gt_cases (len txt) start) as [Hbig|Hsmall].
  - unfold len in Hbig.
    rewrite firstn_all2 by lia. rewrite firstn_all2 in Hpre by lia.
    exact Hpre.
  - rewrite (Z.min_l start) in Hwin by lia.
    replace (Z.to_nat stop)
      with (Z.to_nat start + (Z.to_nat stop - Z.to_nat start))%nat by lia.
    rewrite firstn_add. unfold blank in *. rewrite forallb_app, Hpre. cbn.
    destruct (Z.le_gt_cases stop (len txt)).
    + rewrite Z.min_l in Hwin by lia.
      replace (Z.to_nat stop - Z.to_nat start)%nat
        with (Z.to_nat (stop - start)) by lia.
      exact Hwin.
    + rewrite Z.min_r in Hwin by lia.
      unfold len in *.
      rewrite firstn_all2 in Hwin by (rewrite length_skipn; lia).
      rewrite firstn_all2 by (rewrite length_skipn; lia).
      exact Hwin.
Qed.

(** ** Shape of the returned list *)

Lemma last_chunk_snoc l c : last_chunk (l ++ [c]) = Some c.
Proof. unfold last_chunk. rewrite rev_app_distr. reflexivity. Qed.

Lemma last_chunk_some l c :
  last_chunk l = Some c -> exists l', l = l' ++ [c].
Proof.
  unfold last_chunk. destruct (rev l) as [|x r] eqn:Hr; [discriminate|].
  intros H; injection H as ->. exists (rev r).
  rewrite <- (rev_involutive l), Hr. reflexivity.
Qed.

Lemma last_chunk_none l : last_chunk l = None -> l = [].
Proof.
  unfold last_chunk. destruct (rev l) as [|x r] eqn:Hr; [|discriminate].
  intros _. rewrite <- (rev_involutive l), Hr. reflexivity.
Qed.

Lemma sorted_snoc (l : list Z) (x : Z) :
  StronglySorted Z.lt l -> Forall (fun y => y < x) l ->
  StronglySorted Z.lt (l ++ [x]).
Proof.
  induction 1 as [|y l Hs IH Hy]; intros Hall; cbn.
  - constructor; constructor.
  - inversion Hall; subst. constructor; [auto|].
    apply Forall_app; split; [assumption|]. constructor; auto.
Qed.

Lemma sorted_last_max (l : list Z) (x : Z) :
  StronglySorted Z.lt (l ++ [x]) -> Forall (fun y => y <= x) (l ++ [x]).
Proof.
  induction l as [|y l IH]; cbn; intros Hs.
  - constructor; [lia|constructor].
  - inversion Hs as [|? ? Hs' Hy]; subst. constructor; [|auto].
    apply Forall_app in Hy as [_ Hy]. inversion Hy; subst. lia.
Qed.

Lemma starts_below_last l c b :
  starts_increase l -> last_chunk l = Some c -> start_char c < b ->
  Forall (fun x => start_char x < b) l.
Proof.
  unfold starts_increase. intros Hs Hl Hb.
  apply last_chunk_some in Hl as [l' ->].
  rewrite map_app in Hs. cbn in Hs. apply sorted_last_max in Hs.
  apply Forall_app in Hs as [H1 _]. apply Forall_app; split.
  - rewrite Forall_map in H1. eapply Forall_impl; [|exact H1]. cbn; intros; lia.
  - constructor; [exact Hb|constructor].
Qed.

Lemma indexed_snoc l c :
  indexed_from_zero l -> index c = len l -> indexed_from_zero (l ++ [c]).
Proof.
  unfold indexed_from_zero, len. intros Hl Hc n x Hn.
  destruct (Nat.lt_ge_cases n (length l)) as [Hlt|Hge].
  - rewrite nth_error_app1 in Hn by assumption. auto.
  - rewrite nth_error_app2 in Hn by assumption.
    destruct (n - length l)%nat as [|k] eqn:Hk; cbn in Hn.
    + injection Hn as <-. rewrite Hc. f_equal. lia.
    + destruct k; discriminate.
Qed.

Lemma loop_inv_init txt : loop_inv txt (mkState [] 0 0).
Proof.
  constructor; cbn; try lia; try reflexivity.
  - intros [|n] c H; discriminate.
  - constructor.
  - constructor.
  - constructor.
Qed.

(** One pass re-establishes the invariant. *)
Lemma loop_inv_next txt doc cs ov sep st st' :
  0 < cs -> 0 <= ov < cs ->
  loop_inv txt st ->
  loop_body txt doc cs ov sep st = Next st' ->
  loop_inv txt st'.
Proof.
  intros Hcs Hov [Hstart Hidx Hind Hsort Hnn Hbelow Hblank] Hbody.
  pose proof (window_end_bounds txt sep cs (st_start st) Hcs Hstart) as Hw.
  destruct (loop_body_cases txt doc cs ov sep st
              ltac:(intros ? ?; congruence))
    as (chunks & idx & Hemit & [[_ Hbr]|[Hlt (start' & Hnx & Hadv)]]);
    [congruence|].
  rewrite Hnx in Hbody. injection Hbody as <-.
  set (stop := window_end txt sep cs (st_start st)) in *.
  assert (Hstart' : st_start st < start' \/
                    (0 < start' <= stop /\
                     match last_chunk chunks with
                     | Some c => start_char c < start'
                     | None => True
                     end)).
  { destruct Hadv as [->|[-> Hl]]; [left; lia|right].
    destruct (last_chunk chunks) as [c|] eqn:Hlast; [|lia].
    split; [|assumption].
    destruct Hemit as [(_ & -> & _)|(_ & -> & _)].
    - apply last_chunk_some in Hlast as [l' Hl'].
      rewrite Hl' in Hnn. apply Forall_app in Hnn as [_ Hc].
      inversion Hc; subst. lia.
    - rewrite last_chunk_snoc in Hlast. injection Hlast as <-.
      cbn in Hl. lia. }
  destruct Hemit as [(Hbl & -> & ->)|(Hnb & -> & ->)].
  - (* the window was blank: nothing appended *)
    constructor; cbn; auto.
    + destruct Hstart' as [|[? _]]; lia.
    + destruct Hstart' as [Hgt|[_ Hl]].
      * eapply Forall_impl; [|exact Hbelow]. cbn; intros; lia.
      * destruct (last_chunk (st_chunks st)) as [c|] eqn:Hlast.
        -- eapply starts_below_last; eauto.
        -- apply last_chunk_none in Hlast. rewrite Hlast. constructor.
    + intros Hnil.
      assert (Hpre : blank (firstn (Z.to_nat stop) txt) = true).
      { apply (blank_extend txt (st_start st)); auto. lia. }
      eapply blank_firstn_le; [|exact Hpre].
      destruct Hadv as [->|[-> _]]; lia.
  - (* a chunk was appended *)
    constructor; cbn.
    + destruct Hstart' as [|[? _]]; lia.
    + unfold len. rewrite length_app. cbn. unfold len in Hidx. lia.
    + apply indexed_snoc; auto.
    + unfold starts_increase. rewrite map_app. cbn.
      apply sorted_snoc; [exact Hsort|].
      rewrite Forall_map. exact Hbelow.
    + apply Forall_app; split; [exact Hnn|].
      constructor; [exact Hstart|constructor].
    + assert (Hgt : st_start st < start').
      { destruct Hstart' as [|[_ Hl]]; [assumption|].
        rewrite last_chunk_snoc in Hl. exact Hl. }
      apply Forall_app; split.
      * eapply Forall_impl; [|exact Hbelow]. cbn; intros; lia.
      * constructor; [exact Hgt|constructor].
    + intros Hnil. destruct (st_chunks st); discriminate.
Qed.

Lemma blank_whole txt k :
  len txt <= k -> blank (firstn (Z.to_nat k) txt) = true -> strip txt = [].
Proof.
  unfold len. intros Hk H. rewrite firstn_all2 in H by lia.
  now apply strip_nil.
Qed.

(** What C6 says of the returned list holds whenever a list is returned:
    it is not empty, its [index] fields are 0..N-1 in list order, and its
    [start_char] fields increase. (That a list is returned is what can
    fail.) *)
Theorem chunk_text_shape_when_returned fuel txt doc cs ov sep l :
  0 < cs -> 0 <= ov < cs -> strip txt <> [] ->
  chunk_text fuel txt doc cs ov sep = Some (Ok l) ->
  l <> [] /\ indexed_from_zero l /\ starts_increase l.
Proof.
  intros Hcs Hov Hne Hrun.
  rewrite chunk_text_valid in Hrun by assumption.
  destruct (while_loop fuel txt doc cs ov sep (mkState [] 0 0)) as [l'|]
    eqn:Hloop; [|discriminate].
  injection Hrun as ->.
  revert Hloop.
  apply (while_loop_invariant txt doc cs ov sep (loop_inv txt)
           (fun l => l <> [] /\ indexed_from_zero l /\ starts_increase l)).
  - intros st st' Hinv _ Hb. eapply loop_inv_next; eauto.
  - intros st r [Hstart Hidx Hind Hsort Hnn Hbelow Hblank] Hlt Hb.
    pose proof (window_end_bounds txt sep cs (st_start st) Hcs Hstart) as Hw.
    destruct (loop_body_cases txt doc cs ov sep st
              ltac:(intros ? ?; congruence))
      as (chunks & idx & Hemit & [[Hlen Hbr]|[_ (start' & Hnx & _)]]);
      [|congruence].
    rewrite Hbr in Hb. injection Hb as <-.
    destruct Hemit as [(Hbl & -> & _)|(_ & -> & _)].
    + repeat split; auto. intros Hnil. apply Hne.
      apply (blank_whole txt (window_end txt sep cs (st_start st))); [lia|].
      apply (blank_extend txt (st_start st)); auto. lia.
    + repeat split.
      * intros H. destruct (st_chunks st); discriminate.
      * apply indexed_snoc; auto.
      * unfold starts_increase. rewrite map_app. cbn.
        apply sorted_snoc; [exact Hsort|]. rewrite Forall_map. exact Hbelow.
  - intros st [Hstart Hidx Hind Hsort Hnn Hbelow Hblank] Hge.
    repeat split; auto. intros Hnil. apply Hne.
    apply (blank_whole txt (st_start st)); auto.
  - apply loop_inv_init.
Qed.

Lemma chunk_text_shape_when_returned_witness :
  exists l,
    chunk_text 5 (py "ab cd") (py "d") 3 1 newline = Some (Ok l)
    /\ l <> [] /\ indexed_from_zero l /\ starts_increase l.
Proof.
  eexists. split; [vm_compute; reflexivity|].
  refine (chunk_text_shape_when_returned 5 (py "ab cd") (py "d") 3 1 newline
            _ _ _ _ _).
  - lia.
  - lia.
  - vm_compute; discriminate.
  - vm_compute; reflexivity.
Defined.

(** ** Termination without overlap *)

(** With [overlap = 0] every pass moves the cursor to the end of its
    window, which is past its start. *)
Lemma while_loop_without_overlap txt doc cs sep :
  encodable doc = true -> 0 < cs ->
  forall fuel st,
    0 <= st_start st ->
    len txt - st_start st <= Z.of_nat fuel ->
    exists l, while_loop fuel txt doc cs 0 sep st = Some (Ok l).
Proof.
  intros Henc Hcs fuel.
  induction fuel as [|fuel IH]; intros st Hstart Hfuel.
  - rewrite while_loop_O.
    destruct (Z.ltb_spec (st_start st) (len txt)); [lia|eauto].
  - rewrite while_loop_unfold.
    destruct (Z.ltb_spec (st_start st) (len txt)); [|eauto].
    pose proof (window_end_bounds txt sep cs (st_start st) Hcs Hstart) as Hw.
    destruct (loop_body_cases txt doc cs 0 sep st
                (loop_body_encodable txt doc cs 0 sep st Henc))
      as (chunks & idx & _ & [[_ ->]|[_ (start' & -> & Hadv)]]); [eauto|].
    apply IH; cbn [st_start]; destruct Hadv as [->|[-> _]]; lia.
Qed.

(** With [overlap = 0], any [chunk_size > 0] and a document id that can be
    encoded (one without lone surrogates; for another the first chunk's
    id raises [UnicodeEncodeError]), [chunk_text] returns a list within
    [len(text)] passes of its loop. *)
Theorem chunk_text_terminates_without_overlap fuel txt doc cs sep :
  encodable doc = true ->
  0 < cs -> (length txt <= fuel)%nat ->
  exists l, chunk_text fuel txt doc cs 0 sep = Some (Ok l).
Proof.
  intros Henc Hcs Hfuel.
  destruct (strip txt) as [|c s] eqn:Hs.
  - exists []. now apply chunk_text_blank.
  - rewrite chunk_text_valid by (try lia; congruence).
    apply (while_loop_without_overlap txt doc cs sep Henc Hcs fuel
             (mkState [] 0 0)); cbn [st_start]; [lia|].
    unfold len. lia.
Qed.

Lemma chunk_text_terminates_without_overlap_witness :
  exists l, chunk_text 6 looping_text (py "d") 3 0 newline = Some (Ok l).
Proof.
  apply chunk_text_terminates_without_overlap; [reflexivity|lia|].
  vm_compute. repeat constructor.
Defined.

(** ** Chunk ids *)

Lemma str_eqb_refl k : str_eqb k k = true.
Proof. unfold str_eqb. destruct (str_eq_dec k k); congruence. Qed.

Lemma str_eqb_eq a b : str_eqb a b = true <-> a = b.
Proof. unfold str_eqb. destruct (str_eq_dec a b); split; congruence. Qed.

Lemma str_eqb_neq a b : str_eqb a b = false <-> a <> b.
Proof. unfold str_eqb. destruct (str_eq_dec a b); split; congruence. Qed.

Lemma get_set_same {V : Type} (d : dict V) k v : get (set d k v) k = Some v.
Proof.
  induction d as [|[k' v'] d IH]; cbn.
  - now rewrite str_eqb_refl.
  - destruct (str_eqb k' k) eqn:Hk; cbn; rewrite Hk; auto.
Qed.

(** Whatever holds of each chunk when it is appended holds of every chunk
    of the returned list. *)
Lemma chunk_text_forall (P : Chunk -> Prop) fuel txt doc cs ov sep l :
  (forall st, P (emitted txt doc cs sep st)) ->
  chunk_text fuel txt doc cs ov sep = Some (Ok l) ->
  Forall P l.
Proof.
  intros HP. unfold chunk_text.
  destruct (negb (truthy (strip txt)));
    [intros H; injection H as <-; constructor|].
  destruct (cs <=? 0); [discriminate|].
  destruct (ov <? 0); [discriminate|].
  destruct (cs <=? ov); [discriminate|].
  destruct (while_loop fuel txt doc cs ov sep (mkState [] 0 0)) as [l'|]
    eqn:Hloop; [|discriminate].
  intros H; injection H as ->. revert Hloop.
  assert (Hstep : forall st chunks,
             Forall P (st_chunks st) ->
             chunks = st_chunks st
             \/ chunks = st_chunks st ++ [emitted txt doc cs sep st] ->
             Forall P chunks).
  { intros st chunks Hall [->| ->]; [assumption|].
    apply Forall_app; split; [assumption|].
    constructor; [apply HP|constructor]. }
  apply (while_loop_invariant txt doc cs ov sep
           (fun st => Forall P (st_chunks st)) (Forall P)).
  - intros st st' Hall _ Hb.
    destruct (loop_body_cases txt doc cs ov sep st
              ltac:(intros ? ?; congruence))
      as (chunks & idx & Hemit & [[_ Hbr]|[_ (start' & Hnx & _)]]);
      [congruence|].
    rewrite Hnx in Hb. injection Hb as <-. cbn.
    apply (Hstep st); [assumption|]. tauto.
  - intros st r Hall _ Hb.
    destruct (loop_body_cases txt doc cs ov sep st
              ltac:(intros ? ?; congruence))
      as (chunks & idx & Hemit & [[_ Hbr]|[_ (start' & Hnx & _)]]);
      [|congruence].
    rewrite Hbr in Hb. injection Hb as <-.
    apply (Hstep st); [assumption|]. tauto.
  - auto.
  - constructor.
Qed.

(** Every chunk [chunk_text] returns carries the id computed from the
    [doc_id], [index] and [start_char] it is returned with. *)
Lemma chunk_text_ids fuel txt doc cs ov sep l :
  chunk_text fuel txt doc cs ov sep = Some (Ok l) ->
  Forall id_of_own_fields l.
Proof. apply chunk_text_forall. reflexivity. Qed.

Lemma chunk_text_doc_ids fuel txt doc cs ov sep l :
  chunk_text fuel txt doc cs ov sep = Some (Ok l) ->
  Forall (fun c => doc_id c = doc) l.
Proof. apply chunk_text_forall. reflexivity. Qed.

Lemma reindex_fields i l c :
  In c (reindex i l) ->
  exists c', In c' l /\ id c = id c' /\ doc_id c = doc_id c'
             /\ start_char c = start_char c' /\ metadata c = metadata c'.
Proof.
  revert i. induction l as [|x l IH]; cbn; intros i; [tauto|].
  intros [<-|Hin].
  - exists x. cbn. auto.
  - destruct (IH _ Hin) as (c' & ? & ?). eauto.
Qed.

(** The page loop, from page number [n] on: what it adds to [acc] comes
    from the pages it walks. *)
Lemma pages_loop_chunks fuel cs ov doc pages :
  forall (n : nat) acc l,
    pages_loop fuel pages (Z.of_nat n) doc cs ov acc = Some (Ok l) ->
    forall c, In c l ->
      In c acc
      \/ exists (k : nat) page_text page_chunks c0,
          nth_error pages k = Some page_text
          /\ chunk_text fuel page_text
                        (doc ++ py "_p" ++ str_of_int (Z.of_nat (n + k)))
                        cs ov newline = Some (Ok page_chunks)
          /\ In c0 page_chunks
          /\ c = stamp_page doc (Z.of_nat (n + k)) c0.
Proof.
  induction pages as [|page_text rest IH]; intros n acc l Hrun c Hin.
  - cbn in Hrun. injection Hrun as <-. auto.
  - cbn [pages_loop] in Hrun.
    replace (Z.of_nat n + 1) with (Z.of_nat (S n)) in Hrun by lia.
    destruct (negb (truthy (strip page_text))).
    + destruct (IH _ _ _ Hrun c Hin) as [?|(k & pt & pc & c0 & Hk & Hct & H0 & ->)];
        [auto|right].
      exists (S k), pt, pc, c0. cbn [nth_error].
      replace (n + S k)%nat with (S n + k)%nat by lia. auto.
    + destruct (chunk_text fuel page_text
                  (doc ++ py "_p" ++ str_of_int (Z.of_nat n)) cs ov newline)
        as [[page_chunks|e]|] eqn:Hct; try discriminate.
      destruct (IH _ _ _ Hrun c Hin) as [Hacc|(k & pt & pc & c0 & Hk & Hct' & H0 & ->)].
      * apply in_app_or in Hacc as [?|Hnew]; [auto|right].
        apply in_map_iff in Hnew as (c0 & <- & H0).
        exists 0%nat, page_text, page_chunks, c0. cbn [nth_error].
        rewrite Nat.add_0_r. auto.
      * right. exists (S k), pt, pc, c0. cbn [nth_error].
        replace (n + S k)%nat with (S n + k)%nat by lia. auto.
Qed.

(** C5 (as amended). A chunk returned by [chunk_text] carries the id
    computed from its own [(doc_id, index, start_char)]. A chunk returned by
    [chunk_by_pages] carries the id [chunk_text] gave it on its page: the
    hash of the per-page document id [doc_id + "_p" + page number] (from
    0), of its index within the page and of its [start_char]; the
    [doc_id] and, after re-indexing, the [index] it is returned with are
    not what was hashed. Both are functions of their inputs, so the same
    inputs give the same ids. *)
Theorem chunk_ids_derivation :
  (forall fuel txt doc cs ov sep l,
      chunk_text fuel txt doc cs ov sep = Some (Ok l) ->
      Forall id_of_own_fields l)
  /\ (forall fuel pages doc cs ov l,
         chunk_by_pages fuel pages doc cs ov = Some (Ok l) ->
         Forall (page_derived fuel pages doc cs ov) l).
Proof.
  split; [exact chunk_text_ids|].
  intros fuel pages doc cs ov l. unfold chunk_by_pages.
  destruct (pages_loop fuel pages 0 doc cs ov []) as [[all|e]|] eqn:Hloop;
    try discriminate.
  intros H; injection H as <-.
  apply Forall_forall. intros c Hin.
  apply reindex_fields in Hin as (c' & Hin & Hid & Hdoc & Hstart & Hmeta).
  destruct (pages_loop_chunks fuel cs ov doc pages 0 [] all Hloop c' Hin)
    as [[]|(k & pt & pc & c0 & Hk & Hct & H0 & ->)].
  cbn [Nat.add] in Hct.
  pose proof (chunk_text_ids _ _ _ _ _ _ _ Hct) as Hids.
  pose proof (chunk_text_doc_ids _ _ _ _ _ _ _ Hct) as Hdocs.
  rewrite Forall_forall in Hids, Hdocs.
  specialize (Hids c0 H0). specialize (Hdocs c0 H0).
  unfold id_of_own_fields in Hids. cbn in Hid, Hdoc, Hstart, Hmeta.
  exists k, pt, pc, c0.
  split; [exact Hk|]. split; [exact Hct|]. split; [exact H0|].
  split; [congruence|]. split; [exact Hstart|]. split; [exact Hdoc|].
  rewrite Hmeta. apply get_set_same.
Qed.

Lemma chunk_ids_derivation_witness :
  (exists l,
      chunk_text 5 (py "ab cd") (py "d") 3 1 newline = Some (Ok l)
      /\ length l = 3%nat /\ Forall id_of_own_fields l)
  /\ (exists l,
         chunk_by_pages 1 [py "a"] (py "d") 500 50 = Some (Ok l)
         /\ length l = 1%nat
         /\ Forall (page_derived 1 [py "a"] (py "d") 500 50) l).
Proof.
  split.
  - eexists. split; [vm_compute; reflexivity|]. split; [reflexivity|].
    refine (proj1 chunk_ids_derivation 5%nat (py "ab cd") (py "d") 3 1
                  newline _ _).
    vm_compute; reflexivity.
  - eexists. split; [vm_compute; reflexivity|]. split; [reflexivity|].
    refine (proj2 chunk_ids_derivation 1%nat [py "a"] (py "d") 500 50 _ _).
    vm_compute; reflexivity.
Defined.

(** C5 fails as stated for [chunk_by_pages]: the one page ["a"] of
    document ["d"], given as page 1 or as page 2 after a blank page, yields
    a chunk with the same [(doc_id, index, start_char) = ("d", 0, 0)] and
    two different ids, neither of them the hash of those fields. *)
Lemma chunk_by_pages_id_not_of_own_fields :
  exists c1 c2,
    chunk_by_pages 1 [py "a"] (py "d") 500 50 = Some (Ok [c1])
    /\ chunk_by_pages 1 [[]; py "a"] (py "d") 500 50 = Some (Ok [c2])
    /\ (doc_id c1, index c1, start_char c1)
       = (doc_id c2, index c2, start_char c2)
    /\ id c1 <> id c2
    /\ id c1 <> chunk_id (doc_id c1) (index c1) (start_char c1)
    /\ id c2 <> chunk_id (doc_id c2) (index c2) (start_char c2).
Proof.
  eexists _, _. split; [vm_compute; reflexivity|].
  split; [vm_compute; reflexivity|].
  split; [reflexivity|].
  repeat split; vm_compute; discriminate.
Qed.

End ChunkerFacts.

(* ===================================================================== *)
(** * The order of floats *)
(* ===================================================================== *)

Section FloatFacts.
Import FloatOrder.

Lemma SFltb_rank f1 f2 :
  sf_is_nan f1 = false -> sf_is_nan f2 = false ->
  (SFltb f1 f2 = true <-> lt3 (sf_rank f1) (sf_rank f2)).
Proof.
  unfold SFltb, SFcompare, lt3.
  destruct f1 as [s1|s1| |s1 m1 e1], f2 as [s2|s2| |s2 m2 e2];
    try discriminate; intros _ _;
    try destruct s1; try destruct s2; cbn [sf_rank];
    try (split; intros; [lia | reflexivity]);
    try (split; intros; [discriminate | lia]);
    change (PosDef.Pos.compare_cont Eq m1 m2) with (Pos.compare m1 m2);
    destruct (Z.compare_spec e1 e2), (Pos.compare_spec m1 m2); cbn;
    split; intros; try discriminate; try reflexivity; subst; lia.
Qed.
Lemma SFeqb_rank f1 f2 :
  sf_is_nan f1 = false -> sf_is_nan f2 = false ->
  (SFeqb f1 f2 = true <-> sf_rank f1 = sf_rank f2).
Proof.
  unfold SFeqb, SFcompare.
  destruct f1 as [s1|s1| |s1 m1 e1], f2 as [s2|s2| |s2 m2 e2];
    try discriminate; intros _ _;
    try destruct s1; try destruct s2; cbn [sf_rank];
    try (split; intros; reflexivity);
    try (split; intros; discriminate);
    change (PosDef.Pos.compare_cont Eq m1 m2) with (Pos.compare m1 m2);
    destruct (Z.compare_spec e1 e2), (Pos.compare_spec m1 m2); cbn;
    split; intros Heq; try discriminate; try reflexivity;
    try (subst; reflexivity); inversion Heq; lia.
Qed.

Lemma SFcompare_nan f1 f2 :
  sf_is_nan f1 = true \/ sf_is_nan f2 = true -> SFcompare f1 f2 = None.
Proof.
  destruct f1, f2; cbn; intros [H|H]; try discriminate; reflexivity.
Qed.

Lemma is_nan_spec x : is_nan x = sf_is_nan (Prim2SF x).
Proof.
  unfold is_nan. rewrite eqb_spec.
  destruct (sf_is_nan (Prim2SF x)) eqn:Hn.
  - unfold SFeqb. rewrite SFcompare_nan by auto. reflexivity.
  - destruct (SFeqb (Prim2SF x) (Prim2SF x)) eqn:He; [reflexivity|].
    assert (SFeqb (Prim2SF x) (Prim2SF x) = true)
      by (apply SFeqb_rank; auto).
    congruence.
Qed.

Lemma ltb_true_not_nan x y :
  (x <? y)%float = true -> is_nan x = false /\ is_nan y = false.
Proof.
  rewrite ltb_spec, !is_nan_spec. unfold SFltb.
  destruct (sf_is_nan (Prim2SF x)) eqn:Hx;
    [rewrite SFcompare_nan by auto; discriminate|].
  destruct (sf_is_nan (Prim2SF y)) eqn:Hy;
    [rewrite SFcompare_nan by auto; discriminate|]. auto.
Qed.

Lemma eqb_true_not_nan x y :
  (x =? y)%float = true -> is_nan x = false /\ is_nan y = false.
Proof.
  rewrite eqb_spec, !is_nan_spec. unfold SFeqb.
  destruct (sf_is_nan (Prim2SF x)) eqn:Hx;
    [rewrite SFcompare_nan by auto; discriminate|].
  destruct (sf_is_nan (Prim2SF y)) eqn:Hy;
    [rewrite SFcompare_nan by auto; discriminate|]. auto.
Qed.

Lemma ltb_rank x y :
  is_nan x = false -> is_nan y = false ->
  ((x <? y)%float = true
   <-> lt3 (sf_rank (Prim2SF x)) (sf_rank (Prim2SF y))).
Proof.
  rewrite !is_nan_spec, ltb_spec. apply SFltb_rank.
Qed.

Lemma eqb_rank x y :
  is_nan x = false -> is_nan y = false ->
  ((x =? y)%float = true <-> sf_rank (Prim2SF x) = sf_rank (Prim2SF y)).
Proof.
  rewrite !is_nan_spec, eqb_spec. apply SFeqb_rank.
Qed.

Lemma lt3_asym a b : lt3 a b -> ~ lt3 b a.
Proof. destruct a as [[? ?] ?], b as [[? ?] ?]. cbn. lia. Qed.

Lemma lt3_negtrans a b c : ~ lt3 a b -> ~ lt3 b c -> ~ lt3 a c.
Proof.
  destruct a as [[? ?] ?], b as [[? ?] ?], c as [[? ?] ?]. cbn. lia.
Qed.

Lemma lt3_irrefl a : ~ lt3 a a.
Proof. destruct a as [[? ?] ?]. cbn. lia. Qed.

(** [<] on floats is asymmetric. *)
Lemma ltb_asym x y : (x <? y)%float = true -> (y <? x)%float = false.
Proof.
  intros H. destruct (ltb_true_not_nan _ _ H) as [Hx Hy].
  apply (ltb_rank x y Hx Hy) in H.
  destruct (y <? x)%float eqn:H'; [|reflexivity].
  apply (ltb_rank y x Hy Hx) in H'. now apply lt3_asym in H.
Qed.

(** Away from NaN, "not less than" is transitive. *)
Lemma ltb_negtrans x y z :
  is_nan y = false ->
  (x <? y)%float = false -> (y <? z)%float = false ->
  (x <? z)%float = false.
Proof.
  intros Hy Hxy Hyz.
  destruct (x <? z)%float eqn:Hxz; [|reflexivity].
  destruct (ltb_true_not_nan _ _ Hxz) as [Hx Hz].
  apply (ltb_rank x z Hx Hz) in Hxz.
  exfalso. revert Hxz. apply (lt3_negtrans _ (sf_rank (Prim2SF y))).
  - intros H. apply (ltb_rank x y Hx Hy) in H. congruence.
  - intros H. apply (ltb_rank y z Hy Hz) in H. congruence.
Qed.

(** Two floats equal to a third are not ordered by [<]. *)
Lemma ltb_of_equal x y s :
  (x =? s)%float = true -> (y =? s)%float = true ->
  (x <? y)%float = false.
Proof.
  intros Hx Hy.
  destruct (eqb_true_not_nan _ _ Hx) as [Nx Ns].
  destruct (eqb_true_not_nan _ _ Hy) as [Ny _].
  apply (eqb_rank x s Nx Ns) in Hx. apply (eqb_rank y s Ny Ns) in Hy.
  destruct (x <? y)%float eqn:H; [|reflexivity].
  apply (ltb_rank x y Nx Ny) in H. rewrite Hx, <- Hy in H.
  now apply lt3_irrefl in H.
Qed.

Lemma SFleb_rank f1 f2 :
  sf_is_nan f1 = false -> sf_is_nan f2 = false ->
  (SFleb f1 f2 = true <-> ~ lt3 (sf_rank f2) (sf_rank f1)).
Proof.
  unfold SFleb, SFcompare, lt3.
  destruct f1 as [s1|s1| |s1 m1 e1], f2 as [s2|s2| |s2 m2 e2];
    try discriminate; intros _ _;
    try destruct s1; try destruct s2; cbn [sf_rank];
    try (split; intros; [lia | reflexivity]);
    try (split; intros; [discriminate | lia]);
    change (PosDef.Pos.compare_cont Eq m1 m2) with (Pos.compare m1 m2);
    destruct (Z.compare_spec e1 e2), (Pos.compare_spec m1 m2); cbn;
    split; intros; try discriminate; try reflexivity; subst; lia.
Qed.

(** Away from NaN, "not less than" is "at least". *)
Lemma not_ltb_leb x y :
  is_nan x = false -> is_nan y = false ->
  (x <? y)%float = false -> (y <=? x)%float = true.
Proof.
  intros Hx Hy H. rewrite leb_spec.
  apply SFleb_rank; rewrite <- ?is_nan_spec; auto.
  intros Hlt. apply (ltb_rank x y Hx Hy) in Hlt. congruence.
Qed.

Lemma binary_round_aux_not_negative mx ex lx :
  sf_not_negative (binary_round_aux prec emax false mx ex lx) = true.
Proof.
  unfold binary_round_aux.
  destruct (shr_fexp prec emax mx ex lx) as [mrs' e'].
  destruct (shr_fexp prec emax _ e' loc_Exact) as [mrs'' e''].
  destruct (shr_m mrs''); [reflexivity| |reflexivity].
  destruct (e'' <=? emax - prec); reflexivity.
Qed.

Lemma binary_round_not_negative mx ex :
  sf_not_negative (binary_round prec emax false mx ex) = true.
Proof.
  unfold binary_round. destruct (shl_align _ _ _) as [mz ez].
  apply binary_round_aux_not_negative.
Qed.

Lemma SFmul_self_not_negative f : sf_not_negative (SF64mul f f) = true.
Proof.
  destruct f as [s|s| |s m e]; cbn; try reflexivity.
  - destruct s; reflexivity.
  - destruct s; cbn; apply binary_round_aux_not_negative.
Qed.

Lemma SFadd_not_negative f g :
  sf_not_negative f = true -> sf_not_negative g = true ->
  sf_not_negative (SF64add f g) = true.
Proof.
  destruct f as [s|s| |s m e], g as [s'|s'| |s' m' e'];
    try destruct s; try destruct s'; cbn; try reflexivity; try discriminate.
  intros _ _. apply binary_round_not_negative.
Qed.

Lemma ltb_zero_spec x :
  (x <? 0)%float = negb (sf_not_negative (Prim2SF x)).
Proof.
  rewrite ltb_spec. change (Prim2SF 0) with (S754_zero false).
  destruct (Prim2SF x) as [s|s| |s m e]; try destruct s; reflexivity.
Qed.

(** ** Magnitudes through the rounding *)

Lemma shr_1_m mrs : 0 <= shr_m mrs -> shr_m (shr_1 mrs) = shr_m mrs / 2.
Proof.
  destruct mrs as [m r s]. cbn [shr_m]. intros Hm.
  destruct m as [|[p|p|]|p]; try lia; cbn [shr_1 shr_m].
  - reflexivity.
  - apply (Z.div_unique _ _ _ 1); lia.
  - apply (Z.div_unique _ _ _ 0); lia.
  - reflexivity.
Qed.

Lemma pow2_double p : 2 ^ Zpos p~0 = 2 ^ Zpos p * 2 ^ Zpos p.
Proof.
  assert (H : Zpos p~0 = Zpos p + Zpos p) by lia.
  rewrite H. apply Z.pow_add_r; lia.
Qed.

Lemma pow2_double_succ p : 2 ^ Zpos p~1 = 2 * (2 ^ Zpos p * 2 ^ Zpos p).
Proof.
  assert (H : Zpos p~1 = Z.succ (Zpos p + Zpos p)) by lia.
  rewrite H, Z.pow_succ_r by lia. f_equal. apply Z.pow_add_r; lia.
Qed.

Lemma iter_shr_m p :
  forall mrs, 0 <= shr_m mrs ->
    shr_m (iter_pos shr_1 p mrs) = shr_m mrs / 2 ^ Zpos p.
Proof.
  induction p as [p IH|p IH|]; intros mrs Hm; cbn [iter_pos].
  - assert (H0 : 0 < 2 ^ Zpos p) by (apply Z.pow_pos_nonneg; lia).
    assert (H1 : 0 <= shr_m (shr_1 mrs))
      by (rewrite shr_1_m by assumption; apply Z.div_pos; lia).
    assert (H2 : 0 <= shr_m (iter_pos shr_1 p (shr_1 mrs)))
      by (rewrite IH by assumption; apply Z.div_pos; lia).
    rewrite IH, IH, shr_1_m by assumption.
    rewrite !Z.div_div by lia.
    rewrite pow2_double_succ. f_equal; lia.
  - assert (H0 : 0 < 2 ^ Zpos p) by (apply Z.pow_pos_nonneg; lia).
    assert (H2 : 0 <= shr_m (iter_pos shr_1 p mrs))
      by (rewrite IH by assumption; apply Z.div_pos; lia).
    rewrite IH, IH by assumption.
    rewrite !Z.div_div by lia.
    now rewrite pow2_double.
  - rewrite shr_1_m by assumption. reflexivity.
Qed.

Lemma digits2_lower m : 2 ^ (Zpos (digits2_pos m) - 1) <= Zpos m.
Proof.
  induction m as [p IH|p IH|]; cbn [digits2_pos].
  - rewrite Pos2Z.inj_succ.
    replace (Z.succ (Z.pos (digits2_pos p)) - 1)
      with (Z.succ (Z.pos (digits2_pos p) - 1)) by lia.
    rewrite Z.pow_succ_r by lia. lia.
  - rewrite Pos2Z.inj_succ.
    replace (Z.succ (Z.pos (digits2_pos p)) - 1)
      with (Z.succ (Z.pos (digits2_pos p) - 1)) by lia.
    rewrite Z.pow_succ_r by lia. lia.
  - cbn. lia.
Qed.

Lemma shr_fexp_at_least k m e l :
  -1074 <= k -> at_least k m e ->
  at_least k (shr_m (fst (shr_fexp prec emax m e l)))
           (snd (shr_fexp prec emax m e l)).
Proof.
  intros Hk [Hm Hpow]. unfold shr_fexp, shr.
  destruct m as [|p|p]; try lia. cbn [Zdigits2].
  pose proof (digits2_lower p) as Hd.
  set (d := Zpos (digits2_pos p)) in *.
  assert (Hrec : shr_m (shr_record_of_loc (Zpos p) l) = Zpos p)
    by (destruct l as [|[]]; reflexivity).
  destruct (fexp prec emax (d + e) - e) as [|n|n] eqn:Hn; cbn [fst snd];
    rewrite ?Hrec; try (split; assumption).
  rewrite iter_shr_m by (rewrite Hrec; lia). rewrite Hrec.
  assert (Hfexp : fexp prec emax (d + e) = Z.max (d + e - 53) (-1074))
    by reflexivity.
  assert (Hle : 2 ^ Zpos n <= Zpos p).
  { destruct (Z.max_spec (d + e - 53) (-1074)) as [[_ Hmax]|[_ Hmax]].
    - eapply Z.le_trans; [|exact Hpow].
      apply Z.pow_le_mono_r; lia.
    - eapply Z.le_trans; [|exact Hd].
      apply Z.pow_le_mono_r; lia. }
  split.
  - apply Z.div_le_lower_bound; lia.
  - destruct (Z.lt_ge_cases (k - (e + Zpos n)) 0) as [Hneg|Hpos].
    + rewrite Z.pow_neg_r by assumption. apply Z.div_pos; lia.
    + apply Z.div_le_lower_bound; [lia|].
      rewrite <- Z.pow_add_r by lia.
      replace (Zpos n + (k - (e + Zpos n))) with (k - e) by lia.
      exact Hpow.
Qed.

Lemma round_nearest_even_ge m l : m <= round_nearest_even m l.
Proof. destruct l as [|[]]; cbn; try destruct (Z.even m); lia. Qed.

(** Rounding a magnitude of at least [2^k], [k >= -1074], gives a finite
    number of at least [2^k] or an infinity, never a zero. *)
Lemma binary_round_aux_at_least k sx m e l :
  -1074 <= k -> at_least k m e ->
  (exists m' e',
      binary_round_aux prec emax sx m e l = S754_finite sx m' e'
      /\ at_least k (Zpos m') e')
  \/ binary_round_aux prec emax sx m e l = S754_infinity sx.
Proof.
  intros Hk Hm. unfold binary_round_aux.
  pose proof (shr_fexp_at_least k m e l Hk Hm) as H1.
  destruct (shr_fexp prec emax m e l) as [mrs' e1]. cbn [fst snd] in H1.
  assert (H2 : at_least k (round_nearest_even (shr_m mrs')
                                              (loc_of_shr_record mrs')) e1).
  { destruct H1 as [Ha Hb].
    pose proof (round_nearest_even_ge (shr_m mrs') (loc_of_shr_record mrs')).
    split; lia. }
  pose proof (shr_fexp_at_least k _ e1 loc_Exact Hk H2) as H3.
  destruct (shr_fexp prec emax _ e1 loc_Exact) as [mrs'' e2].
  cbn [fst snd] in H3.
  destruct (shr_m mrs'') as [|m'|m'] eqn:Hm''; try (destruct H3; lia).
  destruct (e2 <=? emax - prec); [left|right; reflexivity].
  exists m', e2. split; [reflexivity|assumption].
Qed.

Lemma shifted_mantissa m s :
  0 <= s ->
  match s with
  | 0 => Zpos m
  | Zpos _ => Z.shiftl (Zpos m) s
  | Zneg _ => 0
  end = Zpos m * 2 ^ s.
Proof.
  intros Hs. destruct s as [|p|p]; try lia.
  apply Z.shiftl_mul_pow2. lia.
Qed.

Lemma sqrt_core_at_least m e :
  -1074 <= e ->
  at_least (-537)
           (fst (fst (SFsqrt_core_binary prec emax (Zpos m) e)))
           (snd (fst (SFsqrt_core_binary prec emax (Zpos m) e))).
Proof.
  intros He. unfold SFsqrt_core_binary.
  remember (Z.min (fexp prec emax (Z.div2 (Zdigits2 (Zpos m) + e + 1)))
                  (Z.div2 e)) as e' eqn:He'.
  assert (Hmin : e' <= Z.div2 e) by (subst e'; apply Z.le_min_r).
  clear He'.
  assert (Hhalf : 2 * e' <= e).
  { pose proof (Z.div2_odd e) as Hodd.
    destruct (Z.odd e); unfold Z.b2z in Hodd; lia. }
  rewrite shifted_mantissa by lia.
  assert (Hpow : 1 <= 2 ^ (e - 2 * e')).
  { assert (0 < 2 ^ (e - 2 * e')) by (apply Z.pow_pos_nonneg; lia). lia. }
  assert (Hm1 : 1 <= Zpos m * 2 ^ (e - 2 * e')) by nia.
  destruct (Z.sqrtrem (Zpos m * 2 ^ (e - 2 * e'))) as [q r] eqn:Hq.
  assert (Hsq : q = Z.sqrt (Zpos m * 2 ^ (e - 2 * e'))).
  { pose proof (Z.sqrtrem_sqrt (Zpos m * 2 ^ (e - 2 * e'))) as H.
    rewrite Hq in H. exact H. }
  cbn [fst snd].
  split.
  - rewrite Hsq. change 1 with (Z.sqrt 1). now apply Z.sqrt_le_mono.
  - destruct (Z.lt_ge_cases (-537 - e') 0) as [Hneg|Hpos].
    + rewrite Z.pow_neg_r by assumption. rewrite Hsq. apply Z.sqrt_nonneg.
    + rewrite Hsq.
      rewrite <- (Z.sqrt_square (2 ^ (-537 - e'))) by (apply Z.pow_nonneg; lia).
      apply Z.sqrt_le_mono.
      rewrite <- Z.pow_add_r by lia.
      assert (2 ^ (-537 - e' + (-537 - e')) <= 2 ^ (e - 2 * e'))
        by (apply Z.pow_le_mono_r; lia).
      nia.
Qed.

Lemma valid_exponent s m e :
  valid_binary (S754_finite s m e) = true -> -1074 <= e.
Proof.
  cbn. unfold bounded, canonical_mantissa. intros H.
  apply andb_true_iff in H as [H _]. apply Z.eqb_eq in H.
  unfold fexp in H. change (SpecFloat.emin prec emax) with (-1074) in H. lia.
Qed.

(** A square root is NaN, a zero, +oo, or a positive number of at least
    2^-537. *)
Lemma SFsqrt_range x : valid_binary x = true -> sqrt_range (SF64sqrt x).
Proof.
  intros Hv. destruct x as [s|s| |s m e]; cbn.
  - exact I.
  - destruct s; cbn; auto.
  - exact I.
  - destruct s; [exact I|].
    apply valid_exponent in Hv.
    pose proof (sqrt_core_at_least m e Hv) as Hcore.
    destruct (SFsqrt_core_binary prec emax (Zpos m) e) as [[mz ez] lz].
    cbn [fst snd] in Hcore.
    destruct (binary_round_aux_at_least (-537) false mz ez lz
                ltac:(lia) Hcore) as [(m' & e' & -> & H)| ->]; cbn; auto.
Qed.

Lemma at_least_product m1 e1 m2 e2 :
  at_least (-537) m1 e1 -> at_least (-537) m2 e2 ->
  at_least (-1074) (m1 * m2) (e1 + e2).
Proof.
  intros [H1 P1] [H2 P2]. split; [nia|].
  destruct (Z.lt_ge_cases (-1074 - (e1 + e2)) 0) as [Hneg|Hpos].
  - rewrite Z.pow_neg_r by assumption. nia.
  - destruct (Z.lt_ge_cases (-537 - e1) 0) as [Ha|Ha].
    + assert (2 ^ (-1074 - (e1 + e2)) <= 2 ^ (-537 - e2))
        by (apply Z.pow_le_mono_r; lia).
      nia.
    + destruct (Z.lt_ge_cases (-537 - e2) 0) as [Hb|Hb].
      * assert (2 ^ (-1074 - (e1 + e2)) <= 2 ^ (-537 - e1))
          by (apply Z.pow_le_mono_r; lia).
        nia.
      * replace (-1074 - (e1 + e2)) with ((-537 - e1) + (-537 - e2)) by lia.
        rewrite Z.pow_add_r by lia.
        assert (0 <= 2 ^ (-537 - e1)) by (apply Z.pow_nonneg; lia).
        assert (0 <= 2 ^ (-537 - e2)) by (apply Z.pow_nonneg; lia).
        nia.
Qed.

Lemma SFmul_sqrt_nonzero p q :
  sqrt_range p -> sqrt_range q ->
  SFeqb p (S754_zero false) = false -> SFeqb q (S754_zero false) = false ->
  SFeqb (SF64mul p q) (S754_zero false) = false.
Proof.
  destruct p as [s|s| |s m e], q as [s'|s'| |s' m' e']; cbn;
    try discriminate; try reflexivity; intros Hp Hq _ _.
  - subst. reflexivity.
  - destruct Hq as [-> _]. subst. reflexivity.
  - destruct Hp as [-> _]. subst. reflexivity.
  - destruct Hp as [-> Hp], Hq as [-> Hq].
    destruct (binary_round_aux_at_least (-1074) (xorb false false)
                (Zpos (m * m')) (e + e') loc_Exact ltac:(lia)
                (at_least_product _ _ _ _ Hp Hq))
      as [(m2 & e2 & -> & _)| ->]; reflexivity.
Qed.

(** The product of two square roots that are not zero is not zero. *)
Lemma sqrt_product_nonzero x y :
  (sqrt x =? 0)%float = false -> (sqrt y =? 0)%float = false ->
  (sqrt x * sqrt y =? 0)%float = false.
Proof.
  rewrite !eqb_spec, mul_spec, !sqrt_spec.
  change (Prim2SF 0) with (S754_zero false).
  apply SFmul_sqrt_nonzero; apply SFsqrt_range, Prim2SF_valid.
Qed.

End FloatFacts.

(* ===================================================================== *)
(** * Dictionaries and slices *)
(* ===================================================================== *)

Section DictFacts.
Context {V : Type}.
Implicit Types (d : dict V) (k : str) (v : V).

Lemma get_set d k v k' :
  get (set d k v) k' = if str_eqb k k' then Some v else get d k'.
Proof.
  induction d as [|[k0 v0] d IH]; cbn.
  - reflexivity.
  - destruct (str_eqb k0 k) eqn:Hk; cbn.
    + apply str_eqb_eq in Hk as ->. destruct (str_eqb k k'); reflexivity.
    + rewrite IH. destruct (str_eqb k0 k') eqn:Hk'; [|reflexivity].
      apply str_eqb_eq in Hk' as ->. apply str_eqb_neq in Hk.
      destruct (str_eqb k k') eqn:E; [|reflexivity].
      apply str_eqb_eq in E. congruence.
Qed.

Lemma get_set_other d k v k' : k <> k' -> get (set d k v) k' = get d k'.
Proof.
  intros H. rewrite get_set. apply str_eqb_neq in H. now rewrite H.
Qed.

Lemma mem_keys d k : mem d k = true <-> In k (keys d).
Proof.
  unfold mem. induction d as [|[k0 v0] d IH]; cbn.
  - split; [discriminate|tauto].
  - destruct (str_eqb k0 k) eqn:Hk.
    + apply str_eqb_eq in Hk. split; auto.
    + apply str_eqb_neq in Hk. rewrite IH. split; [auto|].
      intros [?|?]; [contradiction|assumption].
Qed.

Lemma get_none_keys d k : get d k = None <-> ~ In k (keys d).
Proof.
  rewrite <- mem_keys. unfold mem. destruct (get d k); split;
    congruence.
Qed.

Lemma keys_set d k v :
  keys (set d k v) = if mem d k then keys d else keys d ++ [k].
Proof.
  unfold mem, keys. induction d as [|[k0 v0] d IH]; cbn; [reflexivity|].
  destruct (str_eqb k0 k) eqn:Hk; cbn; [reflexivity|].
  rewrite IH. destruct (get d k); reflexivity.
Qed.

Lemma keys_pop d k :
  keys (pop d k) = filter (fun x => negb (str_eqb x k)) (keys d).
Proof.
  unfold pop, keys. induction d as [|[k0 v0] d IH]; cbn; [reflexivity|].
  destruct (str_eqb k0 k); cbn; now rewrite IH.
Qed.

Lemma get_pop d k k' :
  get (pop d k) k' = if str_eqb k k' then None else get d k'.
Proof.
  unfold pop. induction d as [|[k0 v0] d IH]; cbn.
  - destruct (str_eqb k k'); reflexivity.
  - destruct (str_eqb k0 k) eqn:Hk; cbn.
    + apply str_eqb_eq in Hk as ->. rewrite IH.
      destruct (str_eqb k k'); reflexivity.
    + rewrite IH. destruct (str_eqb k0 k') eqn:Hk'; [|reflexivity].
      apply str_eqb_eq in Hk' as ->. apply str_eqb_neq in Hk.
      destruct (str_eqb k k') eqn:E; [|reflexivity].
      apply str_eqb_eq in E. congruence.
Qed.

Lemma nodup_keys_set d k v : NoDup (keys d) -> NoDup (keys (set d k v)).
Proof.
  intros H. rewrite keys_set. destruct (mem d k) eqn:Hm; [assumption|].
  apply NoDup_app; [assumption | repeat constructor; intros [] | ].
  intros x Hx [<-|[]]. apply mem_keys in Hx. congruence.
Qed.

Lemma nodup_keys_pop d k : NoDup (keys d) -> NoDup (keys (pop d k)).
Proof. intros H. rewrite keys_pop. now apply NoDup_filter. Qed.

(** Popping a key that is present removes exactly one entry. *)
Lemma length_pop d k :
  NoDup (keys d) ->
  length (pop d k) = (length d - if mem d k then 1 else 0)%nat.
Proof.
  unfold mem, pop. induction d as [|[k0 v0] d IH]; cbn; [reflexivity|].
  intros Hnd. inversion Hnd as [|? ? Hnotin Hnd']; subst.
  destruct (str_eqb k0 k) eqn:Hk; cbn.
  - apply str_eqb_eq in Hk as ->.
    apply get_none_keys in Hnotin. specialize (IH Hnd').
    rewrite Hnotin in IH. rewrite IH. lia.
  - rewrite (IH Hnd'). destruct (get d k) eqn:Hg; [|lia].
    destruct d; [discriminate|cbn; lia].
Qed.

End DictFacts.

Section SliceFacts.
Context {A : Type}.

Lemma slice_nil (lo hi : option Z) : slice (@nil A) lo hi = [].
Proof. unfold slice. now rewrite skipn_nil, firstn_nil. Qed.

(** [l[:k]] for [k >= 0]: the first [k] elements, all of them if there
    are fewer. *)
Lemma slice_prefix (l : list A) k :
  0 <= k -> slice l None (Some k) = firstn (Z.to_nat k) l.
Proof.
  intros Hk. unfold slice, adjust, len. cbn [skipn Z.to_nat].
  destruct (Z.ltb_spec k 0); [lia|]. rewrite Z.sub_0_r.
  destruct (Z.le_gt_cases k (Z.of_nat (length l))).
  - now rewrite Z.min_l by lia.
  - rewrite Z.min_r by lia. rewrite !firstn_all2 by lia. reflexivity.
Qed.

(** [l[:k]] for [k < 0]: all but the last [|k|] elements. *)
Lemma slice_negative (l : list A) k :
  k < 0 -> slice l None (Some k) = firstn (length l - Z.to_nat (- k)) l.
Proof.
  intros Hk. unfold slice, adjust, len. cbn [skipn Z.to_nat].
  destruct (Z.ltb_spec k 0); [|lia]. rewrite Z.sub_0_r. f_equal. lia.
Qed.

End SliceFacts.

(* ===================================================================== *)
(** * The sort *)
(* ===================================================================== *)

Section SortFacts.
Import Chunker Search SearchSpec.

Lemma insert_desc_perm r l : Permutation (r :: l) (insert_desc r l).
Proof.
  induction l as [|x l IH]; cbn; [reflexivity|].
  destruct (score r <? score x)%float; [|reflexivity].
  rewrite perm_swap. now constructor.
Qed.

Lemma sort_desc_perm l : Permutation l (sort_desc l).
Proof.
  induction l as [|r l IH]; cbn; [constructor|].
  rewrite <- insert_desc_perm. now constructor.
Qed.

(** "[a] is not less than [b]", the relation the insertion maintains. *)
Lemma insert_desc_sorted r l :
  comparable l ->
  StronglySorted (fun a b => (score a <? score b)%float = false) l ->
  StronglySorted (fun a b => (score a <? score b)%float = false)
                 (insert_desc r l).
Proof.
  intros Hc Hs. induction Hs as [|x l Hs IH Hx]; cbn.
  - repeat constructor.
  - inversion Hc as [|? ? Hnx Hc']; subst.
    destruct (score r <? score x)%float eqn:Hlt.
    + constructor; [auto|].
      eapply Permutation_Forall; [apply insert_desc_perm|].
      constructor; [now apply ltb_asym | assumption].
    + constructor; [constructor; assumption|].
      constructor; [assumption|].
      eapply Forall_impl; [|exact Hx]. cbn. intros y Hy.
      now apply (ltb_negtrans _ (score x)).
Qed.

Lemma sort_desc_sorted l :
  comparable l ->
  StronglySorted (fun a b => (score a <? score b)%float = false)
                 (sort_desc l).
Proof.
  induction l as [|r l IH]; cbn; intros Hc; [constructor|].
  inversion Hc; subst. apply insert_desc_sorted; [|auto].
  eapply Permutation_Forall; [apply sort_desc_perm|assumption].
Qed.

Lemma sort_desc_descending l : comparable l -> descending (sort_desc l).
Proof.
  intros Hc. pose proof (sort_desc_sorted l Hc) as Hs.
  assert (Hc' : comparable (sort_desc l))
    by (eapply Permutation_Forall; [apply sort_desc_perm|assumption]).
  unfold descending. induction Hs as [|x l' Hs IH Hx]; [constructor|].
  inversion Hc' as [|? ? Hnx Hcl]; subst.
  constructor; [auto|].
  unfold comparable in Hcl. rewrite Forall_forall in Hx, Hcl.
  apply Forall_forall. intros y Hy.
  apply not_ltb_leb; auto.
Qed.

Lemma insert_desc_ties r l (s : float) :
  filter (fun x => (score x =? s)%float) (insert_desc r l)
  = filter (fun x => (score x =? s)%float) (r :: l).
Proof.
  induction l as [|x l IH]; [reflexivity|].
  cbn [insert_desc].
  destruct (score r <? score x)%float eqn:Hlt; [|reflexivity].
  cbn [filter] in *. rewrite IH.
  destruct (score r =? s)%float eqn:Hr; [|reflexivity].
  destruct (score x =? s)%float eqn:Hx; [|reflexivity].
  rewrite (ltb_of_equal _ _ _ Hr Hx) in Hlt. discriminate.
Qed.

(** The sort is stable. *)
Lemma sort_desc_ties l : keeps_ties_of l (sort_desc l).
Proof.
  intros s. induction l as [|r l IH]; [reflexivity|].
  cbn [sort_desc]. rewrite insert_desc_ties. cbn [filter].
  now rewrite IH.
Qed.

End SortFacts.

(* ===================================================================== *)
(** * Properties of search *)
(* ===================================================================== *)

Section SearchFacts.
Import Chunker Search SearchSpec Inputs.

(** [search] sorts and slices the scored candidates. *)
Lemma search_as_scored embed idx query doc top_k :
  search embed idx query doc top_k
  = (l <- scored embed idx query doc ;;
     Ok (slice (sort_desc l) None (Some top_k))).
Proof.
  unfold search, scored, bind.
  destruct (embed [query] search_query) as [[|qe embs]|e]; try reflexivity.
  destruct (candidates idx doc) as [|x rest]; [|reflexivity].
  cbn. now rewrite slice_nil.
Qed.

(** At most one result per candidate id. *)
Lemma score_all_length_le idx q ids :
  forall acc res,
    score_all idx q ids acc = Ok res ->
    (length res <= length acc + length ids)%nat.
Proof.
  induction ids as [|x ids IH]; intros acc res; cbn [score_all].
  - intros H; injection H as <-. cbn. lia.
  - destruct (get (_embeddings idx) x) as [e|].
    + unfold bind. destruct (_cosine_similarity q e) as [s|]; [|discriminate].
      destruct (get (_chunks idx) x) as [c|]; [|discriminate].
      intros H. apply IH in H. rewrite length_app in H. cbn in *. lia.
    + intros H. apply IH in H. cbn. lia.
Qed.

(** What [search] returns when [top_k] is at least the number of
    candidate ids is its whole ranking; every other [top_k] gives the
    slice [ [:top_k] ] of that. *)
Lemma search_slices_ranking embed idx query doc n ranked :
  len (candidates idx doc) <= n ->
  search embed idx query doc n = Ok ranked ->
  forall top_k,
    search embed idx query doc top_k
    = Ok (slice ranked None (Some top_k)).
Proof.
  intros Hn. rewrite search_as_scored. unfold scored, bind.
  destruct (embed [query] search_query) as [[|qe embs]|e] eqn:He;
    try discriminate.
  destruct (score_all idx qe (candidates idx doc) []) as [l|] eqn:Hl;
    [|discriminate].
  intros H top_k. injection H as <-.
  rewrite search_as_scored. unfold scored, bind. rewrite He, Hl.
  do 2 f_equal. apply score_all_length_le in Hl. cbn [length] in Hl.
  rewrite (Permutation_length (sort_desc_perm l)) in Hl.
  unfold len in Hn. rewrite slice_prefix by lia.
  symmetry. apply firstn_all2. lia.
Qed.

(** C10. Where [ranked] is the whole ranking of a search (what [search]
    returns when [top_k] is at least the number of candidate ids, in
    whatever order the sort has put the results): [top_k = 0] returns the
    empty list, and a negative [top_k] returns the ranking without its
    last [|top_k|] results. No property of the order is used, so this
    holds with NaN scores as well. *)
Theorem search_top_k_slice embed idx query doc n ranked :
  len (candidates idx doc) <= n ->
  search embed idx query doc n = Ok ranked ->
  search embed idx query doc 0 = Ok []
  /\ forall top_k,
      top_k < 0 ->
      search embed idx query doc top_k
      = Ok (firstn (length ranked - Z.to_nat (- top_k)) ranked).
Proof.
  intros Hn Hranked.
  pose proof (search_slices_ranking _ _ _ _ _ _ Hn Hranked) as Hslice.
  split.
  - rewrite Hslice, slice_prefix by lia. reflexivity.
  - intros top_k Hk. rewrite Hslice. now rewrite slice_negative.
Qed.

Lemma search_top_k_slice_witness :
  search toy_embed three_chunks (py "x") None 0 = Ok []
  /\ search toy_embed three_chunks (py "x") None (-1)
     = Ok [mkResult chunk_x1 1%float; mkResult chunk_x2 1%float].
Proof.
  destruct (search_top_k_slice toy_embed three_chunks (py "x") None 3
              [mkResult chunk_x1 1%float; mkResult chunk_x2 1%float;
               mkResult chunk_y 0%float]
              ltac:(vm_compute; discriminate)
              ltac:(vm_compute; reflexivity)) as (H0 & Hneg).
  split; [exact H0|]. rewrite (Hneg (-1)) by lia. reflexivity.
Defined.

(** C7 (as amended). When no candidate's score is NaN and [top_k >= 0],
    [search] returns the first [top_k] results of a ranking of the scored
    candidates that is in descending order of score and keeps results of
    equal score in the order they were met; so it returns at most [top_k]
    results, and the whole ranking when [top_k] is at least its length. *)
Theorem search_ranked_stable_truncated embed idx query doc top_k l :
  scored embed idx query doc = Ok l ->
  comparable l ->
  0 <= top_k ->
  exists ranked,
    Permutation l ranked
    /\ descending ranked
    /\ keeps_ties_of l ranked
    /\ search embed idx query doc top_k = Ok (firstn (Z.to_nat top_k) ranked)
    /\ len (firstn (Z.to_nat top_k) ranked) <= top_k
    /\ (len ranked <= top_k -> firstn (Z.to_nat top_k) ranked = ranked).
Proof.
  intros Hl Hc Hk. exists (sort_desc l).
  split; [apply sort_desc_perm|].
  split; [now apply sort_desc_descending|].
  split; [apply sort_desc_ties|].
  split; [|split].
  - rewrite search_as_scored, Hl. cbn [bind]. now rewrite slice_prefix.
  - unfold len. rewrite length_firstn. lia.
  - unfold len. intros Hle. apply firstn_all2. lia.
Qed.

Lemma search_ranked_stable_truncated_witness :
  exists ranked,
    Permutation [mkResult chunk_x1 1%float; mkResult chunk_y 0%float;
                 mkResult chunk_x2 1%float] ranked
    /\ descending ranked
    /\ search toy_embed three_chunks (py "x") None 2
       = Ok (firstn 2 ranked).
Proof.
  destruct (search_ranked_stable_truncated toy_embed three_chunks (py "x")
              None 2
              [mkResult chunk_x1 1%float; mkResult chunk_y 0%float;
               mkResult chunk_x2 1%float])
    as (ranked & Hp & Hd & _ & Hs & _).
  - vm_compute; reflexivity.
  - repeat constructor.
  - lia.
  - exists ranked. auto.
Defined.

(** C7 fails as stated for a negative [top_k]: with three candidates and
    [top_k = -1] the search returns two results, which is not "at most
    [top_k]". *)
Lemma search_negative_top_k_not_a_bound :
  exists res,
    search toy_embed three_chunks (py "x") None (-1) = Ok res
    /\ len res = 2
    /\ ~ len res <= -1.
Proof.
  eexists. split; [vm_compute; reflexivity|]. split; [reflexivity|].
  cbn. lia.
Qed.

(** Why the scores must be comparable: a NaN score is neither less nor
    more than any other, and the sort leaves -1 before 1 around it. *)
Example nan_score_breaks_order :
  exists r1 r2 r3,
    search wide_embed wide_index (py "q") None 5 = Ok [r1; r2; r3]
    /\ score r1 = (-1)%float /\ is_nan (score r2) = true
    /\ score r3 = 1%float.
Proof.
  eexists _, _, _. split; [vm_compute; reflexivity|].
  repeat split; vm_compute; reflexivity.
Qed.

(** ** The index under [add_chunks] and [remove_document] *)

Lemma mem_of_keys {V W : Type} (d1 : dict V) (d2 : dict W) k :
  keys d1 = keys d2 -> mem d1 k = mem d2 k.
Proof.
  intros H. destruct (mem d1 k) eqn:H1, (mem d2 k) eqn:H2; try reflexivity.
  - apply mem_keys in H1. rewrite H in H1. apply mem_keys in H1. congruence.
  - apply mem_keys in H2. rewrite <- H in H2. apply mem_keys in H2.
    congruence.
Qed.

Lemma mem_get {V : Type} (d : dict V) k :
  mem d k = true <-> exists v, get d k = Some v.
Proof.
  unfold mem. destruct (get d k); split; eauto; try discriminate.
  intros [v H]; discriminate.
Qed.

Lemma add_one_chunks idx c e x :
  get (_chunks (add_one idx (c, e))) x
  = if str_eqb (id c) x then Some c else get (_chunks idx) x.
Proof. unfold add_one. cbn [_chunks]. apply get_set. Qed.

Lemma add_one_doc_chunks idx c e d :
  get (_doc_chunks (add_one idx (c, e))) d
  = if str_eqb (doc_id c) d then
      Some (match get (_doc_chunks idx) (doc_id c) with
            | Some l => l
            | None => []
            end ++ [id c])
    else get (_doc_chunks idx) d.
Proof.
  unfold add_one. cbn [_doc_chunks]. unfold mem.
  destruct (get (_doc_chunks idx) (doc_id c)) as [l|] eqn:Hg.
  - rewrite Hg, get_set. reflexivity.
  - rewrite get_set_same, !get_set.
    destruct (str_eqb (doc_id c) d); reflexivity.
Qed.

Section Invariant.
Variable U : Chunk -> Prop.

Lemma index_inv_empty : index_inv U empty_index.
Proof.
  constructor; cbn; [reflexivity|constructor|discriminate].
Qed.

Lemma index_inv_add_one idx c e :
  U c -> index_inv U idx -> index_inv U (add_one idx (c, e)).
Proof.
  intros HU [Hkeys Hnd Hst]. constructor.
  - unfold add_one. cbn [_chunks _embeddings]. rewrite !keys_set, Hkeys.
    now rewrite (mem_of_keys (_chunks idx) (_embeddings idx)).
  - unfold add_one. cbn [_chunks]. now apply nodup_keys_set.
  - intros x c'. rewrite add_one_chunks.
    destruct (str_eqb (id c) x) eqn:Hx.
    + apply str_eqb_eq in Hx. intros H; injection H as <-.
      split; [assumption|]. split; [assumption|].
      rewrite add_one_doc_chunks, str_eqb_refl.
      eexists; split; [reflexivity|]. subst x.
      apply in_or_app; right; left; reflexivity.
    + intros Hg. destruct (Hst x c' Hg) as (Hid & HU' & ids & Hd & Hin).
      split; [assumption|]. split; [assumption|].
      rewrite add_one_doc_chunks.
      destruct (str_eqb (doc_id c) (doc_id c')) eqn:Hdoc.
      * apply str_eqb_eq in Hdoc. rewrite Hdoc, Hd.
        eexists; split; [reflexivity|]. apply in_or_app; auto.
      * eauto.
Qed.

Hypothesis U_single_owner :
  forall c1 c2, U c1 -> U c2 -> id c1 = id c2 -> doc_id c1 = doc_id c2.

Lemma lists_owned_add_one idx c e :
  U c -> index_inv U idx -> lists_owned idx ->
  lists_owned (add_one idx (c, e)).
Proof.
  intros HU [Hkeys Hnd Hst] Hown d ids x.
  rewrite add_one_doc_chunks, add_one_chunks.
  destruct (str_eqb (doc_id c) d) eqn:Hd.
  - apply str_eqb_eq in Hd. intros H; injection H as <-. intros Hin.
    destruct (str_eqb (id c) x) eqn:Hx; [eauto|].
    apply in_app_or in Hin as [Hin|[Hin|[]]].
    + destruct (get (_doc_chunks idx) (doc_id c)) as [l|] eqn:Hg;
        [|destruct Hin].
      rewrite Hd in Hg. exact (Hown d l x Hg Hin).
    + apply str_eqb_neq in Hx. congruence.
  - apply str_eqb_neq in Hd. intros Hg Hin.
    destruct (Hown d ids x Hg Hin) as (c0 & Hc0 & Hdoc).
    destruct (str_eqb (id c) x) eqn:Hx; [|eauto].
    apply str_eqb_eq in Hx. exfalso. apply Hd.
    destruct (Hst x c0 Hc0) as (Hid0 & HU0 & _).
    rewrite <- Hdoc. apply U_single_owner; congruence.
Qed.

End Invariant.

(** Popping a list of keys is one filter. *)
Lemma pop_all_filter {V : Type} (ids : list str) (d : dict V) :
  fold_left pop ids d
  = filter (fun kv => negb (existsb (str_eqb (fst kv)) ids)) d.
Proof.
  revert d. induction ids as [|x ids IH]; intros d; cbn.
  - induction d as [|kv d IHd]; cbn; [reflexivity|]. now rewrite <- IHd.
  - rewrite IH. unfold pop. induction d as [|kv d IHd]; cbn; [reflexivity|].
    destruct (str_eqb (fst kv) x); cbn; rewrite IHd; reflexivity.
Qed.

Lemma pop_both {V W : Type} (ids : list str) (cs : dict V) (es : dict W) :
  fold_left (fun ce chunk_id => (pop (fst ce) chunk_id, pop (snd ce) chunk_id))
            ids (cs, es)
  = (fold_left pop ids cs, fold_left pop ids es).
Proof.
  revert cs es. induction ids as [|x ids IH]; intros cs es; cbn;
    [reflexivity|apply IH].
Qed.

Lemma existsb_str_in x ids : existsb (str_eqb x) ids = true <-> In x ids.
Proof.
  rewrite existsb_exists. split.
  - intros (y & Hy & He). apply str_eqb_eq in He. now subst.
  - intros H. exists x. split; [assumption|apply str_eqb_refl].
Qed.

Lemma get_filter_keys {V : Type} (f : str -> bool) (d : dict V) k :
  get (filter (fun kv => f (fst kv)) d) k = if f k then get d k else None.
Proof.
  induction d as [|[k0 v0] d IH]; cbn.
  - destruct (f k); reflexivity.
  - destruct (f k0) eqn:Hf; cbn.
    + destruct (str_eqb k0 k) eqn:Hk; [|exact IH].
      apply str_eqb_eq in Hk as <-. now rewrite Hf.
    + rewrite IH. destruct (str_eqb k0 k) eqn:Hk; [|reflexivity].
      apply str_eqb_eq in Hk as <-. now rewrite Hf.
Qed.

Lemma keys_filter {V : Type} (f : str -> bool) (d : dict V) :
  keys (filter (fun kv => f (fst kv)) d) = filter f (keys d).
Proof.
  unfold keys. induction d as [|[k0 v0] d IH]; cbn; [reflexivity|].
  destruct (f k0); cbn; now rewrite IH.
Qed.

(** The three mappings after [remove_document] of a known document. *)
Lemma remove_document_known idx d ids :
  get (_doc_chunks idx) d = Some ids ->
  remove_document idx d
  = mkIndex
      (filter (fun kv => negb (existsb (str_eqb (fst kv)) ids)) (_chunks idx))
      (filter (fun kv => negb (existsb (str_eqb (fst kv)) ids))
              (_embeddings idx))
      (pop (_doc_chunks idx) d).
Proof.
  intros H. unfold remove_document. rewrite H, pop_both. cbn [fst snd].
  now rewrite !pop_all_filter.
Qed.

Lemma remove_document_unknown idx d :
  get (_doc_chunks idx) d = None -> remove_document idx d = idx.
Proof. intros H. unfold remove_document. now rewrite H. Qed.

Lemma index_inv_remove U idx d :
  index_inv U idx -> index_inv U (remove_document idx d).
Proof.
  intros Hinv. destruct (get (_doc_chunks idx) d) as [ids|] eqn:Hg;
    [|now rewrite remove_document_unknown].
  rewrite (remove_document_known _ _ _ Hg).
  destruct Hinv as [Hkeys Hnd Hst].
  constructor; cbn [_chunks _embeddings _doc_chunks].
  - rewrite !(keys_filter (fun k => negb (existsb (str_eqb k) ids))).
    now rewrite Hkeys.
  - rewrite (keys_filter (fun k => negb (existsb (str_eqb k) ids))).
    now apply NoDup_filter.
  - intros x c.
    rewrite (get_filter_keys (fun k => negb (existsb (str_eqb k) ids))).
    destruct (existsb (str_eqb x) ids) eqn:Hx; [discriminate|]. cbn.
    intros Hc. destruct (Hst x c Hc) as (Hid & HU & l & Hl & Hin).
    split; [assumption|]. split; [assumption|].
    exists l. split; [|assumption]. rewrite get_pop.
    destruct (str_eqb d (doc_id c)) eqn:Hd; [|assumption].
    apply str_eqb_eq in Hd. subst d. rewrite Hg in Hl. injection Hl as <-.
    apply existsb_str_in in Hin. congruence.
Qed.

Lemma lists_owned_remove idx d :
  lists_owned idx -> lists_owned (remove_document idx d).
Proof.
  intros Hown. destruct (get (_doc_chunks idx) d) as [ids|] eqn:Hg;
    [|now rewrite remove_document_unknown].
  rewrite (remove_document_known _ _ _ Hg).
  intros d' ids' x. cbn [_chunks _embeddings _doc_chunks]. rewrite get_pop.
  destruct (str_eqb d d') eqn:Hd; [discriminate|].
  apply str_eqb_neq in Hd. intros Hg' Hin.
  destruct (Hown d' ids' x Hg' Hin) as (c & Hc & Hdoc).
  exists c. split; [|assumption].
  rewrite (get_filter_keys (fun k => negb (existsb (str_eqb k) ids))).
  destruct (existsb (str_eqb x) ids) eqn:Hx; [|exact Hc].
  apply existsb_str_in in Hx.
  destruct (Hown d ids x Hg Hx) as (c1 & Hc1 & Hdoc1). congruence.
Qed.

Lemma lists_owned_empty : lists_owned empty_index.
Proof. intros d ids x H. discriminate. Qed.

(** Both invariants along any sequence of operations. *)
Lemma run_op_invariant (U : Chunk -> Prop) o idx :
  (forall c, In c (added [o]) -> U c) ->
  index_inv U idx ->
  index_inv U (run_op idx o)
  /\ ((forall c1 c2, U c1 -> U c2 -> id c1 = id c2 -> doc_id c1 = doc_id c2) ->
      lists_owned idx -> lists_owned (run_op idx o)).
Proof.
  intros HU Hinv. destruct o as [embed chunks|doc]; cbn [run_op].
  - unfold add_chunks.
    destruct (negb (truthy chunks)); [tauto|]. unfold bind.
    destruct (embed (map text chunks) search_document) as [embs|e];
      [|tauto].
    assert (Hall : forall ce, In ce (combine chunks embs) -> U (fst ce)).
    { intros [c e] Hin. apply in_combine_l in Hin. apply HU. cbn.
      rewrite app_nil_r. exact Hin. }
    clear HU. revert idx Hinv Hall.
    induction (combine chunks embs) as [|[c e] l IH]; intros idx Hinv Hall;
      cbn [fold_left]; [tauto|].
    assert (HUc : U c) by (apply (Hall (c, e)); left; reflexivity).
    destruct (IH (add_one idx (c, e))) as [H1 H2].
    + now apply index_inv_add_one.
    + intros ce Hin. apply Hall. now right.
    + split; [exact H1|]. intros Huniq Hown. apply H2; [assumption|].
      now apply (lists_owned_add_one U).
  - split; [now apply index_inv_remove|].
    intros _. apply lists_owned_remove.
Qed.

Lemma added_app ops1 ops2 : added (ops1 ++ ops2) = added ops1 ++ added ops2.
Proof. unfold added. apply flat_map_app. Qed.

Lemma run_invariant (U : Chunk -> Prop) ops :
  (forall c, In c (added ops) -> U c) ->
  index_inv U (run ops)
  /\ ((forall c1 c2, U c1 -> U c2 -> id c1 = id c2 -> doc_id c1 = doc_id c2) ->
      lists_owned (run ops)).
Proof.
  unfold run. induction ops as [|o ops IH] using rev_ind; intros HU.
  - cbn. split; [apply index_inv_empty|]. intros _. apply lists_owned_empty.
  - rewrite fold_left_app. cbn [fold_left].
    destruct IH as [H1 H2].
    { intros c Hc. apply HU. rewrite added_app. apply in_or_app; auto. }
    destruct (run_op_invariant U o (fold_left run_op ops empty_index))
      as [H3 H4]; [|assumption|].
    { intros c Hc. apply HU. rewrite added_app. apply in_or_app; auto. }
    split; [assumption|]. auto.
Qed.

(** C2 (as amended). After any sequence of [add_chunks] and
    [remove_document] calls on a new index: the chunk and embedding
    mappings hold the same chunk ids (in the same order), and every chunk
    id they hold is in the chunk-id list of its chunk's document. A chunk
    id in a document's list is in the other two mappings as long as no
    chunk id was added under two documents. (One call is one step of [run]:
    the state between two calls is the state after a whole call.) *)
Theorem index_mappings_consistent ops :
  keys (_chunks (run ops)) = keys (_embeddings (run ops))
  /\ (forall x c,
         get (_chunks (run ops)) x = Some c ->
         exists ids,
           get (_doc_chunks (run ops)) (doc_id c) = Some ids /\ In x ids)
  /\ (single_owner ops ->
      forall d ids x,
        get (_doc_chunks (run ops)) d = Some ids -> In x ids ->
        mem (_chunks (run ops)) x = true
        /\ mem (_embeddings (run ops)) x = true).
Proof.
  destruct (run_invariant (fun c => In c (added ops)) ops (fun c H => H))
    as [[Hkeys Hnd Hst] Hown].
  split; [exact Hkeys|]. split.
  - intros x c Hc. destruct (Hst x c Hc) as (_ & _ & H). exact H.
  - intros Hso d ids x Hd Hin.
    destruct (Hown Hso d ids x Hd Hin) as (c & Hc & _).
    assert (Hm : mem (_chunks (run ops)) x = true)
      by (apply mem_get; eauto).
    split; [exact Hm|].
    now rewrite <- (mem_of_keys (_chunks (run ops)) (_embeddings (run ops))).
Qed.

(** C2 fails as stated. The chunk of the text ["a"] chunked under ["d_p0"]
    and the chunk of the page ["a"] of document ["d"] have the same id;
    after both are added and ["d_p0"] is removed, the list of ["d"] still
    holds that id, and neither of the other two mappings does. *)
Lemma stale_id_after_remove :
  chunk_text 1 (py "a") (py "d_p0") 500 50 newline = Some (Ok [chunk_of_text])
  /\ chunk_by_pages 1 [py "a"] (py "d") 500 50 = Some (Ok [chunk_of_page])
  /\ get (_doc_chunks (run shared_id_ops)) (py "d") = Some [id chunk_of_page]
  /\ mem (_chunks (run shared_id_ops)) (id chunk_of_page) = false
  /\ mem (_embeddings (run shared_id_ops)) (id chunk_of_page) = false.
Proof.
  split; [vm_compute; reflexivity|]. split; [vm_compute; reflexivity|].
  split; [vm_compute; reflexivity|]. split; vm_compute; reflexivity.
Qed.

Lemma index_mappings_consistent_witness :
  mem (_chunks three_chunks) (py "c3") = true
  /\ mem (_embeddings three_chunks) (py "c3") = true.
Proof.
  refine (proj2 (proj2 (index_mappings_consistent _)) _
                (py "doc_b") [py "c3"] (py "c3") _ _).
  - intros c1 c2 H1 H2. cbn in H1, H2.
    repeat (destruct H1 as [<-|H1]); try destruct H1;
      repeat (destruct H2 as [<-|H2]); try destruct H2;
      try reflexivity; vm_compute; discriminate.
  - vm_compute; reflexivity.
  - left; reflexivity.
Defined.

(** ** remove_document *)

Lemma get_in {V : Type} (d : dict V) k v : get d k = Some v -> In (k, v) d.
Proof.
  induction d as [|[k0 v0] d IH]; cbn; [discriminate|].
  destruct (str_eqb k0 k) eqn:Hk; [|auto].
  apply str_eqb_eq in Hk as ->. intros H; injection H as ->. now left.
Qed.

Lemma filter_split_length {A : Type} (f : A -> bool) (l : list A) :
  (length (filter (fun x => negb (f x)) l)
   = length l - length (filter f l))%nat.
Proof.
  pose proof (filter_length_le f l) as Hle.
  enough (length (filter (fun x => negb (f x)) l) + length (filter f l)
          = length l)%nat by lia.
  clear Hle. induction l as [|x l IH]; [reflexivity|].
  cbn [filter]. destruct (f x); cbn [negb length]; lia.
Qed.

Lemma length_filter_keys {V : Type} (f : str -> bool) (d : dict V) :
  length (filter (fun kv => f (fst kv)) d) = length (filter f (keys d)).
Proof. now rewrite <- keys_filter; unfold keys; rewrite length_map. Qed.

(** Distinct listed ids that are all indexed: as many entries as ids. *)
Lemma listed_entries_count {V : Type} (d : dict V) ids :
  NoDup (keys d) -> NoDup ids ->
  (forall x, In x ids -> mem d x = true) ->
  length (filter (fun kv => existsb (str_eqb (fst kv)) ids) d) = length ids.
Proof.
  intros Hnd Hids Hall.
  rewrite (length_filter_keys (fun k => existsb (str_eqb k) ids)).
  apply Permutation_length, NoDup_Permutation;
    [now apply NoDup_filter | assumption |].
  intros x. rewrite filter_In, existsb_str_in, <- mem_keys.
  split; [tauto|]. intros H. split; auto.
Qed.

(** What [remove_document] does on any index. For an unknown id it
    changes nothing. For a known id it empties both chunk-id mappings of
    every id in the document's list, leaves the other ids as they were,
    and drops the document's entry, so that [list_documents] no longer
    lists it; [total_chunks] goes down by the number of indexed chunks
    whose id is in that list. That number is the chunk count
    [list_documents] reported for the document only when the ids of its
    list are distinct and all indexed. *)
Theorem remove_document_effect idx d :
  (get (_doc_chunks idx) d = None -> remove_document idx d = idx)
  /\ (forall ids,
         get (_doc_chunks idx) d = Some ids ->
         In (mkEntry d (len ids)) (list_documents idx)
         /\ (forall x, In x ids ->
                       mem (_chunks (remove_document idx d)) x = false
                       /\ mem (_embeddings (remove_document idx d)) x = false)
         /\ (forall x, ~ In x ids ->
                       get (_chunks (remove_document idx d)) x
                       = get (_chunks idx) x
                       /\ get (_embeddings (remove_document idx d)) x
                          = get (_embeddings idx) x)
         /\ mem (_doc_chunks (remove_document idx d)) d = false
         /\ (forall e, In e (list_documents (remove_document idx d)) ->
                       entry_doc_id e <> d)
         /\ total_chunks (remove_document idx d)
            = total_chunks idx
              - len (filter (fun kv => existsb (str_eqb (fst kv)) ids)
                            (_chunks idx))
         /\ (NoDup (keys (_chunks idx)) -> NoDup ids ->
             (forall x, In x ids -> mem (_chunks idx) x = true) ->
             total_chunks (remove_document idx d)
             = total_chunks idx - len ids)).
Proof.
  split; [apply remove_document_unknown|].
  intros ids Hg. rewrite (remove_document_known _ _ _ Hg).
  cbn [_chunks _embeddings _doc_chunks].
  assert (Htotal :
            total_chunks
              (mkIndex
                 (filter (fun kv => negb (existsb (str_eqb (fst kv)) ids))
                         (_chunks idx))
                 (filter (fun kv => negb (existsb (str_eqb (fst kv)) ids))
                         (_embeddings idx))
                 (pop (_doc_chunks idx) d))
            = total_chunks idx
              - len (filter (fun kv => existsb (str_eqb (fst kv)) ids)
                            (_chunks idx))).
  { unfold total_chunks, len. cbn [_chunks].
    rewrite (filter_split_length
               (fun kv : str * Chunk => existsb (str_eqb (fst kv)) ids)).
    pose proof (filter_length_le
                  (fun kv : str * Chunk => existsb (str_eqb (fst kv)) ids)
                  (_chunks idx)).
    lia. }
  split; [|split; [|split; [|split; [|split; [|split]]]]].
  - unfold list_documents. apply get_in in Hg.
    apply (in_map (fun kv => mkEntry (fst kv) (len (snd kv)))) in Hg.
    exact Hg.
  - intros x Hx. apply existsb_str_in in Hx. unfold mem.
    rewrite !(get_filter_keys (fun k => negb (existsb (str_eqb k) ids))).
    rewrite Hx. auto.
  - intros x Hx.
    rewrite !(get_filter_keys (fun k => negb (existsb (str_eqb k) ids))).
    destruct (existsb (str_eqb x) ids) eqn:E; [|auto].
    apply existsb_str_in in E. contradiction.
  - unfold mem. rewrite get_pop, str_eqb_refl. reflexivity.
  - intros e He. unfold list_documents in He.
    apply in_map_iff in He as ([k l] & <- & Hin). cbn.
    unfold pop in Hin. apply filter_In in Hin as [_ Hk]. cbn in Hk.
    apply negb_true_iff, str_eqb_neq in Hk. exact Hk.
  - exact Htotal.
  - intros Hnd Hids Hall. rewrite Htotal. unfold len.
    now rewrite listed_entries_count.
Qed.

Lemma remove_document_effect_witness :
  total_chunks (remove_document three_chunks (py "doc_a"))
  = total_chunks three_chunks - 2.
Proof.
  refine (proj2 (proj2 (proj2 (proj2 (proj2 (proj2
            (proj2 (remove_document_effect three_chunks (py "doc_a"))
                   [py "c1"; py "c2"] _)))))) _ _ _).
  - vm_compute; reflexivity.
  - vm_compute. repeat constructor; cbn; intuition discriminate.
  - repeat constructor; cbn; intuition discriminate.
  - intros x [<-|[<-|[]]]; vm_compute; reflexivity.
Defined.

(** C3 fails on the code. [add_chunks] appends the id of every chunk it
    is given to the list of the chunk's document, also an id that the list
    holds already, while the two chunk mappings are keyed by id. After the
    two chunks of [doc_a] are added a second time (as when a file is
    chunked and indexed again), [list_documents] reports 4 chunks for
    [doc_a], the index holds 2, and removing [doc_a] takes [total_chunks]
    down by 2, not by the 4 that were reported. *)
Lemma remove_after_adding_twice :
  list_documents added_twice = [mkEntry (py "doc_a") 4]
  /\ total_chunks added_twice = 2
  /\ total_chunks (remove_document added_twice (py "doc_a")) = 0
  /\ total_chunks (remove_document added_twice (py "doc_a"))
     <> total_chunks added_twice - 4.
Proof.
  split; [vm_compute; reflexivity|].
  split; [vm_compute; reflexivity|].
  split; [vm_compute; reflexivity|].
  vm_compute; discriminate.
Qed.

(** ** Scoping a search to a document *)

Lemma slice_In {A : Type} (l : list A) lo hi x : In x (slice l lo hi) -> In x l.
Proof.
  unfold slice. intros H.
  match type of H with
  | In _ (firstn ?n (skipn ?m _)) =>
      rewrite <- (firstn_skipn m l); apply in_or_app; right;
      rewrite <- (firstn_skipn n (skipn m l)); apply in_or_app; left;
      exact H
  end.
Qed.

Lemma score_all_sound idx q ids :
  forall acc res,
    score_all idx q ids acc = Ok res ->
    forall r, In r res ->
      In r acc
      \/ exists x, In x ids /\ get (_chunks idx) x = Some (chunk r).
Proof.
  induction ids as [|x ids IH]; intros acc res Hrun r Hin; cbn in Hrun.
  - injection Hrun as <-. auto.
  - destruct (get (_embeddings idx) x) as [e|].
    + unfold bind in Hrun.
      destruct (_cosine_similarity q e) as [sc|]; [|discriminate].
      destruct (get (_chunks idx) x) as [c|] eqn:Hc; [|discriminate].
      destruct (IH _ _ Hrun r Hin) as [Hacc|(y & Hy & Hget)].
      * apply in_app_or in Hacc as [?|[<-|[]]]; [auto|].
        right. exists x. cbn. auto.
      * right. exists y. cbn. auto.
    + destruct (IH _ _ Hrun r Hin) as [?|(y & Hy & Hget)]; [auto|].
      right. exists y. cbn. auto.
Qed.

(** The chunks a search returns are those stored under its candidates. *)
Lemma search_results_from_candidates embed idx query doc top_k res :
  search embed idx query doc top_k = Ok res ->
  forall r, In r res ->
    exists x, In x (candidates idx doc)
              /\ get (_chunks idx) x = Some (chunk r).
Proof.
  rewrite search_as_scored. unfold scored, bind.
  destruct (embed [query] search_query) as [[|qe embs]|e]; try discriminate.
  destruct (score_all idx qe (candidates idx doc) []) as [l|] eqn:Hl;
    [|discriminate].
  intros H; injection H as <-. intros r Hin.
  apply slice_In in Hin.
  apply (Permutation_in _ (Permutation_sym (sort_desc_perm l))) in Hin.
  destruct (score_all_sound _ _ _ _ _ Hl r Hin) as [[]|H]. exact H.
Qed.

(** C8 (as amended). A search scoped to a known document id that is not
    the empty string returns only chunks stored under the ids of that
    document's list; on an index built by calls in which no chunk id is
    added under two documents, these are chunks of that document. A search
    scoped to an unknown id, or to the empty string, is the search over the
    full index: it raises only if that one does. *)
Theorem search_scoping embed idx query d top_k :
  (d <> [] ->
   forall ids res,
     get (_doc_chunks idx) d = Some ids ->
     search embed idx query (Some d) top_k = Ok res ->
     forall r, In r res ->
       exists x, In x ids /\ get (_chunks idx) x = Some (chunk r))
  /\ (d <> [] ->
      forall ops res,
        single_owner ops -> idx = run ops ->
        mem (_doc_chunks idx) d = true ->
        search embed idx query (Some d) top_k = Ok res ->
        forall r, In r res -> doc_id (chunk r) = d)
  /\ (d = [] \/ mem (_doc_chunks idx) d = false ->
      search embed idx query (Some d) top_k
      = search embed idx query None top_k).
Proof.
  assert (Hcand : d <> [] -> forall ids,
             get (_doc_chunks idx) d = Some ids ->
             candidates idx (Some d) = ids).
  { intros Hd ids Hg. unfold candidates, mem. rewrite Hg.
    destruct d; [congruence|reflexivity]. }
  split; [|split].
  - intros Hd ids res Hg Hs r Hin.
    destruct (search_results_from_candidates _ _ _ _ _ _ Hs r Hin)
      as (x & Hx & Hc).
    rewrite (Hcand Hd ids Hg) in Hx. eauto.
  - intros Hd ops res Hso -> Hm Hs r Hin.
    apply mem_get in Hm as [ids Hg].
    destruct (search_results_from_candidates _ _ _ _ _ _ Hs r Hin)
      as (x & Hx & Hc).
    rewrite (Hcand Hd ids Hg) in Hx.
    destruct (run_invariant (fun c => In c (added ops)) ops (fun c H => H))
      as [_ Hown].
    destruct (Hown Hso d ids x Hg Hx) as (c & Hc' & Hdoc). congruence.
  - intros Hfall. unfold search, candidates.
    destruct Hfall as [->| ->]; [reflexivity|].
    now rewrite andb_false_r.
Qed.

Lemma search_scoping_witness :
  (forall res,
      search toy_embed three_chunks (py "x") (Some (py "doc_a")) 5 = Ok res ->
      forall r, In r res -> doc_id (chunk r) = py "doc_a")
  /\ search toy_embed three_chunks (py "x") (Some (py "nowhere")) 5
     = search toy_embed three_chunks (py "x") None 5.
Proof.
  split.
  - intros res.
    refine (proj1 (proj2 (search_scoping toy_embed three_chunks (py "x")
                            (py "doc_a") 5)) _ _ res _ eq_refl _).
    + discriminate.
    + intros c1 c2 H1 H2. cbn in H1, H2.
      repeat (destruct H1 as [<-|H1]); try destruct H1;
        repeat (destruct H2 as [<-|H2]); try destruct H2;
        try reflexivity; vm_compute; discriminate.
    + vm_compute; reflexivity.
  - refine (proj2 (proj2 (search_scoping toy_embed three_chunks (py "x")
                            (py "nowhere") 5)) _).
    right. vm_compute; reflexivity.
Defined.

(** C8 fails as stated. A document whose id is the empty string is known
    to the index, yet a search scoped to it ranks the full index and
    returns a chunk of [doc_b]. And after the first two operations of
    [shared_id_ops] the list of ["d_p0"] holds an id whose chunk now is
    the one of document ["d"]: the search scoped to ["d_p0"] returns it. *)
Lemma scoped_search_returns_other_document :
  mem (_doc_chunks with_nameless_doc) [] = true
  /\ (exists r rest,
         search toy_embed with_nameless_doc (py "x") (Some []) 5
         = Ok (r :: rest)
         /\ doc_id (chunk r) = py "doc_b")
  /\ mem (_doc_chunks (run (firstn 2 shared_id_ops))) (py "d_p0") = true
  /\ (exists r,
         search toy_embed (run (firstn 2 shared_id_ops)) (py "x")
                (Some (py "d_p0")) 5 = Ok [r]
         /\ doc_id (chunk r) = py "d").
Proof.
  split; [vm_compute; reflexivity|]. split.
  - eexists _, _. split; [vm_compute; reflexivity|reflexivity].
  - split; [vm_compute; reflexivity|].
    eexists. split; [vm_compute; reflexivity|reflexivity].
Qed.

End SearchFacts.

(* ===================================================================== *)
(** * Cosine similarity *)
(* ===================================================================== *)

Section CosineFacts.
Import FloatOrder Search SearchSpec.

Lemma py_sum_not_negative (l : list float) :
  Forall (fun x => sf_not_negative (Prim2SF x) = true) l ->
  forall acc,
    sf_not_negative (Prim2SF acc) = true ->
    sf_not_negative (Prim2SF (fold_left PrimFloat.add l acc)) = true.
Proof.
  induction 1 as [|x l Hx _ IH]; intros acc Hacc; cbn [fold_left];
    [assumption|].
  apply IH. rewrite add_spec. now apply SFadd_not_negative.
Qed.

(** A sum of squares is never below zero. *)
Lemma sum_squares_not_negative a : (sum_squares a <? 0)%float = false.
Proof.
  rewrite ltb_zero_spec. apply negb_false_iff.
  unfold sum_squares, py_sum. apply py_sum_not_negative; [|reflexivity].
  apply Forall_map, Forall_forall. intros x _.
  rewrite mul_spec. apply SFmul_self_not_negative.
Qed.

(** So [math.sqrt] does not raise on it. *)
Lemma math_sqrt_sum_squares a :
  math_sqrt (sum_squares a) = Ok (PrimFloat.sqrt (sum_squares a)).
Proof. unfold math_sqrt. now rewrite sum_squares_not_negative. Qed.

Lemma eqb_zero_spec x :
  (x =? 0)%float = true -> exists s, Prim2SF x = S754_zero s.
Proof.
  rewrite eqb_spec. change (Prim2SF 0) with (S754_zero false).
  destruct (Prim2SF x) as [s|s| |s m e]; try destruct s; cbn;
    try discriminate; eauto.
Qed.

(** The squares of zeros sum to exactly 0.0. *)
Lemma sum_squares_all_zero a : all_zero a = true -> sum_squares a = 0%float.
Proof.
  unfold all_zero, sum_squares, py_sum.
  generalize (eq_refl : Prim2SF 0 = S754_zero false).
  generalize 0%float at 1 3 as acc.
  induction a as [|x a IH]; intros acc Hacc Hall; cbn in *.
  - apply Prim2SF_inj. exact Hacc.
  - apply andb_true_iff in Hall as [Hx Hall].
    apply IH; [|assumption].
    apply eqb_zero_spec in Hx as [s Hx].
    rewrite add_spec, mul_spec, Hacc, Hx. destruct s; reflexivity.
Qed.

(** C9 (as amended). The function is total: for every pair of float
    vectors it returns a value and raises nothing, the sums of squares
    being never negative and the product of two magnitudes that are not
    zero being not zero. If either computed magnitude is zero, and in
    particular if either vector has only zero components, the result is
    exactly 0.0; otherwise it is the quotient, in binary64 arithmetic, of
    the dot product by the product of the two magnitudes. On the vectors of
    the test-suite this quotient is exactly 1.0 for a unit vector with
    itself, 0.0 for orthogonal unit vectors and -1.0 for a unit vector with
    its opposite. *)
Theorem cosine_similarity_cases a b :
  (exists s, _cosine_similarity a b = Ok s)
  /\ ((PrimFloat.sqrt (sum_squares a) =? 0)%float
      || (PrimFloat.sqrt (sum_squares b) =? 0)%float = true ->
      _cosine_similarity a b = Ok 0%float)
  /\ ((PrimFloat.sqrt (sum_squares a) =? 0)%float
      || (PrimFloat.sqrt (sum_squares b) =? 0)%float = false ->
      _cosine_similarity a b
      = Ok (dot_product a b
            / (PrimFloat.sqrt (sum_squares a)
               * PrimFloat.sqrt (sum_squares b)))%float)
  /\ (all_zero a = true \/ all_zero b = true ->
      _cosine_similarity a b = Ok 0%float)
  /\ _cosine_similarity [1; 0; 0]%float [1; 0; 0]%float = Ok 1%float
  /\ _cosine_similarity [1; 0; 0]%float [0; 1; 0]%float = Ok 0%float
  /\ _cosine_similarity [1; 0]%float [-1; 0]%float = Ok (-1)%float.
Proof.
  assert (Hcases : forall z : bool,
             (PrimFloat.sqrt (sum_squares a) =? 0)%float
             || (PrimFloat.sqrt (sum_squares b) =? 0)%float = z ->
             _cosine_similarity a b
             = if z then Ok 0%float
               else Ok (dot_product a b
                        / (PrimFloat.sqrt (sum_squares a)
                           * PrimFloat.sqrt (sum_squares b)))%float).
  { intros z Hz. unfold _cosine_similarity.
    rewrite !math_sqrt_sum_squares. cbn [bind]. rewrite Hz.
    destruct z; [reflexivity|].
    apply orb_false_iff in Hz as [Ha Hb].
    unfold truediv. now rewrite sqrt_product_nonzero. }
  split.
  { rewrite (Hcases _ eq_refl).
    destruct ((PrimFloat.sqrt (sum_squares a) =? 0)%float
              || (PrimFloat.sqrt (sum_squares b) =? 0)%float); eauto. }
  split; [exact (Hcases true)|].
  split; [exact (Hcases false)|].
  split; [|repeat split; vm_compute; reflexivity].
  intros Hzero. apply (Hcases true).
  destruct Hzero as [H|H]; apply sum_squares_all_zero in H; rewrite H.
  - reflexivity.
  - apply orb_true_r.
Qed.

Lemma cosine_similarity_cases_witness :
  _cosine_similarity [0; 0; 0]%float [1; 2; 3]%float = Ok 0%float.
Proof.
  refine (proj1 (proj2 (proj2 (proj2
            (cosine_similarity_cases [0; 0; 0]%float [1; 2; 3]%float))))
            _).
  left. reflexivity.
Defined.

(** C9 fails as stated in binary64 arithmetic. The vector (1, 1) against
    itself scores 0.9999999999999998, since [sqrt 2 * sqrt 2] rounds to
    2.0000000000000004; the non-zero vector (2^600) against itself scores
    NaN, its square overflowing to infinity; and the non-zero vector
    (2^-600) against itself scores 0, its square underflowing to zero. *)
Lemma self_similarity_not_one :
  _cosine_similarity [1; 1]%float [1; 1]%float
  = Ok 0x1.ffffffffffffep-1%float
  /\ (exists s,
         _cosine_similarity [0x1p600]%float [0x1p600]%float = Ok s
         /\ is_nan s = true)
  /\ _cosine_similarity [0x1p-600]%float [0x1p-600]%float = Ok 0%float.
Proof.
  split; [vm_compute; reflexivity|]. split.
  - eexists. split; vm_compute; reflexivity.
  - vm_compute; reflexivity.
Qed.

(** At the smallest magnitudes that are not zero the divisor is not zero
    either: 2^-537 squared is the least positive float. *)
Example smallest_magnitudes :
  _cosine_similarity [0x1p-537]%float [0x1p-537]%float = Ok 1%float.
Proof. vm_compute; reflexivity. Qed.

End CosineFacts.

(* ===================================================================== *)
(** * Checks of the hash model *)
(* ===================================================================== *)

Section HashChecks.

Example sha256_abc :
  Sha256.hexdigest (utf8 (py "abc"))
  = py "ba7816bf8f01cfea414140de5dae2223b00361a396177a9cb410ff61f20015ad".
Proof. vm_compute. reflexivity. Qed.

Example sha256_empty :
  Sha256.hexdigest []
  = py "e3b0c44298fc1c149afbf4c8996fb92427ae41e4649b934ca495991b7852b855".
Proof. vm_compute. reflexivity. Qed.

(** A message of two blocks: one hundred times ["a"]. *)
Example sha256_two_blocks :
  Sha256.hexdigest (utf8 (repeat 97%N 100))
  = py "2816597888e4a0d3a36b82b83316ab32680eb8f00f8cd3b904d681246d285a0e".
Proof. vm_compute. reflexivity. Qed.

(** The id of the second chunk of the test-suite's first text. *)
Example chunk_id_test_1_25 :
  Chunker.chunk_id (py "test") 1 25 = py "bbd625b20c81".
Proof. vm_compute. reflexivity. Qed.

End HashChecks.

(* ===================================================================== *)
(** * More on the chunker: what every chunk looks like *)
(* ===================================================================== *)

Section ChunkShapeFacts.
Import Chunker ChunkerSpec ChunkShape Inputs.

(** A list is returned for blank text, or by the loop under valid
    parameters. *)
Lemma chunk_text_ok_cases fuel txt doc cs ov sep l :
  chunk_text fuel txt doc cs ov sep = Some (Ok l) ->
  strip txt = [] /\ l = []
  \/ strip txt <> [] /\ 0 < cs /\ 0 <= ov < cs
     /\ while_loop fuel txt doc cs ov sep (mkState [] 0 0) = Some (Ok l).
Proof.
  unfold chunk_text.
  destruct (strip txt) as [|c s] eqn:Hs; cbn [truthy negb].
  - intros H; injection H as <-. auto.
  - destruct (Z.leb_spec cs 0) as [?|H1]; [discriminate|].
    destruct (Z.ltb_spec ov 0) as [?|H2]; [discriminate|].
    destruct (Z.leb_spec cs ov) as [?|H3]; [discriminate|].
    intros H. right. repeat split; try lia; congruence.
Qed.

(** ** Trimming *)

Lemma lstrip_suffix s : exists k, lstrip s = skipn k s.
Proof.
  induction s as [|c s [k IH]]; [exists 0%nat; reflexivity|].
  cbn [lstrip]. destruct (is_space c).
  - exists (S k). exact IH.
  - exists 0%nat. reflexivity.
Qed.

Lemma lstrip_fixed c s : is_space c = false -> lstrip (c :: s) = c :: s.
Proof. intros H. cbn. now rewrite H. Qed.

Lemma length_lstrip s : (length (lstrip s) <= length s)%nat.
Proof.
  destruct (lstrip_suffix s) as [k ->]. rewrite length_skipn. lia.
Qed.

Lemma length_strip s : (length (strip s) <= length s)%nat.
Proof.
  unfold strip, rstrip. rewrite length_rev.
  etransitivity; [apply length_lstrip|]. rewrite length_rev.
  apply length_lstrip.
Qed.

(** The first character of a trimmed text is not whitespace. *)
Lemma strip_head s c r : strip s = c :: r -> is_space c = false.
Proof.
  unfold strip, rstrip. intros H.
  destruct (lstrip s) as [|c0 ls] eqn:Hls; [discriminate|].
  pose proof (lstrip_head _ _ _ Hls) as Hc0.
  destruct (lstrip_suffix (rev (c0 :: ls))) as [k Hk]. rewrite Hk in H.
  rewrite skipn_rev, rev_involutive in H.
  destruct (length (c0 :: ls) - k)%nat as [|n]; [discriminate|].
  cbn [firstn] in H. injection H as <- _. exact Hc0.
Qed.

(** Nor is the last. *)
Lemma strip_last s c r : rev (strip s) = c :: r -> is_space c = false.
Proof.
  unfold strip, rstrip. rewrite rev_involutive. apply lstrip_head.
Qed.

Lemma strip_idempotent s : strip (strip s) = strip s.
Proof.
  destruct (strip s) as [|c r] eqn:Hs; [reflexivity|].
  pose proof (strip_head _ _ _ Hs) as Hc.
  unfold strip at 1, rstrip. rewrite (lstrip_fixed _ _ Hc).
  destruct (rev (c :: r)) as [|c' r'] eqn:Hr.
  - apply (f_equal (@rev N)) in Hr. rewrite rev_involutive in Hr.
    discriminate.
  - assert (Hc' : is_space c' = false).
    { apply (strip_last s c' r'). now rewrite Hs. }
    rewrite (lstrip_fixed _ _ Hc'), <- Hr. apply rev_involutive.
Qed.

Lemma count_words_nonneg b s : 0 <= count_words b s.
Proof.
  revert b. induction s as [|c s IH]; intros b; cbn [count_words]; [lia|].
  destruct (is_space c); [apply IH|].
  specialize (IH true). destruct b; lia.
Qed.

(** A text that is not empty after trimming has a word. *)
Lemma word_count_strip s : strip s <> [] -> 1 <= word_count (strip s).
Proof.
  destruct (strip s) as [|c r] eqn:Hs; [congruence|]. intros _.
  unfold word_count. cbn [count_words]. rewrite (strip_head _ _ _ Hs).
  pose proof (count_words_nonneg true r). lia.
Qed.

Lemma len_slice_le {A : Type} (l : list A) a b :
  0 <= a <= b -> len (slice l (Some a) (Some b)) <= b - a.
Proof.
  intros H. unfold slice, adjust, len.
  destruct (Z.ltb_spec a 0); [lia|]. destruct (Z.ltb_spec b 0); [lia|].
  rewrite length_firstn. lia.
Qed.

Lemma len_strip_le s : len (strip s) <= len s.
Proof. unfold len. pose proof (length_strip s). lia. Qed.

(** The chunk of a pass that starts inside the text on a window that is
    not blank. *)
Lemma emitted_well_formed txt doc cs sep st :
  0 < cs -> 0 <= st_start st < len txt ->
  strip (slice txt (Some (st_start st))
               (Some (window_end txt sep cs (st_start st)))) <> [] ->
  well_formed txt doc cs (emitted txt doc cs sep st).
Proof.
  intros Hcs Hstart Hne.
  pose proof (window_end_bounds txt sep cs (st_start st) Hcs
                (proj1 Hstart)) as Hw.
  assert (Hsize :
            len (strip (slice txt (Some (st_start st))
                          (Some (window_end txt sep cs (st_start st)))))
            <= cs).
  { etransitivity; [apply len_strip_le|].
    etransitivity; [apply len_slice_le; lia|]. lia. }
  constructor; unfold emitted;
    cbn [doc_id text start_char end_char metadata]; auto.
  - apply strip_idempotent.
  - now apply word_count_strip.
Qed.

(** What holds of every chunk a pass can append holds of every chunk the
    loop returns. *)
Lemma while_loop_forall (P : Chunk -> Prop) txt doc cs ov sep :
  0 < cs -> 0 <= ov < cs ->
  (forall st,
      0 <= st_start st < len txt ->
      strip (slice txt (Some (st_start st))
                   (Some (window_end txt sep cs (st_start st)))) <> [] ->
      P (emitted txt doc cs sep st)) ->
  forall fuel l,
    while_loop fuel txt doc cs ov sep (mkState [] 0 0) = Some (Ok l) ->
    Forall P l.
Proof.
  intros Hcs Hov HP fuel l.
  apply (while_loop_invariant txt doc cs ov sep
           (fun st => loop_inv txt st /\ Forall P (st_chunks st))
           (Forall P)).
  - intros st st' [Hinv Hall] Hlt Hb. split.
    + eapply loop_inv_next; eauto.
    + destruct (loop_body_cases txt doc cs ov sep st
              ltac:(intros ? ?; congruence))
        as (chunks & idx & Hemit & [[_ Hbr]|[_ (start' & Hnx & _)]]);
        [congruence|].
      rewrite Hnx in Hb. injection Hb as <-. cbn [st_chunks].
      destruct Hemit as [(_ & -> & _)|(Hne & -> & _)]; [exact Hall|].
      apply Forall_app. split; [exact Hall|].
      constructor; [|constructor].
      apply HP; [|exact Hne]. split; [apply Hinv|exact Hlt].
  - intros st r [Hinv Hall] Hlt Hb.
    destruct (loop_body_cases txt doc cs ov sep st
              ltac:(intros ? ?; congruence))
      as (chunks & idx & Hemit & [[_ Hbr]|[_ (start' & Hnx & _)]]);
      [|congruence].
    rewrite Hbr in Hb. injection Hb as <-.
    destruct Hemit as [(_ & -> & _)|(Hne & -> & _)]; [exact Hall|].
    apply Forall_app. split; [exact Hall|].
    constructor; [|constructor].
    apply HP; [|exact Hne]. split; [apply Hinv|exact Hlt].
  - intros st [_ Hall] _. exact Hall.
  - split; [apply loop_inv_init|constructor].
Qed.

(** The same for [chunk_text]. *)
Lemma chunk_text_forall_emitted (P : Chunk -> Prop) fuel txt doc cs ov sep l :
  (forall st,
      0 < cs -> 0 <= st_start st < len txt ->
      strip (slice txt (Some (st_start st))
                   (Some (window_end txt sep cs (st_start st)))) <> [] ->
      P (emitted txt doc cs sep st)) ->
  chunk_text fuel txt doc cs ov sep = Some (Ok l) ->
  Forall P l.
Proof.
  intros HP Hrun.
  destruct (chunk_text_ok_cases _ _ _ _ _ _ _ Hrun)
    as [[_ ->]|(_ & Hcs & Hov & Hloop)]; [constructor|].
  revert Hloop. apply while_loop_forall; auto.
Qed.

(** Every chunk [chunk_text] returns belongs to the document, holds the
    trimmed text of its window [start_char, end_char), which is not empty
    and has at least one word, starts inside the text, is at most
    [chunk_size] long (window and text), and carries exactly the
    [chunk_size] and [word_count] of its text as metadata. *)
Theorem chunk_text_chunks_well_formed fuel txt doc cs ov sep l :
  chunk_text fuel txt doc cs ov sep = Some (Ok l) ->
  Forall (well_formed txt doc cs) l.
Proof.
  apply chunk_text_forall_emitted.
  intros st Hcs Hstart Hne. now apply emitted_well_formed.
Qed.

Lemma chunk_text_chunks_well_formed_witness :
  exists l,
    chunk_text 10 (py "ab cd") (py "d") 3 1 newline = Some (Ok l)
    /\ l <> []
    /\ Forall (well_formed (py "ab cd") (py "d") 3) l.
Proof.
  eexists. split; [vm_compute; reflexivity|].
  split; [discriminate|].
  apply (chunk_text_chunks_well_formed 10 (py "ab cd") (py "d") 3 1 newline).
  vm_compute. reflexivity.
Defined.

(** ** A text that fits in one window *)

Lemma slice_whole {A : Type} (l : list A) k :
  len l <= k -> slice l (Some 0) (Some k) = l.
Proof.
  intros Hk. unfold slice, adjust, len in *.
  destruct (Z.ltb_spec k 0); [lia|]. cbn [Z.ltb Z.compare].
  rewrite (Z.min_l 0), (Z.min_r k) by lia. cbn [Z.to_nat skipn].
  rewrite Z.sub_0_r, Nat2Z.id. apply firstn_all.
Qed.

(** A text that is not blank and no longer than [chunk_size - overlap]
    gives one chunk, for a document id that can be encoded: the whole
    text, trimmed, from 0 to [chunk_size] (which can be past the end of
    the text), in one pass of the loop. *)
Theorem chunk_text_single_chunk fuel txt doc cs ov sep :
  encodable doc = true ->
  strip txt <> [] -> 0 <= ov < cs -> len txt <= cs - ov ->
  chunk_text (S fuel) txt doc cs ov sep
  = Some (Ok [mkChunk (chunk_id doc 0 0) doc (strip txt) 0 0 cs
                      [(py "chunk_size", len (strip txt));
                       (py "word_count", word_count (strip txt))]]).
Proof.
  intros Henc Hne Hov Hfit.
  assert (Hpos : 0 < len txt).
  { destruct txt; [now contradiction Hne|]. unfold len. cbn. lia. }
  rewrite chunk_text_valid by (auto; lia).
  rewrite while_loop_unfold. cbn [st_start].
  destruct (Z.ltb_spec 0 (len txt)); [|lia].
  unfold loop_body, window_end, chunk_id.
  cbn [st_start st_chunks st_index].
  rewrite encode_id_source, Henc.
  destruct (Z.ltb_spec (0 + cs) (len txt)); [lia|].
  rewrite (slice_whole txt (0 + cs)) by lia.
  destruct (strip txt) as [|c s] eqn:Hs; [congruence|].
  cbn [truthy app bind].
  destruct (Z.leb_spec (len txt) (0 + cs - ov)); [|lia].
  reflexivity.
Qed.

Lemma chunk_text_single_chunk_witness :
  chunk_text 1 (py " ab cd ") (py "d") 10 3 newline
  = Some (Ok [mkChunk (chunk_id (py "d") 0 0) (py "d")
                      (strip (py " ab cd ")) 0 0 10
                      [(py "chunk_size", len (strip (py " ab cd ")));
                       (py "word_count", word_count (strip (py " ab cd ")))]]).
Proof.
  apply chunk_text_single_chunk.
  - reflexivity.
  - vm_compute. discriminate.
  - lia.
  - vm_compute. discriminate.
Defined.

(** ** Coverage *)

Lemma blank_nth s p ch :
  blank s = true -> nth_error s p = Some ch -> is_space ch = true.
Proof.
  unfold blank. intros H Hn. apply nth_error_In in Hn.
  rewrite forallb_forall in H. auto.
Qed.

Lemma nth_error_slice {A : Type} (l : list A) a b p :
  0 <= a -> a <= Z.of_nat p < b -> (p < length l)%nat ->
  nth_error (slice l (Some a) (Some b)) (p - Z.to_nat a) = nth_error l p.
Proof.
  intros Ha Hp Hlen. unfold slice, adjust, len.
  destruct (Z.ltb_spec a 0); [lia|]. destruct (Z.ltb_spec b 0); [lia|].
  rewrite nth_error_firstn.
  destruct (Nat.ltb_spec (p - Z.to_nat a)
              (Z.to_nat (Z.min b (Z.of_nat (length l))
                         - Z.min a (Z.of_nat (length l))))); [|lia].
  rewrite nth_error_skipn. f_equal. lia.
Qed.

(** A character that is not whitespace is not in a blank window. *)
Lemma blank_window txt a b p ch :
  0 <= a -> a <= Z.of_nat p < b ->
  strip (slice txt (Some a) (Some b)) = [] ->
  nth_error txt p = Some ch -> is_space ch = true.
Proof.
  intros Ha Hp Hbl Hn. apply strip_nil in Hbl.
  apply (blank_nth _ (p - Z.to_nat a) _ Hbl).
  rewrite nth_error_slice; auto.
  apply nth_error_Some. congruence.
Qed.

Lemma covered_incl l l' p : incl l l' -> covered l p -> covered l' p.
Proof. intros Hi (c & Hin & Hc). exists c. auto. Qed.

(** One pass covers its window. *)
Lemma covered_after_pass txt doc cs sep st chunks :
  0 < cs -> 0 <= st_start st ->
  covered_below txt (st_chunks st) (st_start st) ->
  strip (slice txt (Some (st_start st))
               (Some (window_end txt sep cs (st_start st)))) = []
  /\ chunks = st_chunks st
  \/ chunks = st_chunks st ++ [emitted txt doc cs sep st] ->
  covered_below txt chunks (window_end txt sep cs (st_start st)).
Proof.
  intros Hcs Hstart Hcov Hemit p ch Hn Hsp Hp.
  destruct (Z.lt_ge_cases (Z.of_nat p) (st_start st)) as [Hlo|Hhi].
  - apply (covered_incl (st_chunks st)); [|eapply Hcov; eauto].
    destruct Hemit as [[_ ->]| ->]; [apply incl_refl|].
    apply incl_appl, incl_refl.
  - destruct Hemit as [[Hbl _]| ->].
    + rewrite (blank_window _ _ _ _ _ Hstart (conj Hhi Hp) Hbl Hn) in Hsp.
      discriminate.
    + exists (emitted txt doc cs sep st). split.
      * apply in_or_app. right. now left.
      * unfold emitted. cbn [start_char end_char]. lia.
Qed.

Lemma covered_below_le txt l a b :
  a <= b -> covered_below txt l b -> covered_below txt l a.
Proof. intros Hle H p ch Hn Hsp Hp. apply (H p ch); auto. lia. Qed.

Lemma while_loop_covers txt doc cs ov sep :
  0 < cs -> 0 <= ov < cs ->
  forall fuel l,
    while_loop fuel txt doc cs ov sep (mkState [] 0 0) = Some (Ok l) ->
    covered_below txt l (len txt).
Proof.
  intros Hcs Hov fuel l.
  apply (while_loop_invariant txt doc cs ov sep
           (fun st => loop_inv txt st
                      /\ covered_below txt (st_chunks st) (st_start st))
           (fun l => covered_below txt l (len txt))).
  - intros st st' [Hinv Hcov] Hlt Hb. split.
    + eapply loop_inv_next; eauto.
    + destruct (loop_body_cases txt doc cs ov sep st
              ltac:(intros ? ?; congruence))
        as (chunks & idx & Hemit & [[_ Hbr]|[_ (start' & Hnx & Hadv)]]);
        [congruence|].
      rewrite Hnx in Hb. injection Hb as <-. cbn [st_chunks st_start].
      apply (covered_below_le _ _ _ (window_end txt sep cs (st_start st)));
        [destruct Hadv as [->|[-> _]]; lia|].
      apply (covered_after_pass txt doc cs sep st); auto; [apply Hinv|].
      destruct Hemit as [(Hbl & -> & _)|(_ & -> & _)]; auto.
  - intros st r [Hinv Hcov] Hlt Hb.
    destruct (loop_body_cases txt doc cs ov sep st
              ltac:(intros ? ?; congruence))
      as (chunks & idx & Hemit & [[Hlen Hbr]|[_ (start' & Hnx & _)]]);
      [|congruence].
    rewrite Hbr in Hb. injection Hb as <-.
    apply (covered_below_le _ _ _ (window_end txt sep cs (st_start st)));
      [lia|].
    apply (covered_after_pass txt doc cs sep st); auto; [apply Hinv|].
    destruct Hemit as [(Hbl & -> & _)|(_ & -> & _)]; auto.
  - intros st [_ Hcov] Hge. eapply covered_below_le; eauto.
  - split; [apply loop_inv_init|].
    intros p ch _ _ Hp. cbn in Hp. lia.
Qed.

(** Nothing but whitespace is dropped: every character of the text that
    is not whitespace lies in the window [start_char, end_char) of a
    returned chunk. *)
Theorem chunk_text_covers_text fuel txt doc cs ov sep l p ch :
  chunk_text fuel txt doc cs ov sep = Some (Ok l) ->
  nth_error txt p = Some ch -> is_space ch = false ->
  covered l p.
Proof.
  intros Hrun Hn Hsp.
  destruct (chunk_text_ok_cases _ _ _ _ _ _ _ Hrun)
    as [[Hbl _]|(_ & Hcs & Hov & Hloop)].
  - apply strip_nil in Hbl. rewrite (blank_nth _ _ _ Hbl Hn) in Hsp.
    discriminate.
  - apply (while_loop_covers txt doc cs ov sep Hcs Hov fuel l Hloop p ch);
      auto.
    unfold len. apply inj_lt. apply nth_error_Some. congruence.
Qed.

Lemma chunk_text_covers_text_witness :
  exists l,
    chunk_text 10 (py "ab cd") (py "d") 3 1 newline = Some (Ok l)
    /\ covered l 3.
Proof.
  eexists. split; [vm_compute; reflexivity|].
  apply (chunk_text_covers_text 10 (py "ab cd") (py "d") 3 1 newline _ 3
           99%N); vm_compute; reflexivity.
Defined.

(** ** Termination *)

(** A window ends [chunk_size] after its start, or just after a separator
    found past its start. *)
Lemma window_end_cases txt sep cs start :
  window_end txt sep cs start = start + cs
  \/ start < rfind txt sep start (start + cs)
     /\ window_end txt sep cs start
        = rfind txt sep start (start + cs) + len sep.
Proof.
  unfold window_end.
  destruct (start + cs <? len txt); [|now left].
  destruct (Z.ltb_spec start (rfind txt sep start (start + cs)));
    [right|left]; auto.
Qed.

(** The loop returns when every pass leaves its window more than [overlap]
    wide. *)
Lemma while_loop_progress txt doc cs ov sep :
  encodable doc = true -> 0 < cs ->
  (forall start, 0 <= start -> start < window_end txt sep cs start - ov) ->
  forall fuel st,
    0 <= st_start st ->
    len txt - st_start st <= Z.of_nat fuel ->
    exists l, while_loop fuel txt doc cs ov sep st = Some (Ok l).
Proof.
  intros Henc Hcs Hwide fuel.
  induction fuel as [|fuel IH]; intros st Hstart Hfuel.
  - rewrite while_loop_O.
    destruct (Z.ltb_spec (st_start st) (len txt)); [lia|eauto].
  - rewrite while_loop_unfold.
    destruct (Z.ltb_spec (st_start st) (len txt)); [|eauto].
    pose proof (window_end_bounds txt sep cs (st_start st) Hcs Hstart) as Hw.
    pose proof (Hwide (st_start st) Hstart) as Hwd.
    destruct (loop_body_cases txt doc cs ov sep st
                (loop_body_encodable txt doc cs ov sep st Henc))
      as (chunks & idx & _ & [[_ ->]|[_ (start' & -> & Hadv)]]); [eauto|].
    apply IH; cbn [st_start]; destruct Hadv as [->|[-> _]]; lia.
Qed.

Lemma chunk_text_progress fuel txt doc cs ov sep :
  encodable doc = true -> 0 < cs -> 0 <= ov < cs ->
  (forall start, 0 <= start -> start < window_end txt sep cs start - ov) ->
  (length txt <= fuel)%nat ->
  exists l, chunk_text fuel txt doc cs ov sep = Some (Ok l).
Proof.
  intros Henc Hcs Hov Hwide Hfuel.
  destruct (strip txt) as [|c s] eqn:Hs.
  - exists []. now apply chunk_text_blank.
  - rewrite chunk_text_valid by (try lia; congruence).
    apply (while_loop_progress txt doc cs ov sep Henc Hcs Hwide fuel
             (mkState [] 0 0)); cbn [st_start]; [lia|].
    unfold len. lia.
Qed.

(** With an overlap no longer than the separator (0 or 1 with the default
    newline) and a document id that can be encoded, [chunk_text] returns
    a list within [len(text)] passes of its loop. *)
Theorem chunk_text_terminates_small_overlap fuel txt doc cs ov sep :
  encodable doc = true ->
  0 < cs -> 0 <= ov < cs -> ov <= len sep -> (length txt <= fuel)%nat ->
  exists l, chunk_text fuel txt doc cs ov sep = Some (Ok l).
Proof.
  intros Henc Hcs Hov Hsep Hfuel. apply chunk_text_progress; auto.
  intros start Hstart.
  destruct (window_end_cases txt sep cs start) as [->|[Hlt ->]]; lia.
Qed.

Lemma chunk_text_terminates_small_overlap_witness :
  exists l, chunk_text 6 looping_text (py "d") 3 1 newline = Some (Ok l).
Proof.
  apply chunk_text_terminates_small_overlap; try lia.
  - reflexivity.
  - change (len newline) with 1. lia.
  - vm_compute. repeat constructor.
Defined.

Lemma occurs_nowhere sub s :
  occurs sub s = false -> forall k, starts_with sub (skipn k s) = false.
Proof.
  induction s as [|c s IH]; cbn [occurs]; intros H k.
  - rewrite skipn_nil. now apply orb_false_iff in H as [H _].
  - apply orb_false_iff in H as [H1 H2].
    destruct k as [|k]; [exact H1|]. cbn [skipn]. now apply IH.
Qed.

Lemma rfind_absent s sub start stop :
  occurs sub s = false -> rfind s sub start stop = -1.
Proof.
  intros H. unfold rfind.
  destruct (_ <? len sub); [reflexivity|].
  generalize (Z.to_nat
                ((if len s <? stop then len s
                  else if stop <? 0 then Z.max 0 (stop + len s) else stop)
                 - (if start <? 0 then Z.max 0 (start + len s) else start)
                 - len sub + 1)).
  intros k. induction k as [|k IH]; [reflexivity|].
  cbn [rfind_down]. now rewrite (occurs_nowhere _ _ H).
Qed.

(** Without the separator in the text every window is [chunk_size] wide. *)
Lemma window_end_unsnapped txt sep cs start :
  occurs sep txt = false -> 0 <= start ->
  window_end txt sep cs start = start + cs.
Proof.
  intros H Hstart. unfold window_end. rewrite (rfind_absent _ _ _ _ H).
  destruct (start + cs <? len txt); [|reflexivity].
  destruct (Z.ltb_spec start (-1)); [lia|reflexivity].
Qed.

(** On a text in which the separator does not occur, and with a document
    id that can be encoded, [chunk_text] returns a list within
    [len(text)] passes of its loop, whatever the (valid) overlap. *)
Theorem chunk_text_terminates_without_separator fuel txt doc cs ov sep :
  encodable doc = true ->
  occurs sep txt = false ->
  0 < cs -> 0 <= ov < cs -> (length txt <= fuel)%nat ->
  exists l, chunk_text fuel txt doc cs ov sep = Some (Ok l).
Proof.
  intros Henc Hsep Hcs Hov Hfuel. apply chunk_text_progress; auto.
  intros start Hstart. rewrite window_end_unsnapped by auto. lia.
Qed.

Lemma chunk_text_terminates_without_separator_witness :
  exists l,
    chunk_text 11 (py "hello world") (py "d") 4 3 newline = Some (Ok l).
Proof.
  apply chunk_text_terminates_without_separator; try lia.
  - reflexivity.
  - reflexivity.
  - vm_compute. repeat constructor.
Defined.

(** ** A document id that cannot be encoded *)

(** A pass over a window that is not blank raises when the document id
    has a lone surrogate: [.encode()] is applied to the id's source before
    the chunk is built. *)
Lemma loop_body_raises txt doc cs ov sep st :
  encodable doc = false ->
  strip (slice txt (Some (st_start st))
               (Some (window_end txt sep cs (st_start st)))) <> [] ->
  loop_body txt doc cs ov sep st = Fail UnicodeEncodeError.
Proof.
  intros Henc Hne. unfold loop_body. rewrite encode_id_source, Henc.
  destruct (strip (slice txt (Some (st_start st))
                         (Some (window_end txt sep cs (st_start st)))))
    as [|c0 content]; [congruence|]. reflexivity.
Qed.

(** Until its first chunk the loop has only passed over blank windows, so
    with such a document id it cannot end with a list. *)
Lemma while_loop_unencodable txt doc cs ov sep :
  encodable doc = false -> strip txt <> [] -> 0 < cs -> 0 <= ov < cs ->
  forall fuel st r,
    loop_inv txt st -> st_chunks st = [] ->
    while_loop fuel txt doc cs ov sep st = Some r ->
    r = Raise UnicodeEncodeError.
Proof.
  intros Henc Hne Hcs Hov fuel.
  induction fuel as [|fuel IH]; intros st r Hinv Hnil Hrun.
  - rewrite while_loop_O in Hrun.
    destruct (Z.ltb_spec (st_start st) (len txt)); [discriminate|].
    exfalso. apply Hne. apply (blank_whole txt (st_start st)); [lia|].
    now apply (inv_blank _ _ Hinv).
  - rewrite while_loop_unfold in Hrun.
    destruct (Z.ltb_spec (st_start st) (len txt)) as [Hlt|Hge].
    + pose proof (inv_start _ _ Hinv) as Hstart.
      pose proof (window_end_bounds txt sep cs (st_start st) Hcs Hstart)
        as Hw.
      destruct (loop_body txt doc cs ov sep st) as [st'|l|e] eqn:Hb.
      * destruct (loop_body_cases txt doc cs ov sep st
                    ltac:(intros ? ?; congruence))
          as (chunks & idx & Hemit & [[_ Hbr]|[_ (start' & Hnx & _)]]);
          [congruence|].
        destruct Hemit as [(Hbl & -> & ->)|(Hnb & _)].
        -- rewrite Hnx in Hb. injection Hb as <-.
           refine (IH (mkState (st_chunks st) start' (st_index st)) r
                      _ Hnil Hrun).
           now apply (loop_inv_next txt doc cs ov sep st).
        -- rewrite (loop_body_raises txt doc cs ov sep st Henc Hnb) in Hb.
           discriminate.
      * destruct (loop_body_cases txt doc cs ov sep st
                    ltac:(intros ? ?; congruence))
          as (chunks & idx & Hemit & [[Hlen Hbr]|[_ (start' & Hnx & _)]]);
          [|congruence].
        destruct Hemit as [(Hbl & _)|(Hnb & _)].
        -- exfalso. apply Hne.
           apply (blank_whole txt (window_end txt sep cs (st_start st)));
             [lia|].
           apply (blank_extend txt (st_start st)); [lia| |exact Hbl].
           now apply (inv_blank _ _ Hinv).
        -- rewrite (loop_body_raises txt doc cs ov sep st Henc Hnb) in Hb.
           discriminate.
      * injection Hrun as <-.
        apply loop_body_fail in Hb as (-> & _). reflexivity.
    + injection Hrun as <-.
      exfalso. apply Hne. apply (blank_whole txt (st_start st)); [lia|].
      now apply (inv_blank _ _ Hinv).
Qed.

(** The loop ends, with a list or an exception, when every pass leaves
    its window more than [overlap] wide. *)
Lemma while_loop_ends txt doc cs ov sep :
  0 < cs ->
  (forall start, 0 <= start -> start < window_end txt sep cs start - ov) ->
  forall fuel st,
    0 <= st_start st ->
    len txt - st_start st <= Z.of_nat fuel ->
    exists r, while_loop fuel txt doc cs ov sep st = Some r.
Proof.
  intros Hcs Hwide fuel.
  induction fuel as [|fuel IH]; intros st Hstart Hfuel.
  - rewrite while_loop_O.
    destruct (Z.ltb_spec (st_start st) (len txt)); [lia|eauto].
  - rewrite while_loop_unfold.
    destruct (Z.ltb_spec (st_start st) (len txt)); [|eauto].
    pose proof (window_end_bounds txt sep cs (st_start st) Hcs Hstart) as Hw.
    pose proof (Hwide (st_start st) Hstart) as Hwd.
    destruct (loop_body txt doc cs ov sep st) as [st'|l|e] eqn:Hb;
      [|eauto|eauto].
    destruct (loop_body_cases txt doc cs ov sep st
                ltac:(intros ? ?; congruence))
      as (chunks & idx & _ & [[_ Hbr]|[_ (start' & Hnx & Hadv)]]);
      [congruence|].
    rewrite Hnx in Hb. injection Hb as <-.
    apply IH; cbn [st_start]; destruct Hadv as [->|[-> _]]; lia.
Qed.

(** With a document id that holds a lone surrogate (U+D800..U+DFFF),
    valid parameters and a text that is not blank, [chunk_text] returns
    no list: the id of the first chunk is computed from
    [f"{doc_id}:{index}:{start}".encode()], which raises
    [UnicodeEncodeError], and however the call ends it ends with that
    exception. With an overlap no longer than the separator it does end
    so, within [len(text)] passes of the loop. *)
Theorem chunk_text_unencodable_doc_id fuel txt doc cs ov sep :
  encodable doc = false -> strip txt <> [] -> 0 < cs -> 0 <= ov < cs ->
  (forall r, chunk_text fuel txt doc cs ov sep = Some r ->
             r = Raise UnicodeEncodeError)
  /\ (ov <= len sep -> (length txt <= fuel)%nat ->
      chunk_text fuel txt doc cs ov sep = Some (Raise UnicodeEncodeError)).
Proof.
  intros Henc Hne Hcs Hov.
  rewrite chunk_text_valid by assumption.
  assert (Hall : forall r,
             while_loop fuel txt doc cs ov sep (mkState [] 0 0) = Some r ->
             r = Raise UnicodeEncodeError).
  { intros r.
    apply (while_loop_unencodable txt doc cs ov sep Henc Hne Hcs Hov);
      [apply loop_inv_init|reflexivity]. }
  split; [exact Hall|].
  intros Hsep Hfuel.
  destruct (while_loop_ends txt doc cs ov sep Hcs) with
    (fuel := fuel) (st := mkState [] 0 0) as [r Hr].
  - intros start Hstart.
    destruct (window_end_cases txt sep cs start) as [->|[Hlt ->]]; lia.
  - cbn [st_start]. lia.
  - cbn [st_start]. unfold len. lia.
  - rewrite Hr. now rewrite (Hall r Hr).
Qed.

Lemma chunk_text_unencodable_doc_id_witness :
  chunk_text 2 (py "ab") [55296%N] 3 1 newline
  = Some (Raise UnicodeEncodeError).
Proof.
  apply (proj2 (chunk_text_unencodable_doc_id
                  2 (py "ab") [55296%N] 3 1 newline
                  eq_refl ltac:(vm_compute; discriminate)
                  ltac:(lia) ltac:(lia))).
  - change (len newline) with 1. lia.
  - vm_compute. repeat constructor.
Defined.

End ChunkShapeFacts.

(* ===================================================================== *)
(** * More on the chunker: chunking by pages *)
(* ===================================================================== *)

Section PageFacts.
Import Chunker ChunkerSpec ChunkShape Inputs.

Lemma nth_error_reindex l :
  forall i n,
    nth_error (reindex i l) n
    = option_map (fun c => set_index c (i + Z.of_nat n)) (nth_error l n).
Proof.
  induction l as [|c l IH]; intros i [|n]; cbn [reindex nth_error option_map];
    try reflexivity.
  - f_equal. f_equal. lia.
  - rewrite IH. destruct (nth_error l n); cbn; [|reflexivity].
    f_equal. f_equal. lia.
Qed.

Lemma reindex_indexed l : indexed_from_zero (reindex 0 l).
Proof.
  intros n c. rewrite nth_error_reindex.
  destruct (nth_error l n); cbn; [|discriminate].
  intros H; injection H as <-. reflexivity.
Qed.

Lemma reindex_map {B : Type} (f : Chunk -> B) l :
  (forall c i, f (set_index c i) = f c) ->
  forall i, map f (reindex i l) = map f l.
Proof.
  intros Hf. induction l as [|c l IH]; intros i; cbn; [reflexivity|].
  now rewrite Hf, IH.
Qed.

Lemma reindex_forall (P : Chunk -> Prop) l :
  (forall c i, P c -> P (set_index c i)) ->
  Forall P l -> forall i, Forall P (reindex i l).
Proof.
  intros HP Hall. induction Hall as [|c l Hc _ IH]; intros i; cbn;
    constructor; auto.
Qed.

Lemma sorted_le_app (a b : list Z) (m : Z) :
  StronglySorted Z.le a -> StronglySorted Z.le b ->
  Forall (fun x => x <= m) a -> Forall (fun y => m <= y) b ->
  StronglySorted Z.le (a ++ b).
Proof.
  intros Ha Hb Hla Hlb. induction Ha as [|x a Ha IH Hx]; cbn; [exact Hb|].
  inversion Hla; subst. constructor; [auto|].
  apply Forall_app. split; [exact Hx|].
  eapply Forall_impl; [|exact Hlb]. cbn. intros; lia.
Qed.

Lemma sorted_le_constant (l : list Z) (m : Z) :
  Forall (fun x => x = m) l -> StronglySorted Z.le l.
Proof.
  induction 1 as [|x l Hx Hl IH]; constructor; auto.
  eapply Forall_impl; [|exact Hl]. cbn. intros; lia.
Qed.

Lemma page_of_stamp doc n c : page_of (stamp_page doc n c) = n + 1.
Proof. unfold page_of, stamp_page. cbn [metadata]. now rewrite get_set_same. Qed.

(** A chunk of page [p], stamped. *)
Lemma stamp_on_page pages doc cs p page_text d c :
  nth_error pages p = Some page_text ->
  well_formed page_text d cs c ->
  on_page pages doc cs (stamp_page doc (Z.of_nat p) c).
Proof.
  intros Hp [_ Htext Hne _ Hstart Hend _ Hmeta _].
  exists p, page_text. unfold stamp_page.
  cbn [doc_id text start_char end_char metadata].
  repeat split; auto; try lia.
  rewrite Hmeta. reflexivity.
Qed.

(** The page loop, from page number [n] on, only appends: chunks of the
    pages it walks, in page order. *)
Lemma pages_loop_appends fuel cs ov doc all_pages :
  forall pages (n : nat) acc l,
    (forall k page_text,
        nth_error pages k = Some page_text ->
        nth_error all_pages (n + k) = Some page_text) ->
    pages_loop fuel pages (Z.of_nat n) doc cs ov acc = Some (Ok l) ->
    exists added,
      l = acc ++ added
      /\ StronglySorted Z.le (map page_of added)
      /\ Forall (fun c => Z.of_nat n + 1 <= page_of c) added
      /\ Forall (on_page all_pages doc cs) added.
Proof.
  induction pages as [|page_text rest IH]; intros n acc l Hsub;
    cbn [pages_loop].
  - intros H; injection H as <-. exists []. rewrite app_nil_r.
    repeat split; constructor.
  - assert (Hrest :
              forall k t, nth_error rest k = Some t ->
                          nth_error all_pages (S n + k) = Some t).
    { intros k t Hk. replace (S n + k)%nat with (n + S k)%nat by lia.
      now apply Hsub. }
    assert (Hweak :
              forall added,
                Forall (fun c => Z.of_nat (S n) + 1 <= page_of c) added ->
                Forall (fun c => Z.of_nat n + 1 <= page_of c) added).
    { intros added. apply Forall_impl. intros; lia. }
    destruct (negb (truthy (strip page_text))).
    + intros H. replace (Z.of_nat n + 1) with (Z.of_nat (S n)) in H by lia.
      destruct (IH _ _ _ Hrest H) as (added & ? & ? & ? & ?).
      exists added. repeat split; auto.
    + destruct (chunk_text fuel page_text
                  (doc ++ py "_p" ++ str_of_int (Z.of_nat n)) cs ov newline)
        as [[page_chunks|e]|] eqn:Hct; try discriminate.
      intros H. replace (Z.of_nat n + 1) with (Z.of_nat (S n)) in H by lia.
      destruct (IH _ _ _ Hrest H) as (added & -> & Hs & Hge & Hon).
      exists (map (stamp_page doc (Z.of_nat n)) page_chunks ++ added).
      rewrite app_assoc. split; [reflexivity|].
      assert (Hpage :
                Forall (fun c => page_of c = Z.of_nat n + 1)
                  (map (stamp_page doc (Z.of_nat n)) page_chunks)).
      { apply Forall_map, Forall_forall.
        intros c _. apply page_of_stamp. }
      repeat split.
      * rewrite map_app.
        apply (sorted_le_app _ _ (Z.of_nat n + 1)); auto.
        -- apply (sorted_le_constant _ (Z.of_nat n + 1)).
           now apply Forall_map.
        -- apply Forall_map. eapply Forall_impl; [|exact Hpage].
           cbn. intros; lia.
        -- apply Forall_map. eapply Forall_impl; [|exact Hge].
           cbn. intros; lia.
      * apply Forall_app. split; [|auto].
        eapply Forall_impl; [|exact Hpage]. cbn. intros; lia.
      * apply Forall_app. split; [|exact Hon].
        apply Forall_map.
        revert Hct. apply chunk_text_forall_emitted.
        intros st Hcs Hstart Hne.
        apply (stamp_on_page _ _ _ _ page_text
                 (doc ++ py "_p" ++ str_of_int (Z.of_nat n))).
        -- rewrite <- (Nat.add_0_r n). apply Hsub. reflexivity.
        -- now apply emitted_well_formed.
Qed.

(** When [chunk_by_pages] returns a list, its [index] fields are
    0, 1, ..., N-1 in list order, its chunks come in page order, and each
    chunk belongs to the document, is the trimmed, non-empty text of a
    window of one page with offsets counted from the start of that page,
    and carries that page's 1-based number after the [chunk_size] and
    [word_count] of its text. *)
Theorem chunk_by_pages_shape fuel pages doc cs ov l :
  chunk_by_pages fuel pages doc cs ov = Some (Ok l) ->
  indexed_from_zero l
  /\ StronglySorted Z.le (map page_of l)
  /\ Forall (on_page pages doc cs) l.
Proof.
  unfold chunk_by_pages.
  destruct (pages_loop fuel pages 0 doc cs ov []) as [[all_chunks|e]|]
    eqn:Hloop; try discriminate.
  intros H; injection H as <-.
  destruct (pages_loop_appends fuel cs ov doc pages pages 0 [] all_chunks)
    as (added & -> & Hs & _ & Hon); auto.
  cbn [app]. repeat split.
  - apply reindex_indexed.
  - rewrite reindex_map; auto.
  - apply reindex_forall; auto.
Qed.

Lemma chunk_by_pages_shape_witness :
  exists l,
    chunk_by_pages 10 [py "ab cd"; py "  "; py "ef"] (py "d") 3 1
    = Some (Ok l)
    /\ map page_of l = [1; 1; 1; 3]
    /\ indexed_from_zero l
    /\ StronglySorted Z.le (map page_of l)
    /\ Forall (on_page [py "ab cd"; py "  "; py "ef"] (py "d") 3) l.
Proof.
  eexists. split; [vm_compute; reflexivity|].
  split; [vm_compute; reflexivity|].
  apply (chunk_by_pages_shape 10 _ (py "d") 3 1).
  vm_compute. reflexivity.
Defined.

(** ** When [chunk_by_pages] returns, and when it raises *)

Lemma truthy_strip_false s : negb (truthy (strip s)) = true <-> strip s = [].
Proof. destruct (strip s); cbn; split; congruence. Qed.

Lemma pages_loop_blank fuel doc cs ov pages :
  Forall (fun p => strip p = []) pages ->
  forall n acc, pages_loop fuel pages n doc cs ov acc = Some (Ok acc).
Proof.
  induction 1 as [|p pages Hp _ IH]; intros n acc; cbn [pages_loop];
    [reflexivity|].
  rewrite Hp. cbn [truthy negb]. apply IH.
Qed.

Lemma chunk_text_rejects fuel txt doc cs ov sep :
  cs <= 0 \/ ov < 0 \/ cs <= ov -> strip txt <> [] ->
  exists msg,
    chunk_text fuel txt doc cs ov sep = Some (Raise (ValueError msg)).
Proof.
  intros Hbad Hne. unfold chunk_text.
  destruct (strip txt) as [|c s]; [congruence|]. cbn [truthy negb].
  destruct (Z.leb_spec cs 0); [eauto|].
  destruct (Z.ltb_spec ov 0); [eauto|].
  destruct (Z.leb_spec cs ov); [eauto|]. lia.
Qed.

Lemma pages_loop_rejects fuel doc cs ov pages :
  cs <= 0 \/ ov < 0 \/ cs <= ov ->
  Exists (fun p => strip p <> []) pages ->
  forall n acc,
  exists msg,
    pages_loop fuel pages n doc cs ov acc = Some (Raise (ValueError msg)).
Proof.
  intros Hbad Hex. induction pages as [|p pages IH]; intros n acc;
    [inversion Hex|].
  cbn [pages_loop]. destruct (strip p) as [|c s] eqn:Hp.
  - cbn [truthy negb]. apply IH.
    inversion Hex; subst; [congruence|assumption].
  - cbn [truthy negb].
    destruct (chunk_text_rejects fuel p
                (doc ++ py "_p" ++ str_of_int n) cs ov newline Hbad)
      as [msg ->]; [congruence|]. eauto.
Qed.

(** [chunk_by_pages] checks its parameters only where a page has text:
    a [chunk_size <= 0], an [overlap < 0] or an [overlap >= chunk_size]
    raises [ValueError] as soon as one page is not blank, whatever the
    fuel, and goes unnoticed (the empty list is returned) when every page
    is blank or there is no page. *)
Theorem chunk_by_pages_invalid_argument fuel pages doc cs ov :
  cs <= 0 \/ ov < 0 \/ cs <= ov ->
  (Exists (fun p => strip p <> []) pages ->
   exists msg,
     chunk_by_pages fuel pages doc cs ov = Some (Raise (ValueError msg)))
  /\ (Forall (fun p => strip p = []) pages ->
      chunk_by_pages fuel pages doc cs ov = Some (Ok [])).
Proof.
  intros Hbad. unfold chunk_by_pages. split.
  - intros Hex.
    destruct (pages_loop_rejects fuel doc cs ov pages Hbad Hex 0 [])
      as [msg ->]. eauto.
  - intros Hall. now rewrite pages_loop_blank.
Qed.

Lemma chunk_by_pages_invalid_argument_witness :
  (exists msg,
      chunk_by_pages 0 [py " "; py "ab"] (py "d") 0 0
      = Some (Raise (ValueError msg)))
  /\ chunk_by_pages 0 [py " "; py ""] (py "d") 0 0 = Some (Ok []).
Proof.
  split.
  - apply (chunk_by_pages_invalid_argument 0 [py " "; py "ab"] (py "d") 0 0);
      [lia|].
    apply Exists_cons_tl, Exists_cons_hd. vm_compute. discriminate.
  - apply (chunk_by_pages_invalid_argument 0 [py " "; py ""] (py "d") 0 0);
      [lia|].
    repeat constructor.
Defined.

(** The page loop returns when every page's chunking does. *)
Lemma pages_loop_returns fuel doc cs ov pages :
  Forall (fun p => forall n, exists l,
              chunk_text fuel p (doc ++ py "_p" ++ str_of_int n) cs ov
                         newline = Some (Ok l)) pages ->
  forall n acc,
  exists l, pages_loop fuel pages n doc cs ov acc = Some (Ok l).
Proof.
  induction 1 as [|p pages Hp _ IH]; intros n acc; cbn [pages_loop];
    [eauto|].
  destruct (negb (truthy (strip p))); [apply IH|].
  destruct (Hp n) as [l ->]. apply IH.
Qed.

(** With valid parameters, an overlap of 0 or 1 and a document id that
    can be encoded, [chunk_by_pages] returns a list once the fuel covers
    the longest page. *)
Theorem chunk_by_pages_terminates_small_overlap fuel pages doc cs ov :
  encodable doc = true ->
  0 < cs -> 0 <= ov < cs -> ov <= 1 ->
  Forall (fun p => (length p <= fuel)%nat) pages ->
  exists l, chunk_by_pages fuel pages doc cs ov = Some (Ok l).
Proof.
  intros Henc Hcs Hov Hsmall Hfuel. unfold chunk_by_pages.
  destruct (pages_loop_returns fuel doc cs ov pages) with (n := 0)
    (acc := @nil Chunk) as [l ->]; [|eauto].
  eapply Forall_impl; [|exact Hfuel]. cbn beta. intros p Hp n.
  apply chunk_text_progress; auto.
  { rewrite !encodable_app, Henc, encodable_str_of_int. reflexivity. }
  intros start Hstart.
  destruct (window_end_cases p newline cs start) as [->|[Hlt ->]];
    change (len newline) with 1; lia.
Qed.

Lemma chunk_by_pages_terminates_small_overlap_witness :
  exists l,
    chunk_by_pages 6 [looping_text; py "ab"] (py "d") 3 1 = Some (Ok l).
Proof.
  apply chunk_by_pages_terminates_small_overlap; try lia.
  - reflexivity.
  - repeat constructor; vm_compute; repeat constructor.
Defined.

End PageFacts.

(* ===================================================================== *)
(** * The shape of a digest and of the ids cut from it *)
(* ===================================================================== *)

Section DigestFacts.
Import Sha256 Chunker ChunkerSpec ChunkShape Inputs.

Lemma length_round st kw : length (round st kw) = length st.
Proof.
  unfold round.
  destruct st as [|a [|b [|c [|d [|e [|f [|g [|h [|i st]]]]]]]]];
    reflexivity.
Qed.

Lemma length_rounds kws : forall st,
  length (fold_left round kws st) = length st.
Proof.
  induction kws as [|kw kws IH]; intros st; cbn [fold_left];
    [reflexivity|].
  now rewrite IH, length_round.
Qed.

Lemma length_compress h block : length (compress h block) = length h.
Proof.
  unfold compress. rewrite length_map, length_combine, length_rounds.
  apply Nat.min_id.
Qed.

Lemma length_blocks fuel : forall ws h,
  length (blocks fuel ws h) = length h.
Proof.
  induction fuel as [|fuel IH]; intros ws h; cbn [blocks]; [reflexivity|].
  destruct ws; [reflexivity|]. now rewrite IH, length_compress.
Qed.

Lemma length_flat_map_const {A B : Type} (f : A -> list B) (k : nat) l :
  (forall x, length (f x) = k) ->
  length (flat_map f l) = (k * length l)%nat.
Proof.
  intros Hf. induction l as [|x l IH]; cbn [flat_map length]; [lia|].
  rewrite length_app, Hf, IH. lia.
Qed.

Lemma length_be_bytes width x : length (be_bytes width x) = width.
Proof.
  unfold be_bytes. now rewrite length_map, length_rev, length_seq.
Qed.

Lemma be_bytes_range width x :
  Forall (fun b => 0 <= b < 256) (be_bytes width x).
Proof.
  unfold be_bytes. apply Forall_map, Forall_forall. intros i _.
  change 255 with (Z.ones 8). rewrite Z.land_ones by lia.
  apply Z.mod_pos_bound. reflexivity.
Qed.

(** A digest is 32 bytes. *)
Lemma length_digest msg : length (digest msg) = 32%nat.
Proof.
  unfold digest.
  rewrite (length_flat_map_const _ 4) by (intros; apply length_be_bytes).
  rewrite length_blocks. reflexivity.
Qed.

Lemma digest_range msg : Forall (fun b => 0 <= b < 256) (digest msg).
Proof.
  unfold digest. apply Forall_flat_map, Forall_forall.
  intros x _. apply be_bytes_range.
Qed.

Lemma hex_digit_is_hex d : 0 <= d < 16 -> is_hex (hex_digit d) = true.
Proof.
  intros H. unfold hex_digit, is_hex.
  destruct (Z.ltb_spec d 10).
  - apply orb_true_iff. left. apply andb_true_iff.
    split; apply N.leb_le; lia.
  - apply orb_true_iff. right. apply andb_true_iff.
    split; apply N.leb_le; lia.
Qed.

(** A hex digest is 64 lowercase hexadecimal digits. *)
Lemma hexdigest_format msg : hex_string 64 (hexdigest msg).
Proof.
  unfold hex_string, hexdigest, len. split.
  - rewrite (length_flat_map_const _ 2) by reflexivity.
    now rewrite length_digest.
  - pose proof (digest_range msg) as Hr.
    induction Hr as [|b l Hb _ IH]; [reflexivity|].
    cbn [flat_map app forallb]. rewrite IH, andb_true_r.
    apply andb_true_iff. split; apply hex_digit_is_hex.
    + rewrite Z.shiftr_div_pow2 by lia. change (2 ^ 4) with 16.
      split; [apply Z.div_pos; lia|].
      apply Z.div_lt_upper_bound; lia.
    + change 15 with (Z.ones 4). rewrite Z.land_ones by lia.
      apply Z.mod_pos_bound. reflexivity.
Qed.

Lemma hex_string_prefix n k s :
  0 <= k <= n -> hex_string n s -> hex_string k (slice s None (Some k)).
Proof.
  intros Hk [Hlen Hall]. unfold hex_string. split.
  - rewrite slice_prefix by lia. unfold len in *.
    rewrite length_firstn. lia.
  - rewrite forallb_forall in *. intros c Hc. apply Hall.
    eapply slice_In; eauto.
Qed.

(** A chunk id is 12 lowercase hexadecimal digits, whatever it is the
    hash of. *)
Lemma chunk_id_format doc i start : hex_string 12 (chunk_id doc i start).
Proof.
  unfold chunk_id. apply (hex_string_prefix 64); [lia|].
  apply hexdigest_format.
Qed.

Lemma chunk_by_pages_ids fuel pages doc cs ov l :
  chunk_by_pages fuel pages doc cs ov = Some (Ok l) ->
  Forall (fun c => hex_string 12 (id c)) l.
Proof.
  unfold chunk_by_pages. intros Hrun.
  destruct (pages_loop fuel pages 0 doc cs ov []) as [[all_chunks|e]|]
    eqn:Hloop; try discriminate.
  injection Hrun as <-. apply Forall_forall. intros c Hin.
  destruct (reindex_fields _ _ _ Hin) as (c' & Hin' & -> & _).
  destruct (pages_loop_chunks fuel cs ov doc pages 0 [] _ Hloop c' Hin')
    as [[]|(k & page_text & page_chunks & c0 & _ & Hct & Hc0 & ->)].
  cbn [stamp_page id].
  pose proof (chunk_text_forall (fun c => hex_string 12 (id c))
                _ _ _ _ _ _ _ (fun st => chunk_id_format _ _ _) Hct)
    as Hall.
  rewrite Forall_forall in Hall. auto.
Qed.

(** Every chunk that [chunk_text] or [chunk_by_pages] returns has an id
    of 12 lowercase hexadecimal digits. *)
Theorem returned_ids_are_12_hex_digits fuel txt pages doc cs ov sep l :
  chunk_text fuel txt doc cs ov sep = Some (Ok l)
  \/ chunk_by_pages fuel pages doc cs ov = Some (Ok l) ->
  Forall (fun c => hex_string 12 (id c)) l.
Proof.
  intros [Hrun|Hrun].
  - revert Hrun. apply chunk_text_forall. intros st. apply chunk_id_format.
  - eapply chunk_by_pages_ids; eauto.
Qed.

(** What [chunk_by_pages] returns, for the server: indices, pages and
    ids. *)
Lemma chunk_by_pages_fields fuel pages doc cs ov l :
  chunk_by_pages fuel pages doc cs ov = Some (Ok l) ->
  indexed_from_zero l
  /\ Forall (on_page pages doc cs) l
  /\ Forall (fun c => hex_string 12 (id c)) l.
Proof.
  intros Hrun. split; [|split; [|eapply chunk_by_pages_ids; eauto]];
    revert Hrun; unfold chunk_by_pages;
    destruct (pages_loop fuel pages 0 doc cs ov []) as [[all_chunks|e]|]
      eqn:Hloop; try discriminate; intros H; injection H as <-.
  - apply reindex_indexed.
  - destruct (pages_loop_appends fuel cs ov doc pages pages 0 [] all_chunks)
      as (added & -> & _ & _ & Hon); auto.
    cbn [app]. apply reindex_forall; auto.
Qed.

Lemma returned_ids_are_12_hex_digits_witness :
  exists l,
    chunk_by_pages 10 [py "ab cd"; py "ef"] (py "d") 3 1 = Some (Ok l)
    /\ l <> []
    /\ Forall (fun c => hex_string 12 (id c)) l.
Proof.
  eexists. split; [vm_compute; reflexivity|].
  split; [discriminate|].
  apply (returned_ids_are_12_hex_digits 10 [] [py "ab cd"; py "ef"]
           (py "d") 3 1 []).
  right. vm_compute. reflexivity.
Defined.


End DigestFacts.

(* ===================================================================== *)
(** * More on the index: what a search returns *)
(* ===================================================================== *)

Section SearchResults.
Import Chunker Search SearchSpec Inputs MoreInputs.

(** The similarity of two vectors is always a value. *)
Lemma cosine_similarity_total a b :
  exists s, _cosine_similarity a b = Ok s.
Proof.
  unfold _cosine_similarity. rewrite !math_sqrt_sum_squares. cbn [bind].
  destruct (PrimFloat.sqrt (sum_squares a) =? 0)%float eqn:Ha;
    [cbn [orb]; eauto|].
  destruct (PrimFloat.sqrt (sum_squares b) =? 0)%float eqn:Hb;
    [cbn [orb]; eauto|].
  cbn [orb]. unfold truediv. rewrite sqrt_product_nonzero by assumption.
  eauto.
Qed.

(** The index every sequence of calls builds. *)
Lemma run_index_inv ops :
  index_inv (fun c => In c (added ops)) (run ops).
Proof. apply run_invariant. auto. Qed.

Lemma run_lists_owned ops : single_owner ops -> lists_owned (run ops).
Proof.
  intros H. apply (run_invariant (fun c => In c (added ops)) ops); auto.
Qed.

(** Where the two chunk-id mappings hold the same ids, scoring raises
    nothing. *)
Lemma score_all_total idx q ids :
  keys (_chunks idx) = keys (_embeddings idx) ->
  forall acc, exists res, score_all idx q ids acc = Ok res.
Proof.
  intros Hkeys. induction ids as [|x ids IH]; intros acc;
    cbn [score_all]; [eauto|].
  destruct (get (_embeddings idx) x) as [e|] eqn:He; [|apply IH].
  destruct (cosine_similarity_total q e) as [s ->]. cbn [bind].
  assert (Hm : mem (_chunks idx) x = true).
  { rewrite (mem_of_keys _ (_embeddings idx)) by assumption.
    apply mem_get. eauto. }
  apply mem_get in Hm as [c ->]. apply IH.
Qed.

(** Each result pairs the chunk stored under a candidate id with the
    similarity of the query vector and the vector stored under that id. *)
Lemma score_all_scores idx q ids :
  forall acc res,
    score_all idx q ids acc = Ok res ->
    forall r, In r res ->
      In r acc
      \/ exists x e,
          In x ids
          /\ get (_embeddings idx) x = Some e
          /\ get (_chunks idx) x = Some (chunk r)
          /\ _cosine_similarity q e = Ok (score r).
Proof.
  induction ids as [|x ids IH]; intros acc res Hrun r Hin;
    cbn [score_all] in Hrun.
  - injection Hrun as <-. auto.
  - destruct (get (_embeddings idx) x) as [e|] eqn:He.
    + unfold bind in Hrun.
      destruct (_cosine_similarity q e) as [sc|] eqn:Hsc; [|discriminate].
      destruct (get (_chunks idx) x) as [c|] eqn:Hc; [|discriminate].
      destruct (IH _ _ Hrun r Hin) as [Hacc|(y & e' & Hy & H)].
      * apply in_app_or in Hacc as [?|[<-|[]]]; [auto|].
        right. exists x, e. cbn. auto.
      * right. exists y, e'. cbn. auto.
    + destruct (IH _ _ Hrun r Hin) as [?|(y & e' & Hy & H)]; [auto|].
      right. exists y, e'. cbn. auto.
Qed.

(** One result per candidate that is indexed. *)
Lemma score_all_length idx q ids :
  keys (_chunks idx) = keys (_embeddings idx) ->
  Forall (fun x => In x (keys (_chunks idx))) ids ->
  forall acc res,
    score_all idx q ids acc = Ok res ->
    length res = (length acc + length ids)%nat.
Proof.
  intros Hkeys Hall. induction Hall as [|x ids Hx _ IH]; intros acc res;
    cbn [score_all].
  - intros H; injection H as <-. cbn. lia.
  - assert (Hm : mem (_embeddings idx) x = true).
    { rewrite <- (mem_of_keys (_chunks idx)) by assumption.
      now apply mem_keys. }
    apply mem_get in Hm as [e ->]. unfold bind.
    destruct (_cosine_similarity q e) as [s|]; [|discriminate].
    destruct (get (_chunks idx) x) as [c|]; [|discriminate].
    intros H. rewrite (IH _ _ H), length_app. cbn. lia.
Qed.

(** On an index built by [add_chunks] and [remove_document] calls, a
    search fails only with its embedding call: it raises what that call
    raises, [IndexError] if that call returns no vector, and returns a
    list otherwise, whatever the vectors, the scope and [top_k] are. *)
Theorem search_fails_only_with_embedder ops embed query doc top_k :
  match embed [query] search_query with
  | Raise e => search embed (run ops) query doc top_k = Raise e
  | Ok [] => search embed (run ops) query doc top_k = Raise IndexError
  | Ok (_ :: _) =>
      exists res, search embed (run ops) query doc top_k = Ok res
  end.
Proof.
  unfold search, bind.
  destruct (embed [query] search_query) as [[|qe embs]|e]; try reflexivity.
  destruct (negb (truthy (candidates (run ops) doc))); [eauto|].
  destruct (score_all_total (run ops) qe (candidates (run ops) doc)
              (inv_keys _ _ (run_index_inv ops)) []) as [res ->].
  eauto.
Qed.

(** On such an index every result of a search holds a chunk that is
    indexed under its own id, and its score is the similarity of the query
    vector (the first vector of the embedding call) and the vector stored
    under that id. *)
Theorem search_scores_are_similarities ops embed query doc top_k qe rest res :
  embed [query] search_query = Ok (qe :: rest) ->
  search embed (run ops) query doc top_k = Ok res ->
  Forall (fun r =>
            get (_chunks (run ops)) (id (chunk r)) = Some (chunk r)
            /\ exists e,
                get (_embeddings (run ops)) (id (chunk r)) = Some e
                /\ _cosine_similarity qe e = Ok (score r)) res.
Proof.
  intros Hq. rewrite search_as_scored. unfold scored, bind. rewrite Hq.
  destruct (score_all (run ops) qe (candidates (run ops) doc) []) as [l|]
    eqn:Hl; [|discriminate].
  intros H; injection H as <-. apply Forall_forall. intros r Hin.
  apply slice_In in Hin.
  apply (Permutation_in _ (Permutation_sym (sort_desc_perm l))) in Hin.
  destruct (score_all_scores _ _ _ _ _ Hl r Hin)
    as [[]|(x & e & _ & He & Hc & Hs)].
  destruct (inv_stored _ _ (run_index_inv ops) x _ Hc) as [Hid _].
  rewrite Hid. eauto.
Qed.

Lemma search_scores_are_similarities_witness :
  exists res,
    search toy_embed (run three_chunks_ops)
           (py "x") None 2 = Ok res
    /\ res <> []
    /\ Forall (fun r =>
                 get (_chunks (run three_chunks_ops))
                     (id (chunk r)) = Some (chunk r)
                 /\ exists e,
                     get (_embeddings (run three_chunks_ops)) (id (chunk r))
                     = Some e
                     /\ _cosine_similarity (toy_vector (py "x")) e
                        = Ok (score r)) res.
Proof.
  eexists. split; [vm_compute; reflexivity|].
  split; [discriminate|].
  apply (search_scores_are_similarities three_chunks_ops
           toy_embed (py "x") None 2 (toy_vector (py "x")) []);
    vm_compute; reflexivity.
Defined.

Lemma len_slice_prefix {A : Type} (l : list A) k :
  0 <= k -> len (slice l None (Some k)) = Z.min k (len l).
Proof.
  intros Hk. rewrite slice_prefix by assumption. unfold len.
  rewrite length_firstn. lia.
Qed.

Lemma get_some_key {V : Type} (d : dict V) k v :
  get d k = Some v -> In k (keys d).
Proof. intros H. apply mem_keys, mem_get. eauto. Qed.

(** The candidates of a search are indexed: always when the search is not
    scoped, and when no chunk id was added under two documents. *)
Lemma candidates_indexed ops doc :
  doc = None \/ single_owner ops ->
  Forall (fun x => In x (keys (_chunks (run ops)))) (candidates (run ops) doc).
Proof.
  intros H. apply Forall_forall. intros x Hx. unfold candidates in Hx.
  destruct doc as [d|]; [|exact Hx].
  destruct (truthy d && mem (_doc_chunks (run ops)) d); [|exact Hx].
  destruct H as [H|H]; [discriminate|].
  destruct (get (_doc_chunks (run ops)) d) as [ids|] eqn:Hd; [|destruct Hx].
  destruct (run_lists_owned ops H d ids x Hd Hx) as (c & Hc & _).
  eapply get_some_key; eauto.
Qed.

(** On an index built by [add_chunks] and [remove_document] calls, a
    search with [top_k >= 0] returns [top_k] results, or one per candidate
    id if these are fewer; without a scope that is [total_chunks] of them.
    (For a scoped search: as long as no chunk id was added under two
    documents.) *)
Theorem search_result_count ops embed query doc top_k res :
  doc = None \/ single_owner ops ->
  0 <= top_k ->
  search embed (run ops) query doc top_k = Ok res ->
  len res = Z.min top_k (len (candidates (run ops) doc))
  /\ (doc = None -> len res = Z.min top_k (total_chunks (run ops))).
Proof.
  intros Hscope Hk Hrun.
  assert (Hlen : len res = Z.min top_k (len (candidates (run ops) doc))).
  { revert Hrun. rewrite search_as_scored. unfold scored, bind.
    destruct (embed [query] search_query) as [[|qe embs]|e];
      try discriminate.
    destruct (score_all (run ops) qe (candidates (run ops) doc) []) as [l|]
      eqn:Hl; [|discriminate].
    intros H; injection H as <-. rewrite len_slice_prefix by assumption.
    f_equal. unfold len. f_equal.
    rewrite <- (Permutation_length (sort_desc_perm l)).
    rewrite (score_all_length _ _ _ (inv_keys _ _ (run_index_inv ops))
               (candidates_indexed ops doc Hscope) _ _ Hl).
    reflexivity. }
  split; [exact Hlen|].
  intros ->. rewrite Hlen. unfold total_chunks, candidates, keys, len.
  now rewrite length_map.
Qed.

Lemma search_result_count_witness :
  exists res,
    search toy_embed (run three_chunks_ops) (py "x") None 2 = Ok res
    /\ len res = Z.min 2 (total_chunks (run three_chunks_ops)).
Proof.
  eexists. split; [vm_compute; reflexivity|].
  refine (proj2 (search_result_count three_chunks_ops toy_embed (py "x")
                   None 2 _ (or_introl eq_refl) _ _) eq_refl);
    [lia | vm_compute; reflexivity].
Defined.

End SearchResults.

(* ===================================================================== *)
(** * More on the index: adding, removing, listing *)
(* ===================================================================== *)

Section IndexUpdates.
Import Chunker Search SearchSpec IndexShape Inputs MoreInputs.

(** ** Removing *)

Lemma filter_comm {A : Type} (f g : A -> bool) (l : list A) :
  filter f (filter g l) = filter g (filter f l).
Proof.
  induction l as [|x l IH]; [reflexivity|]. cbn [filter].
  destruct (f x) eqn:Hf, (g x) eqn:Hg; cbn [filter];
    rewrite ?Hf, ?Hg, IH; reflexivity.
Qed.

Lemma pop_comm {V : Type} (d : dict V) k1 k2 :
  pop (pop d k1) k2 = pop (pop d k2) k1.
Proof. unfold pop. apply filter_comm. Qed.

Lemma get_pop_same {V : Type} (d : dict V) k : get (pop d k) k = None.
Proof. now rewrite get_pop, str_eqb_refl. Qed.

Lemma get_pop_other {V : Type} (d : dict V) k k' :
  k <> k' -> get (pop d k) k' = get d k'.
Proof. intros H. rewrite get_pop. apply str_eqb_neq in H. now rewrite H. Qed.

(** A removed document is unknown. *)
Lemma remove_document_forgets idx d :
  get (_doc_chunks (remove_document idx d)) d = None.
Proof.
  destruct (get (_doc_chunks idx) d) as [ids|] eqn:Hg.
  - rewrite (remove_document_known _ _ _ Hg). cbn [_doc_chunks].
    apply get_pop_same.
  - now rewrite remove_document_unknown.
Qed.

(** Another document keeps its list. *)
Lemma remove_document_keeps idx d d' :
  d <> d' ->
  get (_doc_chunks (remove_document idx d)) d' = get (_doc_chunks idx) d'.
Proof.
  intros Hd. destruct (get (_doc_chunks idx) d) as [ids|] eqn:Hg.
  - rewrite (remove_document_known _ _ _ Hg). cbn [_doc_chunks].
    now apply get_pop_other.
  - now rewrite remove_document_unknown.
Qed.

(** Removing a document twice is removing it once, and two removals can be
    made in either order, on any index. *)
Theorem remove_document_idempotent_commutes idx d1 d2 :
  remove_document (remove_document idx d1) d1 = remove_document idx d1
  /\ remove_document (remove_document idx d1) d2
     = remove_document (remove_document idx d2) d1.
Proof.
  split.
  - apply remove_document_unknown, remove_document_forgets.
  - destruct (str_eq_dec d1 d2) as [->|Hne]; [reflexivity|].
    destruct (get (_doc_chunks idx) d1) as [ids1|] eqn:H1,
             (get (_doc_chunks idx) d2) as [ids2|] eqn:H2.
    + assert (H21 : get (_doc_chunks (remove_document idx d1)) d2
                    = Some ids2)
        by (rewrite remove_document_keeps; auto).
      assert (H12 : get (_doc_chunks (remove_document idx d2)) d1
                    = Some ids1)
        by (rewrite remove_document_keeps; auto).
      rewrite (remove_document_known _ _ _ H21),
              (remove_document_known _ _ _ H12),
              (remove_document_known _ _ _ H1),
              (remove_document_known _ _ _ H2).
      cbn [_chunks _embeddings _doc_chunks]. f_equal.
      * apply filter_comm.
      * apply filter_comm.
      * apply pop_comm.
    + rewrite (remove_document_unknown idx d2 H2).
      apply remove_document_unknown.
      rewrite remove_document_keeps; auto.
    + rewrite (remove_document_unknown idx d1 H1). symmetry.
      apply remove_document_unknown.
      rewrite remove_document_keeps; auto.
    + now rewrite (remove_document_unknown idx d1 H1),
                  (remove_document_unknown idx d2 H2),
                  (remove_document_unknown idx d1 H1).
Qed.

(** ** Listing *)

Lemma set_set {V : Type} (d : dict V) k v0 v :
  set (set d k v0) k v = set d k v.
Proof.
  induction d as [|[k' v'] d IH]; cbn [set].
  - now rewrite str_eqb_refl.
  - destruct (str_eqb k' k) eqn:Hk; cbn [set]; rewrite Hk;
      [reflexivity|now rewrite IH].
Qed.

(** The document lists after one pass of the loop of [add_chunks]. *)
Lemma add_one_doc_chunks_set idx c e :
  _doc_chunks (add_one idx (c, e))
  = set (_doc_chunks idx) (doc_id c)
        (match get (_doc_chunks idx) (doc_id c) with
         | Some l => l
         | None => []
         end ++ [id c]).
Proof.
  unfold add_one. cbn [_doc_chunks]. unfold mem.
  destruct (get (_doc_chunks idx) (doc_id c)) as [l|] eqn:Hg.
  - now rewrite Hg.
  - now rewrite get_set_same, set_set.
Qed.

Lemma forall_values_set {V : Type} (Q : V -> Prop) (d : dict V) k v :
  Forall (fun kv => Q (snd kv)) d -> Q v ->
  Forall (fun kv => Q (snd kv)) (set d k v).
Proof.
  intros Hd Hv. induction Hd as [|[k' v'] d Hkv Hd IH]; cbn [set].
  - constructor; [exact Hv|constructor].
  - destruct (str_eqb k' k); constructor; auto.
Qed.

Lemma forall_pop {V : Type} (P : str * V -> Prop) (d : dict V) k :
  Forall P d -> Forall P (pop d k).
Proof.
  rewrite !Forall_forall. intros H x Hx. apply filter_In in Hx as [Hx _].
  auto.
Qed.

Lemma doc_lists_inv_empty : doc_lists_inv empty_index.
Proof. constructor; cbn; constructor. Qed.

Lemma doc_lists_inv_add_one idx ce :
  doc_lists_inv idx -> doc_lists_inv (add_one idx ce).
Proof.
  destruct ce as [c e]. intros [Hnd Hne].
  constructor; rewrite add_one_doc_chunks_set.
  - now apply nodup_keys_set.
  - apply (forall_values_set (fun l => l <> [])); [exact Hne|].
    intros H. apply app_eq_nil in H as [_ H]. discriminate.
Qed.

Lemma doc_lists_inv_remove idx d :
  doc_lists_inv idx -> doc_lists_inv (remove_document idx d).
Proof.
  intros [Hnd Hne]. destruct (get (_doc_chunks idx) d) as [ids|] eqn:Hg.
  - rewrite (remove_document_known _ _ _ Hg).
    constructor; cbn [_doc_chunks].
    + now apply nodup_keys_pop.
    + now apply forall_pop.
  - rewrite remove_document_unknown by assumption. now constructor.
Qed.

Lemma doc_lists_inv_fold l :
  forall idx, doc_lists_inv idx -> doc_lists_inv (fold_left add_one l idx).
Proof.
  induction l as [|ce l IH]; intros idx H; cbn [fold_left]; [exact H|].
  now apply IH, doc_lists_inv_add_one.
Qed.

Lemma doc_lists_inv_run_op idx o :
  doc_lists_inv idx -> doc_lists_inv (run_op idx o).
Proof.
  intros H. destruct o as [embed chunks|d]; cbn [run_op].
  - unfold add_chunks. destruct (negb (truthy chunks)); [exact H|].
    unfold bind.
    destruct (embed (map text chunks) search_document) as [embs|e];
      [|exact H].
    now apply doc_lists_inv_fold.
  - now apply doc_lists_inv_remove.
Qed.

Lemma doc_lists_inv_run ops : doc_lists_inv (run ops).
Proof.
  unfold run. induction ops as [|o ops IH] using rev_ind.
  - apply doc_lists_inv_empty.
  - rewrite fold_left_app. cbn [fold_left]. now apply doc_lists_inv_run_op.
Qed.

(** The counts add up to the number of listed ids. *)
Lemma listed_concat idx :
  listed idx = len (concat (map snd (_doc_chunks idx))).
Proof.
  unfold listed, list_documents, len.
  induction (_doc_chunks idx) as [|[k ids] d IH]; [reflexivity|].
  cbn [map fold_right chunk_count concat snd]. rewrite IH.
  unfold len. rewrite length_app. lia.
Qed.

Lemma listed_id {V : Type} (d : dict (list V)) k ids x :
  get d k = Some ids -> In x ids -> In x (concat (map snd d)).
Proof.
  intros Hg Hx. apply in_concat. exists ids. split; [|exact Hx].
  apply get_in in Hg. apply (in_map snd) in Hg. exact Hg.
Qed.

(** On an index built by [add_chunks] and [remove_document] calls,
    [list_documents] names no document twice and no document without a
    chunk, and its chunk counts add up to at least [total_chunks]. *)
Theorem list_documents_shape ops :
  NoDup (map entry_doc_id (list_documents (run ops)))
  /\ Forall (fun e => 1 <= chunk_count e) (list_documents (run ops))
  /\ total_chunks (run ops) <= listed (run ops).
Proof.
  destruct (doc_lists_inv_run ops) as [Hnd Hne].
  destruct (run_index_inv ops) as [_ Hkeys Hst].
  repeat split.
  - unfold list_documents. rewrite map_map. cbn [entry_doc_id]. exact Hnd.
  - unfold list_documents. apply Forall_map.
    eapply Forall_impl; [|exact Hne]. cbn. intros [k ids] H.
    cbn [snd] in *. unfold len. destruct ids; [congruence|cbn; lia].
  - rewrite listed_concat. unfold total_chunks, len.
    apply inj_le. rewrite <- (length_map fst).
    apply NoDup_incl_length; [exact Hkeys|].
    intros x Hx. apply mem_keys, mem_get in Hx as [c Hc].
    destruct (Hst x c Hc) as (_ & _ & ids & Hids & Hin).
    eapply listed_id; eauto.
Qed.

(** ** Adding *)

Lemma add_one_embeddings idx c e x :
  get (_embeddings (add_one idx (c, e))) x
  = if str_eqb (id c) x then Some e else get (_embeddings idx) x.
Proof. unfold add_one. cbn [_embeddings]. apply get_set. Qed.

Lemma last_with_id_snoc x l ce :
  last_with_id x (l ++ [ce])
  = if str_eqb (id (fst ce)) x then Some ce else last_with_id x l.
Proof. unfold last_with_id. rewrite rev_app_distr. reflexivity. Qed.

(** After the loop of [add_chunks] an id resolves to the last pair added
    under it, or to what it resolved to before. *)
Lemma fold_add_one_lookup l idx x :
  get (_chunks (fold_left add_one l idx)) x
  = match last_with_id x l with
    | Some ce => Some (fst ce)
    | None => get (_chunks idx) x
    end
  /\ get (_embeddings (fold_left add_one l idx)) x
     = match last_with_id x l with
       | Some ce => Some (snd ce)
       | None => get (_embeddings idx) x
       end.
Proof.
  induction l as [|[c e] l IH] using rev_ind; [split; reflexivity|].
  rewrite fold_left_app. cbn [fold_left].
  rewrite add_one_chunks, add_one_embeddings, last_with_id_snoc.
  cbn [fst snd]. destruct (str_eqb (id c) x); [split; reflexivity|].
  exact IH.
Qed.

(** What [add_chunks] does, as one fold over the zipped pairs. *)
Lemma add_chunks_as_fold embed idx chunks idx' n :
  add_chunks embed idx chunks = Ok (idx', n) ->
  n = len chunks
  /\ exists embs,
      (chunks = [] \/ embed (map text chunks) search_document = Ok embs)
      /\ idx' = fold_left add_one (combine chunks embs) idx.
Proof.
  unfold add_chunks. destruct chunks as [|c chunks]; cbn [truthy negb].
  - intros H; injection H as <- <-. split; [reflexivity|].
    exists []. auto.
  - unfold bind.
    destruct (embed (map text (c :: chunks)) search_document) as [embs|e];
      [|discriminate].
    intros H; injection H as <- <-. split; [reflexivity|].
    exists embs. auto.
Qed.

(** [add_chunks] pairs the chunks with the vectors of its embedding call,
    as far as both go. After it a chunk id resolves, in both mappings, to
    the last pair added under it (a later chunk with the same id replaces
    an earlier one), and every other id to what it resolved to before.
    The count returned is the number of chunks passed, paired or not. *)
Theorem add_chunks_lookup embed idx chunks idx' n :
  add_chunks embed idx chunks = Ok (idx', n) ->
  n = len chunks
  /\ exists embs,
      (chunks = [] \/ embed (map text chunks) search_document = Ok embs)
      /\ forall x,
          get (_chunks idx') x
          = match last_with_id x (combine chunks embs) with
            | Some ce => Some (fst ce)
            | None => get (_chunks idx) x
            end
          /\ get (_embeddings idx') x
             = match last_with_id x (combine chunks embs) with
               | Some ce => Some (snd ce)
               | None => get (_embeddings idx) x
               end.
Proof.
  intros H. destruct (add_chunks_as_fold _ _ _ _ _ H)
    as (Hn & embs & Hembs & ->).
  split; [exact Hn|]. exists embs. split; [exact Hembs|].
  intros x. apply fold_add_one_lookup.
Qed.

Lemma add_chunks_lookup_witness :
  exists idx',
    add_chunks toy_embed empty_index [chunk_x1; chunk_y] = Ok (idx', 2)
    /\ get (_chunks idx') (py "c2") = Some chunk_y
    /\ get (_embeddings idx') (py "c2") = Some (toy_vector (py "y")).
Proof.
  eexists. split; [vm_compute; reflexivity|].
  destruct (add_chunks_lookup toy_embed empty_index [chunk_x1; chunk_y]
              _ 2 eq_refl) as (_ & embs & [Hnil|Hembs] & Hget);
    [discriminate|].
  injection Hembs as <-. exact (Hget (py "c2")).
Defined.

(** ** Counting *)

Lemma concat_set_snoc {V : Type} (d : dict (list V)) k x :
  length (concat (map snd
            (set d k (match get d k with Some l => l | None => [] end
                      ++ [x]))))
  = S (length (concat (map snd d))).
Proof.
  induction d as [|[k' v'] d IH]; [reflexivity|].
  cbn [get set]. destruct (str_eqb k' k); cbn [map concat snd].
  - rewrite !length_app. cbn. lia.
  - rewrite !length_app, IH. lia.
Qed.

(** Each pass of the loop of [add_chunks] lists one more id. *)
Lemma listed_add_one idx ce : listed (add_one idx ce) = listed idx + 1.
Proof.
  destruct ce as [c e]. rewrite !listed_concat, add_one_doc_chunks_set.
  unfold len. rewrite concat_set_snoc. lia.
Qed.

Lemma listed_fold l :
  forall idx, listed (fold_left add_one l idx) = listed idx + len l.
Proof.
  unfold len. induction l as [|ce l IH]; intros idx; cbn [fold_left length];
    [lia|].
  rewrite IH, listed_add_one. lia.
Qed.

Lemma keys_fold_add_one l :
  forall idx,
    Forall (fun ce => In (id (fst ce)) (keys (_chunks idx))) l ->
    keys (_chunks (fold_left add_one l idx)) = keys (_chunks idx).
Proof.
  induction l as [|[c e] l IH]; intros idx Hall; cbn [fold_left];
    [reflexivity|].
  inversion Hall as [|? ? Hc Hl]; subst. cbn [fst] in Hc.
  assert (Hk : keys (_chunks (add_one idx (c, e))) = keys (_chunks idx)).
  { unfold add_one. cbn [_chunks]. rewrite keys_set.
    apply mem_keys in Hc. now rewrite Hc. }
  rewrite IH; [exact Hk|]. now rewrite Hk.
Qed.

(** The counts of [list_documents] count additions, not chunks: every
    chunk [add_chunks] pairs with a vector adds one to them, also a chunk
    whose id is indexed already, while chunks whose ids are all indexed
    already leave [total_chunks] as it was. *)
Theorem add_chunks_counts embed idx chunks embs idx' n :
  embed (map text chunks) search_document = Ok embs ->
  add_chunks embed idx chunks = Ok (idx', n) ->
  listed idx' = listed idx + Z.min (len chunks) (len embs)
  /\ (Forall (fun c => In (id c) (keys (_chunks idx))) chunks ->
      total_chunks idx' = total_chunks idx).
Proof.
  intros Hembs H.
  destruct (add_chunks_as_fold _ _ _ _ _ H)
    as (_ & embs' & [->|Hembs'] & ->).
  - cbn. split; [unfold len; cbn; lia|reflexivity].
  - rewrite Hembs in Hembs'. injection Hembs' as <-. split.
    + rewrite listed_fold. unfold len. rewrite length_combine. lia.
    + intros Hall. unfold total_chunks, len.
      rewrite <- !(length_map fst). fold (keys (_chunks idx)).
      change (map fst (_chunks ?i)) with (keys (_chunks i)).
      rewrite keys_fold_add_one; [reflexivity|].
      apply Forall_forall. intros [c e] Hin. cbn [fst].
      apply in_combine_l in Hin. rewrite Forall_forall in Hall. auto.
Qed.

Lemma add_chunks_counts_witness :
  exists idx',
    add_chunks toy_embed (run [AddChunks toy_embed [chunk_x1; chunk_y]])
               [chunk_x1; chunk_y] = Ok (idx', 2)
    /\ listed idx' = 4
    /\ total_chunks idx' = 2.
Proof.
  eexists. split; [vm_compute; reflexivity|].
  destruct (add_chunks_counts toy_embed
              (run [AddChunks toy_embed [chunk_x1; chunk_y]])
              [chunk_x1; chunk_y] _ _ 2 eq_refl eq_refl) as [H1 H2].
  split; [exact H1|]. apply H2.
  apply Forall_cons; [left; reflexivity|].
  apply Forall_cons; [right; left; reflexivity|]. apply Forall_nil.
Defined.

(** ** Adding a new document, then removing it *)

Lemma set_app_fresh {V : Type} (d1 d2 : dict V) k v :
  ~ In k (keys d1) -> set (d1 ++ d2) k v = d1 ++ set d2 k v.
Proof.
  induction d1 as [|[k' v'] d1 IH]; intros Hk; [reflexivity|].
  cbn [app set]. cbn in Hk.
  destruct (str_eqb k' k) eqn:E.
  - apply str_eqb_eq in E. tauto.
  - rewrite IH by tauto. reflexivity.
Qed.

Lemma get_app_fresh {V : Type} (d1 d2 : dict V) k :
  ~ In k (keys d1) -> get (d1 ++ d2) k = get d2 k.
Proof.
  induction d1 as [|[k' v'] d1 IH]; intros Hk; [reflexivity|].
  cbn [app get]. cbn in Hk.
  destruct (str_eqb k' k) eqn:E.
  - apply str_eqb_eq in E. tauto.
  - apply IH. tauto.
Qed.

Lemma filter_all {A : Type} (f : A -> bool) (l : list A) :
  (forall x, In x l -> f x = true) -> filter f l = l.
Proof.
  induction l as [|x l IH]; intros H; [reflexivity|]. cbn [filter].
  rewrite (H x) by now left. rewrite IH; [reflexivity|].
  intros y Hy. apply H. now right.
Qed.

Lemma filter_none {A : Type} (f : A -> bool) (l : list A) :
  (forall x, In x l -> f x = false) -> filter f l = [].
Proof.
  induction l as [|x l IH]; intros H; [reflexivity|]. cbn [filter].
  rewrite (H x) by now left. apply IH.
  intros y Hy. apply H. now right.
Qed.

Lemma add_one_chunks_set idx c e :
  _chunks (add_one idx (c, e)) = set (_chunks idx) (id c) c.
Proof. reflexivity. Qed.

Lemma add_one_embeddings_set idx c e :
  _embeddings (add_one idx (c, e)) = set (_embeddings idx) (id c) e.
Proof. reflexivity. Qed.

(** Chunks of a document the index does not know, under ids it does not
    hold, go to the end of the three mappings. *)
Lemma fold_add_one_fresh idx d l :
  ~ In d (keys (_doc_chunks idx)) ->
  Forall (fun ce => doc_id (fst ce) = d
                    /\ ~ In (id (fst ce)) (keys (_chunks idx))
                    /\ ~ In (id (fst ce)) (keys (_embeddings idx))) l ->
  exists nc ne,
    _chunks (fold_left add_one l idx) = _chunks idx ++ nc
    /\ _embeddings (fold_left add_one l idx) = _embeddings idx ++ ne
    /\ incl (keys nc) (pair_ids l)
    /\ incl (keys ne) (pair_ids l)
    /\ _doc_chunks (fold_left add_one l idx)
       = _doc_chunks idx
         ++ match l with [] => [] | _ :: _ => [(d, pair_ids l)] end.
Proof.
  intros Hd. induction l as [|[c e] l IH] using rev_ind; intros Hall.
  - exists [], []. cbn. rewrite !app_nil_r.
    repeat split; auto using incl_nil_l.
  - apply Forall_app in Hall as [Hl Hce].
    inversion Hce as [|? ? (Hdoc & Hc & He) _]; subst. cbn [fst] in *.
    destruct (IH Hl) as (nc & ne & Hnc & Hne & Hinc & Hine & Hdc).
    rewrite fold_left_app. cbn [fold_left].
    exists (set nc (id c) c), (set ne (id c) e).
    assert (Hids : pair_ids (l ++ [(c, e)]) = pair_ids l ++ [id c]).
    { unfold pair_ids. now rewrite map_app. }
    assert (Hgrow : forall {V : Type} (n : dict V) (v : V),
               incl (keys n) (pair_ids l) ->
               incl (keys (set n (id c) v)) (pair_ids (l ++ [(c, e)]))).
    { intros V n v Hn. rewrite keys_set, Hids.
      destruct (mem n (id c)).
      - now apply incl_appl.
      - apply incl_app; [now apply incl_appl|].
        apply incl_appr, incl_refl. }
    repeat split.
    + rewrite add_one_chunks_set, Hnc. now apply set_app_fresh.
    + rewrite add_one_embeddings_set, Hne. now apply set_app_fresh.
    + now apply Hgrow.
    + now apply Hgrow.
    + rewrite add_one_doc_chunks_set, Hdc.
      rewrite get_app_fresh, set_app_fresh by assumption.
      f_equal. rewrite Hids.
      destruct l as [|ce l]; cbn [app get set].
      * reflexivity.
      * rewrite str_eqb_refl. reflexivity.
Qed.

(** Indexing the chunks of a document the index does not know, under
    chunk ids it does not hold, and then removing that document gives back
    the index as it was, whatever the embedding call returned. *)
Theorem add_then_remove_restores embed idx chunks idx' n d :
  ~ In d (keys (_doc_chunks idx)) ->
  Forall (fun c => doc_id c = d
                   /\ ~ In (id c) (keys (_chunks idx))
                   /\ ~ In (id c) (keys (_embeddings idx))) chunks ->
  add_chunks embed idx chunks = Ok (idx', n) ->
  remove_document idx' d = idx.
Proof.
  intros Hd Hall H.
  destruct (add_chunks_as_fold _ _ _ _ _ H) as (_ & embs & _ & ->).
  destruct (fold_add_one_fresh idx d (combine chunks embs) Hd)
    as (nc & ne & Hnc & Hne & Hinc & Hine & Hdc).
  { apply Forall_forall. intros [c e] Hin. cbn [fst].
    apply in_combine_l in Hin. rewrite Forall_forall in Hall. auto. }
  assert (Hfresh : forall x, In x (pair_ids (combine chunks embs)) ->
                             ~ In x (keys (_chunks idx))
                             /\ ~ In x (keys (_embeddings idx))).
  { intros x Hx. apply in_map_iff in Hx as ([c e] & <- & Hin).
    cbn [fst]. apply in_combine_l in Hin.
    rewrite Forall_forall in Hall. now apply Hall. }
  destruct (combine chunks embs) as [|ce l] eqn:Hl.
  - cbn [fold_left]. apply remove_document_unknown.
    now apply get_none_keys.
  - set (idx1 := fold_left add_one (ce :: l) idx) in *.
    set (ids := pair_ids (ce :: l)) in *.
    assert (Hg : get (_doc_chunks idx1) d = Some ids).
    { rewrite Hdc, get_app_fresh by assumption. cbn [get].
      now rewrite str_eqb_refl. }
    rewrite (remove_document_known _ _ _ Hg), Hnc, Hne, Hdc.
    unfold pop. rewrite !filter_app.
    rewrite (filter_all _ (_chunks idx)), (filter_none _ nc),
            (filter_all _ (_embeddings idx)), (filter_none _ ne),
            (filter_all _ (_doc_chunks idx)).
    + cbn [filter fst]. rewrite str_eqb_refl. cbn [negb].
      rewrite !app_nil_r. destruct idx; reflexivity.
    + intros [k v] Hin. cbn [fst]. apply negb_true_iff, str_eqb_neq.
      intros ->. apply Hd. apply (in_map fst) in Hin. exact Hin.
    + intros [k v] Hin. cbn [fst]. apply negb_false_iff, existsb_str_in.
      apply Hine. apply (in_map fst) in Hin. exact Hin.
    + intros [k v] Hin. cbn [fst]. apply negb_true_iff.
      destruct (existsb (str_eqb k) ids) eqn:E; [|reflexivity].
      apply existsb_str_in in E. apply Hfresh in E as [_ E].
      exfalso. apply E. apply (in_map fst) in Hin. exact Hin.
    + intros [k v] Hin. cbn [fst]. apply negb_false_iff, existsb_str_in.
      apply Hinc. apply (in_map fst) in Hin. exact Hin.
    + intros [k v] Hin. cbn [fst]. apply negb_true_iff.
      destruct (existsb (str_eqb k) ids) eqn:E; [|reflexivity].
      apply existsb_str_in in E. apply Hfresh in E as [E _].
      exfalso. apply E. apply (in_map fst) in Hin. exact Hin.
Qed.

Lemma add_then_remove_restores_witness :
  exists idx',
    add_chunks toy_embed (run [AddChunks toy_embed [chunk_x1; chunk_y]])
               [chunk_x2] = Ok (idx', 1)
    /\ idx' <> run [AddChunks toy_embed [chunk_x1; chunk_y]]
    /\ remove_document idx' (py "doc_b")
       = run [AddChunks toy_embed [chunk_x1; chunk_y]].
Proof.
  eexists. split; [vm_compute; reflexivity|].
  split; [vm_compute; discriminate|].
  apply (add_then_remove_restores toy_embed _ [chunk_x2] _ 1).
  - vm_compute. intros [H|[]]. discriminate.
  - apply Forall_cons; [|apply Forall_nil].
    split; [reflexivity|].
    split; vm_compute; intros [H|[H|[]]]; discriminate.
  - vm_compute. reflexivity.
Defined.

(** ** When the counts are right *)

Lemma in_get {V : Type} (d : dict V) k v :
  NoDup (keys d) -> In (k, v) d -> get d k = Some v.
Proof.
  induction d as [|[k' v'] d IH]; intros Hnd Hin; [destruct Hin|].
  cbn in Hnd. inversion Hnd as [|? ? Hk' Hd]; subst. cbn [get].
  destruct Hin as [Heq|Hin].
  - injection Heq as -> ->. now rewrite str_eqb_refl.
  - destruct (str_eqb k' k) eqn:E; [|auto].
    apply str_eqb_eq in E as ->. exfalso. apply Hk'.
    apply (in_map fst) in Hin. exact Hin.
Qed.

(** Listing one more id under a document: the listed ids and the new one,
    in some order. *)
Lemma concat_set_snoc_perm {V : Type} (d : dict (list V)) k x :
  Permutation
    (concat (map snd
       (set d k (match get d k with Some l => l | None => [] end ++ [x]))))
    (x :: concat (map snd d)).
Proof.
  induction d as [|[k' v'] d IH]; [reflexivity|].
  cbn [get set]. destruct (str_eqb k' k); cbn [map concat snd].
  - rewrite <- app_assoc. cbn [app].
    symmetry. apply Permutation_middle.
  - rewrite IH. symmetry. apply Permutation_middle.
Qed.

Lemma nodup_app_inv {A : Type} (l1 l2 : list A) :
  NoDup (l1 ++ l2) ->
  NoDup l1 /\ NoDup l2 /\ (forall a, In a l1 -> ~ In a l2).
Proof.
  intros H. split; [eapply NoDup_app_remove_r; eauto|].
  split; [eapply NoDup_app_remove_l; eauto|].
  induction l1 as [|x l1 IH]; intros a Ha; [destruct Ha|].
  cbn [app] in H. inversion H as [|? ? Hx Hrest]; subst.
  destruct Ha as [<-|Ha]; [|now apply (IH Hrest)].
  intros Hin. apply Hx. apply in_or_app. now right.
Qed.

Lemma nodup_concat_filter {K V : Type} (f : K * list V -> bool)
      (d : list (K * list V)) :
  NoDup (concat (map snd d)) -> NoDup (concat (map snd (filter f d))).
Proof.
  induction d as [|kv d IH]; intros H; [exact H|].
  cbn [map concat] in H. cbn [filter].
  destruct (f kv); [|apply IH; apply (NoDup_app_remove_l _ _ H)].
  cbn [map concat]. apply nodup_app_inv in H as (H1 & H2 & H3).
  apply NoDup_app; [exact H1 | exact (IH H2) |].
  intros x Hx Hin. apply (H3 x Hx).
  apply in_concat in Hin as (ids & Hids & Hin).
  apply in_map_iff in Hids as (kv' & <- & Hkv').
  apply filter_In in Hkv' as [Hkv' _].
  apply in_concat. exists (snd kv'). split; [now apply in_map|exact Hin].
Qed.

(** The loop of [add_chunks] on new, distinct ids lists no id twice. *)
Lemma nodup_listed_fold l :
  forall idx seen,
    NoDup (concat (map snd (_doc_chunks idx))) ->
    incl (concat (map snd (_doc_chunks idx))) seen ->
    NoDup (pair_ids l) ->
    (forall x, In x (pair_ids l) -> ~ In x seen) ->
    NoDup (concat (map snd (_doc_chunks (fold_left add_one l idx)))).
Proof.
  induction l as [|[c e] l IH]; intros idx seen Hnd Hincl Hids Hnew;
    cbn [fold_left]; [exact Hnd|].
  cbn in Hids. inversion Hids as [|? ? Hc Hl]; subst.
  assert (Hperm := concat_set_snoc_perm (_doc_chunks idx) (doc_id c) (id c)).
  rewrite <- add_one_doc_chunks_set with (e := e) in Hperm.
  apply (IH _ (id c :: seen)).
  - apply (Permutation_NoDup (Permutation_sym Hperm)).
    constructor; [|exact Hnd].
    intros Hin. apply (Hnew (id c)); [now left|auto].
  - intros x Hx. apply (Permutation_in _ Hperm) in Hx as [<-|Hx];
      [now left|right; auto].
  - exact Hl.
  - intros x Hx [<-|Hin]; [contradiction|].
    apply (Hnew x); [now right|exact Hin].
Qed.

Lemma pair_ids_combine chunks (embs : list vector) :
  pair_ids (combine chunks embs) = firstn (length embs) (map id chunks).
Proof.
  revert embs. induction chunks as [|c chunks IH]; intros [|e embs];
    cbn; try reflexivity.
  f_equal. apply IH.
Qed.

Lemma nodup_firstn {A : Type} (n : nat) (l : list A) :
  NoDup l -> NoDup (firstn n l).
Proof.
  intros H. rewrite <- (firstn_skipn n l) in H.
  eapply NoDup_app_remove_r; eauto.
Qed.

Lemma in_firstn {A : Type} (n : nat) (l : list A) x :
  In x (firstn n l) -> In x l.
Proof.
  intros H. rewrite <- (firstn_skipn n l). apply in_or_app. now left.
Qed.

Lemma distinct_ids_single_owner ops :
  NoDup (map id (added ops)) -> single_owner ops.
Proof.
  intros Hnd c1 c2 H1 H2 Hid.
  apply In_nth_error in H1 as [i Hi]. apply In_nth_error in H2 as [j Hj].
  assert (i = j).
  { apply (proj1 (NoDup_nth_error (map id (added ops))) Hnd).
    - apply nth_error_Some. rewrite nth_error_map, Hi. discriminate.
    - rewrite !nth_error_map, Hi, Hj. cbn [option_map]. now rewrite Hid. }
  subst j. rewrite Hi in Hj. now injection Hj as ->.
Qed.

(** Every listed id is indexed, so comes from an added chunk. *)
Lemma listed_ids_indexed ops x :
  single_owner ops ->
  In x (concat (map snd (_doc_chunks (run ops)))) ->
  exists c, get (_chunks (run ops)) x = Some c.
Proof.
  intros Hown Hx. apply in_concat in Hx as (ids & Hids & Hx).
  apply in_map_iff in Hids as ([d ids'] & <- & Hin). cbn [snd] in Hx.
  apply in_get in Hin; [|apply doc_lists_inv_run].
  destruct (run_lists_owned ops Hown d ids' x Hin Hx) as (c & Hc & _).
  eauto.
Qed.

Lemma listed_ids_added ops :
  single_owner ops ->
  incl (concat (map snd (_doc_chunks (run ops)))) (map id (added ops)).
Proof.
  intros Hown x Hx.
  destruct (listed_ids_indexed ops x Hown Hx) as [c Hc].
  destruct (inv_stored _ _ (run_index_inv ops) x c Hc) as (<- & HU & _).
  now apply in_map.
Qed.

Lemma nodup_listed_run ops :
  NoDup (map id (added ops)) ->
  NoDup (concat (map snd (_doc_chunks (run ops)))).
Proof.
  induction ops as [|o ops IH] using rev_ind; intros Hnd;
    [constructor|].
  rewrite added_app, map_app in Hnd.
  pose proof (NoDup_app_remove_r _ _ Hnd) as Hold.
  specialize (IH Hold).
  unfold run. rewrite fold_left_app. cbn [fold_left]. fold (run ops).
  destruct o as [embed chunks|d]; cbn [run_op].
  - unfold add_chunks. destruct (negb (truthy chunks)); [exact IH|].
    unfold bind.
    destruct (embed (map text chunks) search_document) as [embs|e];
      [|exact IH].
    cbn [added flat_map] in Hnd. rewrite app_nil_r in Hnd.
    apply nodup_app_inv in Hnd as (_ & Hnew & Hdisj).
    apply (nodup_listed_fold _ _ (map id (added ops))); auto.
    + apply listed_ids_added. now apply distinct_ids_single_owner.
    + rewrite pair_ids_combine. now apply nodup_firstn.
    + intros x Hx Hin. rewrite pair_ids_combine in Hx.
      apply in_firstn in Hx. exact (Hdisj x Hin Hx).
  - destruct (get (_doc_chunks (run ops)) d) as [ids|] eqn:Hg.
    + rewrite (remove_document_known _ _ _ Hg). cbn [_doc_chunks].
      now apply nodup_concat_filter.
    + now rewrite remove_document_unknown.
Qed.

Lemma nodup_concat_member {A : Type} (L : list (list A)) l :
  NoDup (concat L) -> In l L -> NoDup l.
Proof.
  induction L as [|l0 L IH]; intros Hnd Hin; [destruct Hin|].
  cbn [concat] in Hnd. apply nodup_app_inv in Hnd as (H0 & HL & _).
  destruct Hin as [->|Hin]; auto.
Qed.

Lemma nodup_keys_filter {V : Type} (f : str * V -> bool) (d : dict V) :
  NoDup (keys d) -> NoDup (keys (filter f d)).
Proof.
  unfold keys. induction d as [|kv d IH]; intros H; [exact H|].
  cbn [map] in H. inversion H as [|? ? Hk Hd]; subst. cbn [filter].
  destruct (f kv); [|auto]. cbn [map]. constructor; [|auto].
  intros Hin. apply Hk. apply in_map_iff in Hin as (kv' & Heq & Hin).
  apply filter_In in Hin as [Hin _]. rewrite <- Heq. now apply in_map.
Qed.

(** When no chunk id is added twice, a document's list holds exactly the
    ids of its indexed chunks, each once. *)
Lemma doc_list_is_chunks_of ops d ids :
  NoDup (map id (added ops)) ->
  get (_doc_chunks (run ops)) d = Some ids ->
  Permutation ids (keys (chunks_of (run ops) d)).
Proof.
  intros Hnd Hg.
  pose proof (distinct_ids_single_owner ops Hnd) as Hown.
  destruct (run_index_inv ops) as [_ Hkeys Hst].
  apply NoDup_Permutation.
  - apply (nodup_concat_member (map snd (_doc_chunks (run ops))));
      [now apply nodup_listed_run|].
    apply get_in in Hg. apply (in_map snd) in Hg. exact Hg.
  - now apply nodup_keys_filter.
  - intros x. split.
    + intros Hx.
      destruct (run_lists_owned ops Hown d ids x Hg Hx) as (c & Hc & Hdoc).
      apply get_in in Hc. unfold keys, chunks_of.
      apply in_map_iff. exists (x, c). split; [reflexivity|].
      apply filter_In. split; [exact Hc|]. cbn [snd].
      now apply str_eqb_eq.
    + intros Hx. apply in_map_iff in Hx as ([k c] & <- & Hin).
      apply filter_In in Hin as [Hin Hdoc]. cbn [fst snd] in *.
      apply str_eqb_eq in Hdoc. apply in_get in Hin; [|exact Hkeys].
      destruct (Hst k c Hin) as (_ & _ & ids' & Hids' & Hk).
      rewrite Hdoc, Hg in Hids'. now injection Hids' as <-.
Qed.

(** On an index built by calls in which no chunk id is added twice, the
    chunk count [list_documents] gives for a document is the number of
    indexed chunks of that document, and the counts add up to
    [total_chunks]. *)
Theorem list_documents_counts_chunks ops :
  NoDup (map id (added ops)) ->
  Forall (fun e => chunk_count e
                   = len (chunks_of (run ops) (entry_doc_id e)))
         (list_documents (run ops))
  /\ listed (run ops) = total_chunks (run ops).
Proof.
  intros Hnd.
  pose proof (distinct_ids_single_owner ops Hnd) as Hown.
  split.
  - unfold list_documents. apply Forall_map, Forall_forall.
    intros [d ids] Hin. cbn [entry_doc_id chunk_count fst snd].
    apply in_get in Hin; [|apply doc_lists_inv_run].
    unfold len.
    rewrite (Permutation_length (doc_list_is_chunks_of ops d ids Hnd Hin)).
    unfold keys. now rewrite length_map.
  - rewrite listed_concat. unfold total_chunks, len. f_equal.
    rewrite <- (length_map fst (_chunks (run ops))).
    apply Permutation_length, NoDup_Permutation.
    + now apply nodup_listed_run.
    + apply (inv_nodup _ _ (run_index_inv ops)).
    + intros x. split.
      * intros Hx.
        destruct (listed_ids_indexed ops x Hown Hx) as [c Hc].
        eapply get_some_key; eauto.
      * intros Hx. apply mem_keys, mem_get in Hx as [c Hc].
        destruct (inv_stored _ _ (run_index_inv ops) x c Hc)
          as (_ & _ & ids & Hids & Hin).
        eapply listed_id; eauto.
Qed.

Lemma list_documents_counts_chunks_witness :
  NoDup (map id (added three_chunks_ops))
  /\ list_documents (run three_chunks_ops)
     = [mkEntry (py "doc_a") 2; mkEntry (py "doc_b") 1]
  /\ listed (run three_chunks_ops) = total_chunks (run three_chunks_ops).
Proof.
  assert (H : NoDup (map id (added three_chunks_ops))).
  { vm_compute.
    repeat (apply NoDup_cons; [cbn; intuition discriminate|]).
    apply NoDup_nil. }
  split; [exact H|]. split; [vm_compute; reflexivity|].
  exact (proj2 (list_documents_counts_chunks three_chunks_ops H)).
Defined.

End IndexUpdates.

(* ===================================================================== *)
(** * More on the similarity: symmetry *)
(* ===================================================================== *)

Section CosineSymmetry.
Import Search SearchSpec.

(** Binary64 multiplication commutes, rounding included. *)
Lemma float_mul_comm (x y : float) : (x * y = y * x)%float.
Proof.
  apply Prim2SF_inj. rewrite !mul_spec.
  destruct (Prim2SF x) as [sx|sx| |sx mx ex],
           (Prim2SF y) as [sy|sy| |sy my ey];
    cbn; try reflexivity; rewrite ?(xorb_comm sx sy); try reflexivity.
  now rewrite (Pos.mul_comm mx my), (Z.add_comm ex ey).
Qed.

Lemma dot_product_comm a b : dot_product a b = dot_product b a.
Proof.
  unfold dot_product. f_equal. revert b.
  induction a as [|x a IH]; intros [|y b]; cbn [combine map];
    try reflexivity.
  cbn [fst snd]. now rewrite float_mul_comm, IH.
Qed.

Lemma cosine_similarity_comm a b :
  _cosine_similarity a b = _cosine_similarity b a.
Proof.
  unfold _cosine_similarity. rewrite !math_sqrt_sum_squares. cbn [bind].
  rewrite orb_comm, dot_product_comm.
  now rewrite (float_mul_comm (PrimFloat.sqrt (sum_squares a))).
Qed.

(** The similarity does not depend on the order of its arguments: both
    orders return, and they return NaN both, or the same float that is not
    NaN (also where it is rounded or infinite, and with the same sign of
    zero). The floats of the model have one NaN; the sign and payload bits
    of a NaN are not modelled and nothing is said of them. *)
Theorem cosine_similarity_symmetric a b :
  exists s s',
    _cosine_similarity a b = Ok s
    /\ _cosine_similarity b a = Ok s'
    /\ (is_nan s = true /\ is_nan s' = true
        \/ is_nan s = false /\ s = s').
Proof.
  destruct (cosine_similarity_total a b) as [s Hs].
  exists s, s. rewrite (cosine_similarity_comm b a).
  split; [exact Hs|]. split; [exact Hs|].
  destruct (is_nan s); auto.
Qed.

End CosineSymmetry.

(* ===================================================================== *)
(** * Splitting and joining *)
(* ===================================================================== *)

Section SplitFacts.
Import PySplit.

Lemma split_from_nonempty sep s :
  forall skip cur, split_from sep skip cur s <> [].
Proof.
  induction s as [|c s IH]; intros skip cur; cbn [split_from];
    [discriminate|].
  destruct skip; [|apply IH].
  destruct (starts_with sep (c :: s)); [discriminate|apply IH].
Qed.

Lemma join_cons sep x l :
  l <> [] -> join sep (x :: l) = x ++ sep ++ join sep l.
Proof. destruct l; [congruence|reflexivity]. Qed.

Lemma starts_with_prefix sub s :
  starts_with sub s = true -> s = sub ++ skipn (length sub) s.
Proof.
  revert s. induction sub as [|x sub IH]; intros s H; [reflexivity|].
  destruct s as [|y s]; [discriminate|]. cbn [starts_with] in H.
  apply andb_true_iff in H as [Hx Hs]. apply N.eqb_eq in Hx as ->.
  cbn [length skipn app]. f_equal. now apply IH.
Qed.


(** Joining the pieces of a split gives back what was split. *)
Lemma join_split_from sep s :
  sep <> [] ->
  forall skip cur,
    join sep (split_from sep skip cur s) = rev cur ++ skipn skip s.
Proof.
  intros Hsep. induction s as [|c s IH]; intros skip cur;
    cbn [split_from].
  - cbn [join]. now rewrite skipn_nil, app_nil_r.
  - destruct skip as [|k]; [|now rewrite IH].
    cbn [skipn]. destruct (starts_with sep (c :: s)) eqn:Hs.
    + rewrite join_cons by apply split_from_nonempty.
      rewrite IH. cbn [rev app]. f_equal.
      transitivity (sep ++ skipn (length sep) (c :: s));
        [|symmetry; now apply starts_with_prefix].
      f_equal. destruct sep as [|x sep']; [congruence|].
      cbn [length skipn]. f_equal. lia.
    + rewrite IH. cbn [rev skipn]. now rewrite <- app_assoc.
Qed.

(** [sep.join(s.split(sep)) == s] *)
Lemma join_split sep s pieces :
  split s sep = Ok pieces -> join sep pieces = s.
Proof.
  unfold split. destruct sep as [|x sep']; [discriminate|].
  intros H; injection H as <-. now rewrite join_split_from.
Qed.


(** Whitespace between two texts separates their words. *)
Lemma count_words_app a r b ws :
  is_space ws = true ->
  count_words b (a ++ ws :: r) = count_words b a + count_words false r.
Proof.
  intros Hws. revert b. induction a as [|c a IH]; intros b;
    cbn [app count_words].
  - rewrite Hws. lia.
  - destruct (is_space c); rewrite IH; lia.
Qed.

End SplitFacts.

(* ===================================================================== *)
(** * The server's tools *)
(* ===================================================================== *)

Section ServerFacts.
Import Chunker ChunkerSpec ChunkShape Search SearchSpec IndexShape.
Import PySplit Parsers Server ServerSpec Inputs MoreInputs.

(** ** The cache of parsed documents *)

Lemma cached_known srv k d :
  get (_parsed_cache srv) k = Some d -> cached srv k = (Returned d, srv).
Proof. intros H. unfold cached. now rewrite H. Qed.

(** What [_get_or_parse] returns is in the cache afterwards, under the
    document id of the path; if it raises, the server is as it was. *)
Lemma get_or_parse_cases parse srv path :
  (exists d srv' k,
      _get_or_parse parse srv path = (Returned d, srv')
      /\ _doc_id path = Ok k
      /\ get (_parsed_cache srv') k = Some d
      /\ srv_index srv' = srv_index srv)
  \/ exists e, _get_or_parse parse srv path = (Failed e, srv).
Proof.
  unfold _get_or_parse, mem.
  destruct (_doc_id path) as [k|e]; [|right; eauto].
  destruct (get (_parsed_cache srv) k) as [d|] eqn:Hg; cbn [negb].
  - left. exists d, srv, k. now rewrite (cached_known _ _ _ Hg).
  - destruct (parse path) as [d|e]; [|right; eauto].
    left. eexists d, _, k.
    rewrite (cached_known _ _ d) by apply get_set_same.
    split; [reflexivity|]. split; [reflexivity|].
    cbn [_parsed_cache srv_index]. now rewrite get_set_same.
Qed.



(** ** [chunk_document] *)

Lemma chunk_text_indexed fuel txt doc cs ov sep l :
  chunk_text fuel txt doc cs ov sep = Some (Ok l) -> indexed_from_zero l.
Proof.
  intros Hrun.
  destruct (chunk_text_ok_cases _ _ _ _ _ _ _ Hrun)
    as [[_ ->]|(_ & Hcs & Hov & Hloop)].
  { intros [|n] c H; discriminate. }
  revert Hloop.
  apply (while_loop_invariant txt doc cs ov sep (loop_inv txt)
           indexed_from_zero).
  - intros st st' Hinv _ Hb. eapply loop_inv_next; eauto.
  - intros st r Hinv _ Hb.
    destruct (loop_body_cases txt doc cs ov sep st
              ltac:(intros ? ?; congruence))
      as (chunks & idx & Hemit & [[_ Hbr]|[_ (start' & Hnx & _)]]);
      [|congruence].
    rewrite Hbr in Hb. injection Hb as <-.
    destruct Hemit as [(_ & -> & _)|(_ & -> & _)]; [apply Hinv|].
    apply indexed_snoc; [apply Hinv|].
    unfold emitted. cbn [index]. apply Hinv.
  - intros st Hinv _. apply Hinv.
  - apply loop_inv_init.
Qed.

(** What the chunker guarantees of a chunk, as far as the response shows
    it. *)
Lemma preview_of_chunk c :
  hex_string 12 (id c) ->
  text c <> [] -> strip (text c) = text c ->
  get (metadata c) (py "word_count") = Some (word_count (text c)) ->
  preview_ok (preview c).
Proof.
  intros Hid Hne Htrim Hwc. unfold preview_ok, preview.
  cbn [p_id p_text p_word_count]. split; [exact Hid|]. split.
  - destruct (Z.ltb_spec 200 (len (text c))); [|lia].
    pose proof (len_slice_prefix (text c) 200 ltac:(lia)) as Hs.
    unfold len in *. rewrite length_app. cbn [length py]. lia.
  - unfold get_default. rewrite Hwc, <- Htrim.
    apply word_count_strip. now rewrite Htrim.
Qed.

Lemma indexed_previews l :
  indexed_from_zero l ->
  forall n p, nth_error (map preview l) n = Some p -> p_index p = Z.of_nat n.
Proof.
  intros Hl n p. rewrite nth_error_map.
  destruct (nth_error l n) as [c|] eqn:Hc; [|discriminate].
  intros H; injection H as <-. cbn [preview p_index]. now apply Hl.
Qed.

(** The chunks [chunk_document] makes of a parsed document. *)
Lemma chunked_document fuel doc d cs ov chunks :
  (if truthy (doc_pages doc) then
     chunk_by_pages fuel (doc_pages doc) d cs ov
   else chunk_text fuel (doc_text doc) d cs ov newline) = Some (Ok chunks) ->
  indexed_from_zero chunks
  /\ Forall (fun c => doc_id c = d /\ preview_ok (preview c)) chunks.
Proof.
  destruct (truthy (doc_pages doc)); intros Hrun.
  - destruct (chunk_by_pages_fields _ _ _ _ _ _ Hrun) as (Hix & Hon & Hid).
    split; [exact Hix|].
    rewrite Forall_forall in *. intros c Hc.
    destruct (Hon c Hc) as (p & page_text & _ & Hdoc & Htext & Hne & _ & _
                            & Hmeta).
    split; [exact Hdoc|]. apply preview_of_chunk; auto.
    + rewrite Htext. apply strip_idempotent.
    + rewrite Hmeta. reflexivity.
  - split; [eapply chunk_text_indexed; eauto|].
    revert Hrun. apply chunk_text_forall_emitted.
    intros st Hcs Hstart Hne.
    destruct (emitted_well_formed (doc_text doc) d cs newline st Hcs Hstart Hne)
      as [Hdoc _ Hne' Htrim _ _ _ Hmeta _].
    split; [exact Hdoc|].
    apply preview_of_chunk; auto.
    unfold emitted. cbn [id]. apply chunk_id_format.
Qed.

Lemma doc_id_format path k : _doc_id path = Ok k -> hex_string 16 k.
Proof.
  unfold _doc_id. destruct (encode path) as [bytes|e]; cbn [bind];
    [|discriminate].
  intros H; injection H as <-.
  apply (hex_string_prefix 64); [lia|]. apply hexdigest_format.
Qed.

(** When [chunk_document] returns, with or without indexing: the
    document id of the response is the 16 hexadecimal digits cut from the
    hash of the path, [total_chunks] is the number of entries of
    [chunks], the entries carry the indices 0, 1, ... in order, each has
    a 12-digit chunk id, a text of at most 203 characters and a word
    count of at least 1, and the parsed document is in the cache. *)
Theorem chunk_document_response parse embed fuel srv path cs ov ix r srv' :
  chunk_document parse embed fuel srv path cs ov ix = Some (Returned r, srv') ->
  _doc_id path = Ok (r_doc_id r)
  /\ hex_string 16 (r_doc_id r)
  /\ r_total_chunks r = len (r_chunks r)
  /\ Forall preview_ok (r_chunks r)
  /\ (forall n p, nth_error (r_chunks r) n = Some p -> p_index p = Z.of_nat n)
  /\ exists d, get (_parsed_cache srv') (r_doc_id r) = Some d.
Proof.
  unfold chunk_document.
  destruct (get_or_parse_cases parse srv path)
    as [(d & srv1 & k & -> & Hk & Hg & _)|(e & ->)]; [|discriminate].
  rewrite Hk.
  destruct (if truthy (doc_pages d) then _ else _) as [[chunks|e]|]
    eqn:Hch; try discriminate.
  destruct (chunked_document _ _ _ _ _ _ Hch) as [Hix Hall].
  assert (Hshape :
            forall srv2,
              Some (Returned (mkChunkResponse k (len chunks)
                                (map preview chunks)), srv2)
              = Some (Returned r, srv') ->
              _parsed_cache srv2 = _parsed_cache srv1 ->
              _doc_id path = Ok (r_doc_id r)
              /\ hex_string 16 (r_doc_id r)
              /\ r_total_chunks r = len (r_chunks r)
              /\ Forall preview_ok (r_chunks r)
              /\ (forall n p, nth_error (r_chunks r) n = Some p ->
                              p_index p = Z.of_nat n)
              /\ exists d, get (_parsed_cache srv') (r_doc_id r) = Some d).
  { intros srv2 H Hcache. injection H as <- <-.
    cbn [r_doc_id r_total_chunks r_chunks].
    split; [exact Hk|]. split; [now apply (doc_id_format path)|].
    split; [unfold len; now rewrite List.length_map|].
    split; [|split; [now apply indexed_previews|]].
    - apply Forall_map. eapply Forall_impl; [|exact Hall].
      cbn. tauto.
    - exists d. now rewrite Hcache. }
  destruct ix; [|intros H; rewrite <- Hk; now apply (Hshape srv1)].
  destruct (add_chunks embed (srv_index srv1) chunks) as [[idx' n]|e];
    [|discriminate].
  intros H. rewrite <- Hk. now apply (Hshape _ H).
Qed.

Lemma chunk_document_response_witness :
  exists r srv',
    chunk_document toy_parse toy_embed 20 new_server (py "/t.txt") 6 1 true
    = Some (Returned r, srv')
    /\ r_total_chunks r = 3
    /\ Forall preview_ok (r_chunks r).
Proof.
  eexists. eexists. split; [vm_compute; reflexivity|].
  split; [reflexivity|].
  refine (proj1 (proj2 (proj2 (proj2
            (chunk_document_response toy_parse toy_embed 20 new_server
               (py "/t.txt") 6 1 true _ _ _))))).
  vm_compute. reflexivity.
Defined.

(** ** [chunk_document] and the index *)





(** ** [summarize_document] without the remote model *)







(** ** What the parsers count *)

Lemma count_words_blank_line b x r :
  count_words b (x ++ blank_line ++ r)
  = count_words b x + count_words false r.
Proof.
  unfold blank_line. cbn [app].
  now rewrite count_words_app by reflexivity.
Qed.

Lemma word_count_join l : word_count (join blank_line l) = total_words l.
Proof.
  unfold total_words, word_count.
  induction l as [|x l IH]; [reflexivity|].
  destruct l as [|y l].
  - cbn [join map fold_right]. lia.
  - rewrite join_cons by discriminate.
    rewrite count_words_blank_line, IH. reflexivity.
Qed.

Lemma blank_no_words s : strip s = [] -> word_count s = 0.
Proof.
  intros H. apply strip_nil in H. unfold word_count, blank in *.
  generalize false. induction s as [|c s IH]; intros b; [reflexivity|].
  cbn [forallb] in H. apply andb_true_iff in H as [Hc Hs].
  cbn [count_words]. rewrite Hc. now apply IH.
Qed.

Lemma total_words_kept l :
  total_words (filter (fun p => truthy (strip p)) l) = total_words l.
Proof.
  unfold total_words. induction l as [|p l IH]; [reflexivity|].
  cbn [filter]. destruct (strip p) eqn:Hp; cbn [truthy map fold_right].
  - rewrite IH, (blank_no_words p Hp). lia.
  - now rewrite IH.
Qed.

(** The word count a parser reports is the sum of the word counts of the
    pages ([PDFParser]) or of the paragraphs ([DocxParser], which drops
    the blank ones): joining with blank lines neither merges nor splits
    a word. A PDF's page count is the number of its page texts, and a
    DOCX document has no page texts. *)
Theorem parsers_count_words base extracted pdf_info paragraphs core_props :
  meta_word_count (doc_metadata (pdf_parse base extracted pdf_info))
  = total_words (doc_pages (pdf_parse base extracted pdf_info))
  /\ meta_pages (doc_metadata (pdf_parse base extracted pdf_info))
     = len (doc_pages (pdf_parse base extracted pdf_info))
  /\ meta_word_count (doc_metadata (docx_parse base paragraphs core_props))
     = total_words paragraphs
  /\ doc_pages (docx_parse base paragraphs core_props) = [].
Proof.
  repeat split.
  - unfold pdf_parse. cbn [doc_pages doc_metadata].
    destruct pdf_info as [[|entry info]|]; cbn [meta_word_count];
      apply word_count_join.
  - unfold pdf_parse. cbn [doc_pages doc_metadata].
    destruct pdf_info as [[|entry info]|]; cbn [meta_pages];
      unfold len; now rewrite List.length_map.
  - unfold docx_parse. cbn [doc_metadata].
    destruct core_props as [[core_title core_author]|];
      cbn [meta_word_count]; now rewrite word_count_join, total_words_kept.
Qed.

End ServerFacts.
